(** * shardcache: a sharded in-memory cache with LRU / 2Q eviction

    A shallow embedding of the cache engine (packages [util], [policy],
    [policy/lru], [policy/twoq], [singleflight] and [cache]) and the proofs
    of its specification.

    Conventions.
    - Go's [int], [int64] and [uint64] values are integers of [Z]; every
      arithmetic operation of the source is followed by the wrap-around of
      its type ([wrap64], [wrapu64]).
    - A [*node] is an address in a per-shard heap; [nil] is [None].
    - A function returns [None] where the Go code panics (a [nil]
      dereference, an index out of range, a length that [make] refuses) or,
      for a loop run on fuel, where the fuel does not suffice.  Running out
      of memory is not a panic and is not modelled.
    - Calls on [Options.Metrics] and [Options.OnEvict] are recorded, oldest
      first, in the [log] of the shard that makes them. *)

From Stdlib Require Import ZArith Lia.
From stdpp Require Import base option list gmap strings.

Local Open Scope Z_scope.

(** ** Machine integers *)

Definition MaxInt32 : Z := 2 ^ 31 - 1.
Definition MaxInt64 : Z := 2 ^ 63 - 1.
Definition MinInt64 : Z := - 2 ^ 63.

(** Two's-complement reduction to [int64] (Go's [int] on 64-bit targets). *)
Definition wrap64 (z : Z) : Z := (z + 2 ^ 63) mod 2 ^ 64 - 2 ^ 63.

(** Reduction to [uint64]. *)
Definition wrapu64 (z : Z) : Z := z mod 2 ^ 64.

(** Go's integer division truncates toward zero. *)
Definition go_div (a b : Z) : Z := Z.quot a b.

(** [make([]T, n)] for elements of [elemSize] bytes: the runtime panics
    ("makeslice: len out of range") on a negative length and on a slice of
    more than [maxAlloc] bytes, the size of the heap address space (2^48 on
    the 64-bit targets). *)
Definition maxAlloc : Z := 2 ^ 48.

Definition makeslice_panics (elemSize n : Z) : bool :=
(n <? 0) || (maxAlloc <? elemSize * n).

(** ** Package util *)

Module util.

(** [IsPowerOfTwo(x uint64)]. *)
Definition IsPowerOfTwo (x : Z) : bool :=
negb (x =? 0) && (Z.land x (wrapu64 (x - 1)) =? 0).

(** [NextPow2(x uint64)]: the bit-filling loop, unrolled as in the source. *)
Definition NextPow2 (x : Z) : Z :=
if x <=? 1 then 1
else
  let x := wrapu64 (x - 1) in
  let x := Z.lor x (Z.shiftr x 1) in
  let x := Z.lor x (Z.shiftr x 2) in
  let x := Z.lor x (Z.shiftr x 4) in
  let x := Z.lor x (Z.shiftr x 8) in
  let x := Z.lor x (Z.shiftr x 16) in
  let x := Z.lor x (Z.shiftr x 32) in
  let x := wrapu64 (x + 1) in
  if x =? 0 then Z.shiftl 1 63 else x.

(** [ReasonableShardCount()], for [runtime.GOMAXPROCS(0) = procs]. *)
Definition ReasonableShardCount (procs : Z) : Z :=
let p := if procs <? 1 then 1 else procs in
let n := wrap64 (NextPow2 (wrapu64 (wrap64 (p * 2)))) in
let n := if n <? 1 then 1 else n in
if n >? 256 then 256 else n.

(** [ShardIndex(hash uint64, shards int)]. *)
Definition ShardIndex (hash shards : Z) : Z :=
if shards <=? 1 then 0
else if IsPowerOfTwo (wrapu64 shards)
     then wrap64 (Z.land hash (wrapu64 (wrap64 (shards - 1))))
     else wrap64 (Z.rem hash (wrapu64 shards)).

Definition fnvOffset64 : Z := 1469598103934665603.
Definition fnvPrime64 : Z := 1099511628211.

(** [fnv64aFromBytes]: bytes are integers in [0, 256). *)
Definition fnv64aFromBytes (b : list Z) : Z :=
fold_left (fun h c => wrapu64 (Z.lxor h c * fnvPrime64)) b fnvOffset64.

(** [fnv64aFromUint64]: the eight little-endian bytes of [u]. *)
Fixpoint fnv64aFromUint64_loop (i : nat) (h u : Z) : Z :=
match i with
| O => h
| S i' =>
    fnv64aFromUint64_loop i'
      (wrapu64 (Z.lxor h (Z.land u 255) * fnvPrime64)) (Z.shiftr u 8)
end.

Definition fnv64aFromUint64 (u : Z) : Z :=
fnv64aFromUint64_loop 8 fnvOffset64 u.

(** The eight bytes of a [uint64], least significant first, as
  [binary.LittleEndian.PutUint64] writes them. *)
Definition le_bytes (u : Z) : list Z :=
(fun i => Z.land (Z.shiftr u (8 * Z.of_nat i)) 255) <$> seq 0 8.

(** [Fnv64a[K]] dispatches on the dynamic type of the key; a key type is
  supported when it has an instance of this class. *)
Class Fnv64aKey (K : Type) := Fnv64a : K -> Z.

Definition string_bytes (s : string) : list Z :=
(fun a => Z.of_N (Ascii.N_of_ascii a)) <$> String.list_ascii_of_string s.

#[global] Instance Fnv64a_string : Fnv64aKey string :=
fun s => fnv64aFromBytes (string_bytes s).

(** [int64] keys: [fnv64aFromUint64(uint64(v))]. *)
#[global] Instance Fnv64a_int64 : Fnv64aKey Z :=
fun v => fnv64aFromUint64 (wrapu64 v).

End util.

(** ** Package policy *)

(** A node is known to a policy by its address. *)
Abbreviation ptr := nat (only parsing).

Module policy.

(** The [Node] interface, as far as policies use it: [Key()] reads the key
  of the node at an address of the store [L]. *)
Class Node (K L : Type) := Key : ptr -> L -> option K.

(** The [Hooks] interface: list operations of the shard, acting on the
  store [L] they are bound to. *)
Class Hooks (L : Type) := {
MoveToFront : ptr -> L -> option L;
PushFront : ptr -> L -> option L;
Remove : ptr -> L -> option L;
Back : L -> option ptr;
Len : L -> Z;
}.

End policy.

(** Removal of one element of a [container/list]: the element a policy holds
    for a value is the one nearest the front. *)
Fixpoint remove_first {A} `{EqDecision A} (x : A) (l : list A) : list A :=
  match l with
  | [] => []
  | y :: l' => if decide (x = y) then l' else y :: remove_first x l'
  end.

(** ** Package policy/lru *)

Module lru.
Import policy.

(** The per-shard LRU policy has no state besides its hooks. *)
Inductive lru := mk.

Section defs.
Context {L : Type} `{!Hooks L}.

Definition OnAdd (n : ptr) (p : lru) (l : L) : option (option ptr * lru * L) :=
l' ← PushFront n l;
Some (None, p, l').

Definition OnGet (n : ptr) (p : lru) (l : L) : option (lru * L) :=
l' ← MoveToFront n l;
Some (p, l').

Definition OnUpdate (n : ptr) (p : lru) (l : L) : option (lru * L) :=
l' ← MoveToFront n l;
Some (p, l').

Definition OnRemove (n : ptr) (p : lru) (l : L) : option (lru * L) :=
Some (p, l).
End defs.

End lru.

(** ** Package policy/twoq *)

Module twoq.
Import policy.

Section defs.
Context {K : Type} `{Countable K}.

(** The policy factory [twoQPolicy]. *)
Record twoQPolicy := mkPolicy { p_capIn : Z; p_capGhost : Z }.

(** The per-shard state.  [inList] and [ghostList] are the two
[container/list]s, front first; [inIdx] and [ghostIdx] are the key
sets of the two index maps (the element an index holds for a value
is the occurrence of that value nearest the front). *)
Record twoQ := mkTwoQ {
capIn : Z;
capGhost : Z;
inList : list ptr;
inIdx : gset ptr;
ghostList : list K;
ghostIdx : gset K;
}.

(** [twoq.New(capIn, capGhost)]. *)
Definition New (capIn capGhost : Z) : twoQPolicy :=
let capIn := if capIn <? 1 then 1 else capIn in
let capGhost := if capGhost <? 1 then 1 else capGhost in
mkPolicy capIn capGhost.

(** [twoQPolicy.New(h)]. *)
Definition New_shard (p : twoQPolicy) : twoQ :=
mkTwoQ (p_capIn p) (p_capGhost p) [] ∅ [] ∅.

Definition set_in (il : list ptr) (ii : gset ptr) (q : twoQ) : twoQ :=
mkTwoQ (capIn q) (capGhost q) il ii (ghostList q) (ghostIdx q).

Definition set_ghost (gl : list K) (gi : gset K) (q : twoQ) : twoQ :=
mkTwoQ (capIn q) (capGhost q) (inList q) (inIdx q) gl gi.

(** The loop of [OnRemove] dropping ghosts from the back while the ghost
list is longer than [capGhost].  Every round removes one element, so
the length of the list is fuel enough: when it is used up the list is
empty and the loop leaves through [tail == nil]. *)
Fixpoint trimGhosts (fuel : nat) (q : twoQ) : twoQ :=
match fuel with
| O => q
| S fuel' =>
  if Z.of_nat (length (ghostList q)) >? capGhost q then
    match last (ghostList q) with
    | None => q
    | Some kk =>
        trimGhosts fuel'
          (set_ghost (removelast (ghostList q)) (ghostIdx q ∖ {[kk]}) q)
    end
  else q
end.

Context {L : Type} `{!Node K L, !Hooks L}.

Definition OnAdd (n : ptr) (q : twoQ) (l : L) : option (option ptr * twoQ * L) :=
k ← Key n l;
if decide (k ∈ ghostIdx q) then
(* second chance: straight into Am *)
let q := set_ghost (remove_first k (ghostList q)) (ghostIdx q ∖ {[k]}) q in
l ← PushFront n l;
Some (None, q, l)
else
l ← PushFront n l;
let q := set_in (n :: inList q) ({[n]} ∪ inIdx q) q in
if Z.of_nat (length (inList q)) >? capIn q then
  match last (inList q) with
  | Some lruEl => Some (Some lruEl, q, l)
  | None => Some (None, q, l)
  end
else Some (None, q, l).

Definition OnGet (n : ptr) (q : twoQ) (l : L) : option (twoQ * L) :=
let q :=
if decide (n ∈ inIdx q)
then set_in (remove_first n (inList q)) (inIdx q ∖ {[n]}) q
else q in
l ← MoveToFront n l;
Some (q, l).

Definition OnUpdate (n : ptr) (q : twoQ) (l : L) : option (twoQ * L) :=
OnGet n q l.

Definition OnRemove (n : ptr) (q : twoQ) (l : L) : option (twoQ * L) :=
if decide (n ∈ inIdx q) then
let q := set_in (remove_first n (inList q)) (inIdx q ∖ {[n]}) q in
k ← Key n l;
let gl :=
  if decide (k ∈ ghostIdx q) then remove_first k (ghostList q)
  else ghostList q in
let q := set_ghost (k :: gl) ({[k]} ∪ ghostIdx q) q in
Some (trimGhosts (length (ghostList q)) q, l)
else Some (q, l).
End defs.

Global Arguments twoQPolicy : clear implicits.
Global Arguments twoQ K {_ _}.

End twoq.

(** ** Package singleflight *)

Module singleflight.

Section defs.
Context {K : Type} `{Countable K} {S A : Type}.

(** The group is part of a larger state [S]: [inflight] reads the keys
of its map [g.m], [set_inflight] writes them. *)
Context (inflight : S -> gset K) (set_inflight : gset K -> S -> S).

(** [Do(ctx, key, fn)] as one caller runs it from start to end, no other
caller running meanwhile.  When a record for [key] is in the map the
caller is a follower and waits for a leader to close [done]; with no
leader at work it never returns.  Otherwise it is the leader: it
enters the record, runs [fn], publishes the result and deletes the
record. *)
Definition Do (key : K) (fn : S -> option (A * S)) (s : S) : option (A * S) :=
if decide (key ∈ inflight s) then None
else
let s := set_inflight ({[key]} ∪ inflight s) s in
'(r, s) ← fn s;
Some (r, set_inflight (inflight s ∖ {[key]}) s).
End defs.

End singleflight.

(** ** Package cache: nodes, options, events *)

Module cache.

(** [EvictReason]. *)
Inductive EvictReason := EvictPolicy | EvictTTL | EvictCapacity.

(** The error values [GetOrLoad] can return: [ErrNoLoader], or an error
  made by the loader. *)
Inductive error := ErrNoLoader | ErrLoad (msg : string).

(** The policy factories of the repository ([policy.Policy]): [lru.New()]
  and [twoq.New(capIn, capGhost)]. *)
Inductive Policy := LRU | TwoQ (capIn capGhost : Z).

Section types.
Context {K V : Type} `{Countable K}.

(** A call on the [Metrics] sink or on the [OnEvict] callback. *)
Inductive event :=
| Hit
| Miss
| Evict (reason : EvictReason)
| Size (entries cost : Z)
| OnEvictCall (k : K) (v : V) (reason : EvictReason).

(** [Options].  The [Metrics] sink and the [OnEvict] callback are
observed through the log: [OnEvict] tells whether a callback is
configured.  The clock is read by the caller of the model: an
operation that may read it takes the reading as an argument. *)
Record Options := mkOptions {
Capacity : Z;
Shards : Z;
Policy_ : option Policy;
DefaultTTL : Z;
Cost : option (V -> Z);
MaxCost : Z;
Loader : option (K -> V + error);
OnEvict : bool;
}.

(** [node]. *)
Record node := mkNode {
key : K;
val : V;
prev : option ptr;
next : option ptr;
exp : Z;
ncost : Z;
}.

Definition set_prev (p : option ptr) (x : node) : node :=
mkNode (key x) (val x) p (next x) (exp x) (ncost x).
Definition set_next (p : option ptr) (x : node) : node :=
mkNode (key x) (val x) (prev x) p (exp x) (ncost x).
Definition set_payload (v : V) (e c : Z) (x : node) : node :=
mkNode (key x) v (prev x) (next x) e c.

(** The per-shard policy instances ([policy.ShardPolicy]). *)
Inductive ShardPolicy :=
| ShardLRU (p : lru.lru)
| ShardTwoQ (q : twoq.twoQ K).
End types.

Global Arguments event : clear implicits.
Global Arguments Options K V : clear implicits.
Global Arguments node : clear implicits.
Global Arguments ShardPolicy K {_ _}.

(** *** The shard *)

Module shard.

Section defs.
Context {K V : Type} `{Countable K}.

Local Abbreviation node := (node K V).
Local Abbreviation event := (event K V).
Local Abbreviation Options := (Options K V).
Local Abbreviation ShardPolicy := (ShardPolicy K).

(** [shard].  [heap] holds the nodes the shard has allocated, by
address; [&node{...}] takes an address that is not in the heap.
[hits], [misses] and [evicts] are the padded atomic counters; [log]
records the calls on the metrics sink and on [OnEvict]. *)
Record t := mk {
m : gmap K ptr;
heap : gmap ptr node;
head : option ptr;
tail : option ptr;
len : Z;
cost : Z;
cap : Z;
maxCost : Z;
pol : ShardPolicy;
opt : Options;
hits : Z;
misses : Z;
evicts : Z;
log : list event;
}.

Definition set_m (x : gmap K ptr) (s : t) : t :=
mk x (heap s) (head s) (tail s) (len s) (cost s) (cap s) (maxCost s) (pol s) (opt s) (hits s) (misses s) (evicts s) (log s).
Definition set_heap (x : gmap ptr node) (s : t) : t :=
mk (m s) x (head s) (tail s) (len s) (cost s) (cap s) (maxCost s) (pol s) (opt s) (hits s) (misses s) (evicts s) (log s).
Definition set_head (x : option ptr) (s : t) : t :=
mk (m s) (heap s) x (tail s) (len s) (cost s) (cap s) (maxCost s) (pol s) (opt s) (hits s) (misses s) (evicts s) (log s).
Definition set_tail (x : option ptr) (s : t) : t :=
mk (m s) (heap s) (head s) x (len s) (cost s) (cap s) (maxCost s) (pol s) (opt s) (hits s) (misses s) (evicts s) (log s).
Definition set_len (x : Z) (s : t) : t :=
mk (m s) (heap s) (head s) (tail s) x (cost s) (cap s) (maxCost s) (pol s) (opt s) (hits s) (misses s) (evicts s) (log s).
Definition set_cost (x : Z) (s : t) : t :=
mk (m s) (heap s) (head s) (tail s) (len s) x (cap s) (maxCost s) (pol s) (opt s) (hits s) (misses s) (evicts s) (log s).
Definition set_maxCost (x : Z) (s : t) : t :=
mk (m s) (heap s) (head s) (tail s) (len s) (cost s) (cap s) x (pol s) (opt s) (hits s) (misses s) (evicts s) (log s).
Definition set_pol (x : ShardPolicy) (s : t) : t :=
mk (m s) (heap s) (head s) (tail s) (len s) (cost s) (cap s) (maxCost s) x (opt s) (hits s) (misses s) (evicts s) (log s).
Definition set_hits (x : Z) (s : t) : t :=
mk (m s) (heap s) (head s) (tail s) (len s) (cost s) (cap s) (maxCost s) (pol s) (opt s) x (misses s) (evicts s) (log s).
Definition set_misses (x : Z) (s : t) : t :=
mk (m s) (heap s) (head s) (tail s) (len s) (cost s) (cap s) (maxCost s) (pol s) (opt s) (hits s) x (evicts s) (log s).
Definition set_evicts (x : Z) (s : t) : t :=
mk (m s) (heap s) (head s) (tail s) (len s) (cost s) (cap s) (maxCost s) (pol s) (opt s) (hits s) (misses s) x (log s).
Definition set_log (x : list event) (s : t) : t :=
mk (m s) (heap s) (head s) (tail s) (len s) (cost s) (cap s) (maxCost s) (pol s) (opt s) (hits s) (misses s) (evicts s) x.

Definition emit (e : event) (s : t) : t := set_log (log s ++ [e]) s.

(** The fields the list operations leave alone. *)
Definition rest (s : t) :=
(m s, cap s, maxCost s, pol s, opt s, hits s, misses s, evicts s, log s).

(** A write through a non-nil pointer. *)
Definition store (p : ptr) (f : node -> node) (h : gmap ptr node)
: option (gmap ptr node) :=
x ← h !! p;
Some (<[p := f x]> h).

(** [if p != nil { p.f = ... }]. *)
Definition store_opt (p : option ptr) (f : node -> node)
(h : gmap ptr node) : option (gmap ptr node) :=
match p with
| Some p => store p f h
| None => Some h
end.

(** *** The intrusive list *)

Definition insertFront (n : ptr) (s : t) : option t :=
h ← store n (fun x => set_next (head s) (set_prev None x)) (heap s);
h ← store_opt (head s) (set_prev (Some n)) h;
x ← h !! n;
let tl := match tail s with None => Some n | Some tl => Some tl end in
Some (set_cost (wrap64 (cost s + ncost x))
   (set_len (wrap64 (len s + 1))
     (set_tail tl (set_head (Some n) (set_heap h s))))).

Definition moveToFront (n : ptr) (s : t) : option t :=
if decide (head s = Some n) then Some s
else
(* detach *)
x ← heap s !! n;
h ← store_opt (prev x) (set_next (next x)) (heap s);
x ← h !! n;
h ← store_opt (next x) (set_prev (prev x)) h;
x ← h !! n;
let tl := if decide (tail s = Some n) then prev x else tail s in
(* insert at head *)
h ← store n (fun x => set_next (head s) (set_prev None x)) h;
h ← store_opt (head s) (set_prev (Some n)) h;
let tl := match tl with None => Some n | Some tl => Some tl end in
Some (set_tail tl (set_head (Some n) (set_heap h s))).

Definition removeNode (n : ptr) (s : t) : option t :=
x ← heap s !! n;
h ← store_opt (prev x) (set_next (next x)) (heap s);
x ← h !! n;
h ← store_opt (next x) (set_prev (prev x)) h;
x ← h !! n;
let hd := if decide (head s = Some n) then next x else head s in
let tl := if decide (tail s = Some n) then prev x else tail s in
h ← store n (fun x => set_next None (set_prev None x)) h;
let c := wrap64 (cost s - ncost x) in
let c := if c <? 0 then 0 else c in
Some (set_cost c
   (set_len (wrap64 (len s - 1))
     (set_tail tl (set_head hd (set_heap h s))))).

Definition back (s : t) : option ptr := tail s.

(** *** Policy hooks: [shardHooks] *)

#[global] Instance shardNode : policy.Node K t :=
fun n s => key <$> heap s !! n.

#[global] Instance shardHooks : policy.Hooks t := {|
policy.MoveToFront := moveToFront;
policy.PushFront := insertFront;
policy.Remove := removeNode;
policy.Back := back;
policy.Len := len;
|}.

(** Calls through the [policy.ShardPolicy] interface held in [s.pol]. *)
Definition pol_OnAdd (n : ptr) (s : t) : option (option ptr * t) :=
match pol s with
| ShardLRU p =>
'(ev, p, s) ← lru.OnAdd n p s; Some (ev, set_pol (ShardLRU p) s)
| ShardTwoQ q =>
'(ev, q, s) ← twoq.OnAdd n q s; Some (ev, set_pol (ShardTwoQ q) s)
end.

Definition pol_OnGet (n : ptr) (s : t) : option t :=
match pol s with
| ShardLRU p =>
'(p, s) ← lru.OnGet n p s; Some (set_pol (ShardLRU p) s)
| ShardTwoQ q =>
'(q, s) ← twoq.OnGet n q s; Some (set_pol (ShardTwoQ q) s)
end.

Definition pol_OnUpdate (n : ptr) (s : t) : option t :=
match pol s with
| ShardLRU p =>
'(p, s) ← lru.OnUpdate n p s; Some (set_pol (ShardLRU p) s)
| ShardTwoQ q =>
'(q, s) ← twoq.OnUpdate n q s; Some (set_pol (ShardTwoQ q) s)
end.

Definition pol_OnRemove (n : ptr) (s : t) : option t :=
match pol s with
| ShardLRU p =>
'(p, s) ← lru.OnRemove n p s; Some (set_pol (ShardLRU p) s)
| ShardTwoQ q =>
'(q, s) ← twoq.OnRemove n q s; Some (set_pol (ShardTwoQ q) s)
end.

(** [Policy.New(h)]. *)
Definition pol_New (p : Policy) : ShardPolicy :=
match p with
| LRU => ShardLRU lru.mk
| TwoQ capIn capGhost =>
ShardTwoQ (twoq.New_shard (twoq.New capIn capGhost))
end.

(** *** Construction *)

(** [newShard(capacity, pol, opt)], for [runtime.GOMAXPROCS(0) = procs]. *)
Definition newShard (procs : Z) (capacity : Z) (p : Policy) (o : Options) : t :=
let mc :=
if MaxCost o >? 0 then
let shards := Shards o in
let shards :=
  if shards <=? 0 then util.ReasonableShardCount procs else shards in
go_div (wrap64 (wrap64 (MaxCost o + shards) - 1)) shards
else 0 in
mk ∅ ∅ None None 0 0 capacity mc (pol_New p) o 0 0 0 [].

(** *** Eviction *)

Definition evictNode (n : ptr) (reason : EvictReason) (s : t) : option t :=
s ← pol_OnRemove n s;
s ← removeNode n s;
x ← heap s !! n;
let s := set_m (delete (key x) (m s)) s in
let s := set_evicts (wrapu64 (evicts s + 1)) s in
let s := emit (Evict reason) s in
Some (if OnEvict (opt s) then emit (OnEvictCall (key x) (val x) reason) s
  else s).

(** The count loop of [enforceLimitsLocked]:
[for s.len > s.cap { if tail != nil { evict } else { break } }]. *)
Fixpoint evictWhileLen (fuel : nat) (s : t) : option t :=
match fuel with
| O => None
| S fuel' =>
if len s >? cap s then
  match back s with
  | Some tl => s ← evictNode tl EvictPolicy s; evictWhileLen fuel' s
  | None => Some s
  end
else Some s
end.

(** The cost loop: [for s.cost > s.maxCost { ... }]. *)
Fixpoint evictWhileCost (fuel : nat) (s : t) : option t :=
match fuel with
| O => None
| S fuel' =>
if cost s >? maxCost s then
  match back s with
  | Some tl => s ← evictNode tl EvictCapacity s; evictWhileCost fuel' s
  | None => Some s
  end
else Some s
end.

(** Fuel for the two loops: every round unlinks one node, so a loop
entered with [len] resident nodes makes at most [len] rounds. *)
Definition loop_fuel (s : t) : nat := S (Z.to_nat (len s)).

Definition enforceLimitsLocked (s : t) : option t :=
s ← evictWhileLen (loop_fuel s) s;
s ← (if maxCost s >? 0 then evictWhileCost (loop_fuel s) s else Some s);
Some (emit (Size (len s) (cost s)) s).

(** *** Operations *)

(** [&node{key: k, val: v, exp: ttl, cost: cost}; s.m[k] = n]. *)
Definition alloc (k : K) (v : V) (ttl c : Z) (s : t) : ptr * t :=
let n := fresh (dom (heap s)) in
(n, set_m (<[k := n]> (m s))
  (set_heap (<[n := mkNode k v None None ttl c]> (heap s)) s)).

(** The new-entry path shared by [Add] and [Set]. *)
Definition insertNew (k : K) (v : V) (ttl c : Z) (s : t) : option t :=
let '(n, s) := alloc k v ttl c s in
'(ev, s) ← pol_OnAdd n s;
s ← match ev with
| Some e => evictNode e EvictPolicy s
| None => Some s
end;
enforceLimitsLocked s.

Definition Add (k : K) (v : V) (ttl c : Z) (s : t) : option (bool * t) :=
match m s !! k with
| Some _ => Some (false, s)
| None => s ← insertNew k v ttl c s; Some (true, s)
end.

Definition Set_ (k : K) (v : V) (ttl c : Z) (s : t) : option t :=
match m s !! k with
| Some n =>
x ← heap s !! n;
let oldCost := ncost x in
let s := set_heap (<[n := set_payload v ttl c x]> (heap s)) s in
let s := set_cost (wrap64 (cost s + wrap64 (c - oldCost))) s in
s ← pol_OnUpdate n s;
enforceLimitsLocked s
| None => insertNew k v ttl c s
end.

Definition expiredLocked (now : Z) (x : node) : bool :=
if exp x =? 0 then false else now >? exp x.

(** [Get]; [now] is what the clock reads during the call. *)
Definition Get (now : Z) (k : K) (s : t) : option (option V * t) :=
match m s !! k with
| None =>
Some (None, emit Miss (set_misses (wrap64 (misses s + 1)) s))
| Some n =>
x ← heap s !! n;
if expiredLocked now x then
  s ← evictNode n EvictTTL s;
  Some (None, emit Miss (set_misses (wrap64 (misses s + 1)) s))
else
  s ← pol_OnGet n s;
  x ← heap s !! n;
  Some (Some (val x), emit Hit (set_hits (wrap64 (hits s + 1)) s))
end.

Definition Remove (k : K) (s : t) : option (bool * t) :=
match m s !! k with
| None => Some (false, s)
| Some n =>
s ← pol_OnRemove n s;
s ← removeNode n s;
Some (true, set_m (delete k (m s)) s)
end.

Definition Len (s : t) : Z := len s.
End defs.

Global Arguments t K V {_ _}.
End shard.

(** *** The sharded cache *)

Section defs.
Context {K V : Type} `{Countable K} `{!util.Fnv64aKey K}.

Local Abbreviation Options := (Options K V).

(** [cache].  [sf] is the set of keys with a call in flight in the
singleflight group. *)
Record t := mk {
shards : list (shard.t K V);
closed : bool;
opt : Options;
sf : gset K;
}.

Definition set_shards (x : list (shard.t K V)) (c : t) : t :=
mk x (closed c) (opt c) (sf c).
Definition set_closed (x : bool) (c : t) : t :=
mk (shards c) x (opt c) (sf c).
Definition set_sf (x : gset K) (c : t) : t :=
mk (shards c) (closed c) (opt c) x.

(** The shard count [New] settles on, for [runtime.GOMAXPROCS(0) = procs]. *)
Definition shard_count (procs : Z) (o : Options) : Z :=
let sh := Shards o in
if sh <=? 0 then
let auto := wrap64 (2 * procs) in
let sh := wrap64 (util.NextPow2 (wrapu64 auto)) in
if sh <? 1 then 1 else sh
else wrap64 (util.NextPow2 (wrapu64 sh)).

(** [New(opt)].  It panics when [Capacity <= 0], and in
[make([]*shard[K, V], sh)] when the shard count is negative or the slice
of pointers (8 bytes each) is larger than the runtime allocates. *)
Definition New (procs : Z) (o : Options) : option t :=
if Capacity o <=? 0 then None
else
let p := match Policy_ o with Some p => p | None => LRU end in
let sh := shard_count procs o in
if makeslice_panics 8 sh then None
else
  let perShardCap := go_div (wrap64 (wrap64 (Capacity o + sh) - 1)) sh in
  Some (mk (replicate (Z.to_nat sh) (shard.newShard procs perShardCap p o))
           false o ∅).

(** [getShard]: the index of the shard of [k]. *)
Definition shard_index (k : K) (c : t) : Z :=
Z.land (wrap64 (util.Fnv64a k)) (wrap64 (Z.of_nat (length (shards c)) - 1)).

Definition getShard (k : K) (c : t) : option (shard.t K V) :=
let idx := shard_index k c in
if idx <? 0 then None else shards c !! Z.to_nat idx.

(** The shard is updated in place. *)
Definition putShard (k : K) (s : shard.t K V) (c : t) : t :=
set_shards (<[Z.to_nat (shard_index k c) := s]> (shards c)) c.

(** [deadline(ttl)]; [now] is what the clock reads. *)
Definition deadline (now : Z) (ttl : Z) : Z :=
if ttl <=? 0 then 0 else wrap64 (now + ttl).

Definition defaultDeadline (now : Z) (c : t) : Z :=
if DefaultTTL (opt c) <=? 0 then 0 else deadline now (DefaultTTL (opt c)).

Definition costOf (v : V) (c : t) : Z :=
match Cost (opt c) with
| None => 0
| Some f =>
  let iv := f v in
  let iv := if iv <? 0 then 0 else iv in
  if iv >? MaxInt32 then MaxInt32 else iv
end.

Definition Add (now : Z) (k : K) (v : V) (c : t) : option (bool * t) :=
if closed c then Some (false, c)
else
s ← getShard k c;
let ttl := defaultDeadline now c in
let cost := costOf v c in
'(r, s) ← shard.Add k v ttl cost s;
Some (r, putShard k s c).

Definition Set_ (now : Z) (k : K) (v : V) (c : t) : option t :=
if closed c then Some c
else
s ← getShard k c;
let ttl := defaultDeadline now c in
let cost := costOf v c in
s ← shard.Set_ k v ttl cost s;
Some (putShard k s c).

Definition SetWithTTL (now : Z) (k : K) (v : V) (ttl : Z) (c : t) : option t :=
if closed c then Some c
else
s ← getShard k c;
let cost := costOf v c in
s ← shard.Set_ k v (deadline now ttl) cost s;
Some (putShard k s c).

Definition Get (now : Z) (k : K) (c : t) : option (option V * t) :=
if closed c then Some (None, c)
else
s ← getShard k c;
'(r, s) ← shard.Get now k s;
Some (r, putShard k s c).

Definition Remove (k : K) (c : t) : option (bool * t) :=
if closed c then Some (false, c)
else
s ← getShard k c;
'(r, s) ← shard.Remove k s;
Some (r, putShard k s c).

Definition Len (c : t) : Z :=
fold_left (fun total s => wrap64 (total + shard.Len s)) (shards c) 0.

Definition Close (c : t) : t := set_closed true c.

(** [GetOrLoad(ctx, k)], run by one caller from start to end.  [now1],
[now2] and [now3] are the readings of the clock at the fast-path
[Get], at the [Get] inside the flight and at the [Set] that stores
the loaded value.  A result [(v, err)] with [err != nil] is [inr err]. *)
Definition GetOrLoad (now1 now2 now3 : Z) (k : K) (c : t)
: option ((V + error) * t) :=
'(r, c) ← Get now1 k c;
match r with
| Some v => Some (inl v, c)
| None =>
  match Loader (opt c) with
  | None => Some (inr ErrNoLoader, c)
  | Some load =>
      singleflight.Do sf set_sf k
        (fun c =>
           '(r, c) ← Get now2 k c;
           match r with
           | Some v => Some (inl v, c)
           | None =>
               match load k with
               | inl v => c ← Set_ now3 k v c; Some (inl v, c)
               | inr e => Some (inr e, c)
               end
           end) c
  end
end.

(** *** Sequences of public operations *)

Inductive op :=
| OpAdd (now : Z) (k : K) (v : V)
| OpSet (now : Z) (k : K) (v : V)
| OpSetWithTTL (now : Z) (k : K) (v : V) (ttl : Z)
| OpGet (now : Z) (k : K)
| OpRemove (k : K)
| OpGetOrLoad (now1 now2 now3 : Z) (k : K)
| OpClose.

Definition run_op (o : op) (c : t) : option t :=
match o with
| OpAdd now k v => snd <$> Add now k v c
| OpSet now k v => Set_ now k v c
| OpSetWithTTL now k v ttl => SetWithTTL now k v ttl c
| OpGet now k => snd <$> Get now k c
| OpRemove k => snd <$> Remove k c
| OpGetOrLoad now1 now2 now3 k => snd <$> GetOrLoad now1 now2 now3 k c
| OpClose => Some (Close c)
end.

Fixpoint run (ops : list op) (c : t) : option t :=
match ops with
| [] => Some c
| o :: ops => c ← run_op o c; run ops c
end.
End defs.

Global Arguments op : clear implicits.

Global Arguments t K V {_ _}.
End cache.


(** * Representation of the intrusive list *)

Section list_repr.
Context {K V : Type}.
Import cache.

Local Abbreviation node := (node K V).

Definition head_or (l : list ptr) (d : option ptr) : option ptr :=
  match l with
  | [] => d
  | p :: _ => Some p
  end.

Definition last_or (l : list ptr) (d : option ptr) : option ptr :=
  match last l with
  | Some p => Some p
  | None => d
  end.

(** [seg h prv l nxt]: the nodes at the addresses [l] are chained in this
    order by their links; the [prev] of the first is [prv] and the [next]
    of the last is [nxt]. *)
Fixpoint seg (h : gmap ptr node) (prv : option ptr) (l : list ptr)
    (nxt : option ptr) : Prop :=
  match l with
  | [] => True
  | p :: l' =>
      ∃ x, h !! p = Some x ∧ prev x = prv ∧ next x = head_or l' nxt ∧
           seg h (Some p) l' nxt
  end.

(** The heap [h] holds the list [l], MRU first, between [hd] and [tl]. *)
Definition dll (h : gmap ptr node) (hd tl : option ptr) (l : list ptr) : Prop :=
  seg h None l None ∧ hd = head l ∧ tl = last l ∧ NoDup l.

(** What a node carries besides its links. *)
Definition payload (x : node) : K * V * Z * Z :=
  (key x, val x, exp x, ncost x).

(** [h'] differs from [h] in links only. *)
Definition same_payload (h h' : gmap ptr node) : Prop :=
  ∀ p, payload <$> h' !! p = payload <$> h !! p.
End list_repr.

(** * Invariants of the 2Q policy *)

Section twoq_inv.
Context {K : Type} `{Countable K}.
Import policy twoq.

(** The keys of the resident nodes, as the caller of the policy has them:
    [res p = Some k] when the node at [p] is resident with key [k]. *)
Definition res_inj (res : ptr -> option K) : Prop :=
  ∀ p p' k, res p = Some k → res p' = Some k → p = p'.

(** The node at [n] enters ([o = Some k]) or leaves ([o = None]). *)
Definition res_set (n : ptr) (o : option K) (res : ptr -> option K)
  : ptr -> option K :=
  fun p => if decide (p = n) then o else res p.

Record twoq_inv (res : ptr -> option K) (q : twoQ K) : Prop := {
  in_nodup : NoDup (inList q);
  in_idx : ∀ p, p ∈ inIdx q ↔ p ∈ inList q;
  in_res : ∀ p, p ∈ inIdx q → is_Some (res p);
  gh_nodup : NoDup (ghostList q);
  gh_idx : ∀ k, k ∈ ghostIdx q ↔ k ∈ ghostList q;
  in_gh_disj : ∀ p k, p ∈ inIdx q → res p = Some k → k ∉ ghostIdx q;
}.

(** The calling discipline of the shard, for a policy bound to any hooks:
    [disciplined R q] when [q] is the state of a 2Q policy after a run of
    callbacks that have returned, [R] being the resident nodes and their
    keys.  [OnAdd] is called on a node that is not resident, whose key no
    resident node has; [OnGet], [OnUpdate] and [OnRemove] are called on
    resident nodes, and the node [OnRemove] is called on leaves. *)
Inductive disciplined {L : Type} `{!Node K L, !Hooks L}
  : gmap ptr K -> twoQ K -> Prop :=
| disc_New p :
    disciplined ∅ (New_shard p)
| disc_OnAdd R q n k l ev q' l' :
    disciplined R q →
    R !! n = None → (∀ p, R !! p ≠ Some k) →
    Key n l = Some k →
    OnAdd n q l = Some (ev, q', l') →
    disciplined (<[n := k]> R) q'
| disc_OnGet R q n l q' l' :
    disciplined R q →
    is_Some (R !! n) →
    OnGet n q l = Some (q', l') →
    disciplined R q'
| disc_OnUpdate R q n l q' l' :
    disciplined R q →
    is_Some (R !! n) →
    OnUpdate n q l = Some (q', l') →
    disciplined R q'
| disc_OnRemove R q n k l q' l' :
    disciplined R q →
    R !! n = Some k →
    Key n l = Some k →
    OnRemove n q l = Some (q', l') →
    disciplined (delete n R) q'.
End twoq_inv.

(** * Invariants of a shard *)

Section shard_inv.
Context {K V : Type} `{Countable K}.
Import cache.
Implicit Types (s : shard.t K V) (h : gmap ptr (node K V)) (l : list ptr).

Definition node_cost h (p : ptr) : Z :=
  match h !! p with
  | Some x => ncost x
  | None => 0
  end.

Definition sum_cost h l : Z := foldr (fun p a => node_cost h p + a) 0 l.

(** The resident nodes of a shard whose list is [l], with their keys. *)
Definition res_of h l : ptr -> option K :=
  fun p => if decide (p ∈ l) then key <$> h !! p else None.

Definition pol_inv (res : ptr -> option K) (p : ShardPolicy K) : Prop :=
  match p with
  | ShardLRU _ => True
  | ShardTwoQ q => twoq_inv res q ∧ 1 <= twoq.capIn q
  end.

(** [wf s l]: the shard [s] is well formed and its list, MRU first, is [l].
    The list may be one node longer than [cap]: this is the state between
    an insertion and the enforcement of the limits. *)
Record wf s l : Prop := {
  wf_dll : dll (shard.heap s) (shard.head s) (shard.tail s) l;
  wf_len : shard.len s = Z.of_nat (length l);
  wf_cost : shard.cost s = sum_cost (shard.heap s) l;
  wf_map : ∀ k p, shard.m s !! k = Some p ↔
                  p ∈ l ∧ key <$> shard.heap s !! p = Some k;
  wf_ncost : ∀ p x, p ∈ l → shard.heap s !! p = Some x →
                    0 <= ncost x <= MaxInt32;
  wf_pol : pol_inv (res_of (shard.heap s) l) (shard.pol s);
  wf_cap : 1 <= shard.cap s < 2 ^ 32;
  wf_room : Z.of_nat (length l) <= shard.cap s + 1;
}.

(** The invariant between operations. *)
Definition inv s : Prop :=
  ∃ l, wf s l ∧ Z.of_nat (length l) <= shard.cap s ∧
       (shard.maxCost s > 0 → shard.cost s <= shard.maxCost s).

(** The total cost of the resident nodes: the nodes the map refers to. *)
Definition resident_cost s : Z :=
  foldr (fun kp a => node_cost (shard.heap s) kp.2 + a) 0
        (map_to_list (shard.m s)).

(** The invariants the specification states for a shard. *)
Definition shard_ok s : Prop :=
  Z.of_nat (size (shard.m s)) = shard.len s ∧
  resident_cost s = shard.cost s ∧
  shard.len s <= shard.cap s ∧
  (shard.maxCost s > 0 → shard.cost s <= shard.maxCost s).

(** What [evictNode] reports for the node [x] evicted for [r]. *)
Definition evict_events (o : Options K V) (x : node K V) (r : EvictReason)
  : list (event K V) :=
  Evict r :: (if OnEvict o then [OnEvictCall (key x) (val x) r] else []).

(** The reports for the nodes at [ps], evicted in this order for [r]. *)
Definition evicted_events (o : Options K V) h (r : EvictReason)
    (ps : list ptr) : list (event K V) :=
  flat_map (fun p => match h !! p with
                     | Some x => evict_events o x r
                     | None => []
                     end) ps.

(** [n] increments of the eviction counter. *)
Definition bump_evicts (n : nat) (e : Z) : Z :=
  Nat.iter n (fun e => wrapu64 (e + 1)) e.
End shard_inv.

(** * Invariant of the cache *)

Section cache_inv.
Context {K V : Type} `{Countable K}.

(** Every shard satisfies its invariant, and there is at least one. *)
Definition shards_inv (c : cache.t K V) : Prop :=
  Forall inv (cache.shards c) ∧
  1 <= Z.of_nat (length (cache.shards c)) <= 2 ^ 62.

(** Between operations, moreover, no load is in flight. *)
Definition cache_inv (c : cache.t K V) : Prop :=
  shards_inv c ∧ cache.sf c = ∅.
End cache_inv.

(** * Observations used in the statements *)

Section observations.
Context {K V : Type} `{Countable K} `{!util.Fnv64aKey K}.
Import cache.

(** The value a shard stores for [k]. *)
Definition stored (s : shard.t K V) (k : K) : option V :=
n ← shard.m s !! k; val <$> shard.heap s !! n.

(** The value the cache stores for [k], in the shard of [k]. *)
Definition cache_stored (c : cache.t K V) (k : K) : option V :=
s ← cache.getShard k c; stored s k.

(** The number of [Evict] reports in a log. *)
Definition is_evict (e : event K V) : bool :=
match e with
| Evict _ => true
| _ => false
end.

Definition count_evict (evs : list (event K V)) : nat :=
length (List.filter is_evict evs).

(** The reasons of the [Evict] reports of [evs] are among [rs]. *)
Definition evict_reasons_in (rs : list EvictReason) (evs : list (event K V)) : Prop :=
∀ r, Evict r ∈ evs → r ∈ rs.

(** The removals an operation makes on its own account are all reported:
  between [s] and [s'], [ins] entries entering, the log grows by [evs];
  the eviction counter is incremented once per [Evict] of [evs]; as many
  entries have left the map as [evs] has [Evict] reports; and the
  reasons reported are among [rs]. *)
Definition accounted (s s' : shard.t K V) (ins : Z) (rs : list EvictReason)
: Prop :=
∃ evs,
  shard.log s' = shard.log s ++ evs ∧
  shard.evicts s' = bump_evicts (count_evict evs) (shard.evicts s) ∧
  Z.of_nat (size (shard.m s)) + ins - Z.of_nat (size (shard.m s'))
    = Z.of_nat (count_evict evs) ∧
  evict_reasons_in rs evs.

(** [n.exp != 0 && now() > n.exp]. *)
Definition expired (now : Z) (x : node K V) : Prop :=
exp x ≠ 0 ∧ now > exp x.
End observations.

(** * Sample configurations *)

Module samples.
Import cache.

(** Two entries, one shard, LRU, eviction callback set. *)
Definition opt_lru : Options string Z :=
mkOptions 2 1 None 0 None 0 None true.

(** Three entries, one shard, 2Q with [capIn = 1] and [capGhost = 2]. *)
Definition opt_2q : Options string Z :=
mkOptions 3 1 (Some (TwoQ 1 2)) 0 None 0 None false.

(** Cost limiting: the cost of a value is the value, at most 10 in all. *)
Definition opt_cost : Options string Z :=
mkOptions 100 1 None 0 (Some (fun v => v)) 10 None false.

(** Three shards asked for, a cost limit of 12. *)
Definition opt_three : Options string Z :=
mkOptions 10 3 None 0 None 12 None false.


(** More shards than [make] takes: 2^45 + 1 rounds up to 2^46. *)
Definition opt_many : Options string Z :=
mkOptions 1 (2 ^ 45 + 1) None 0 None 0 None false.

(** A loader that fails on every key. *)
Definition opt_failing : Options string Z :=
mkOptions 4 1 None 0 None 0 (Some (fun _ => inr (ErrLoad "boom"))) false.

(** A loader that gives every key the value 42. *)
Definition opt_loading : Options string Z :=
mkOptions 4 1 None 0 None 0 (Some (fun _ => inl 42)) false.

(** Hooks on a bare list of addresses, as the tests of the policies use
  them; the node at address 0 has key "a", every other node key "b". *)
Definition listNode : policy.Node string (list ptr) :=
fun n _ => Some (if decide (n = 0%nat) then "a" else "b")%string.

Definition listHooks : policy.Hooks (list ptr) := {|
policy.MoveToFront := fun n l => Some (n :: remove_first n l);
policy.PushFront := fun n l => Some (n :: l);
policy.Remove := fun n l => Some (remove_first n l);
policy.Back := fun l => last l;
policy.Len := fun l => Z.of_nat (length l);
|}.

(** 2Q states for [capIn = 1], [capGhost = 2]: fresh, and after "a" was
  added and removed and "b" added. *)
Definition q_fresh : twoq.twoQ string := twoq.New_shard (twoq.New 1 2).

Definition q_after : twoq.twoQ string :=
twoq.mkTwoQ 1 2 [1%nat] {[1%nat]} ["a"%string] {["a"%string]}.

(** The same policy with the node of "a" in A1in, and after that node was
  removed. *)
Definition q_in : twoq.twoQ string :=
twoq.mkTwoQ 1 2 [0%nat] {[0%nat]} [] ∅.

Definition q_gone : twoq.twoQ string :=
twoq.mkTwoQ 1 2 [] ∅ ["a"%string] {["a"%string]}.

(** Shards on their own: an empty one of capacity 2; the same after
  [Add("k", 7)] with deadline 5 and cost 1; an empty one whose cost limit
  is 10. *)
Definition shard_empty : shard.t string Z := shard.newShard 1 2 LRU opt_lru.

Definition shard_k : shard.t string Z :=
default shard_empty (snd <$> shard.Add "k" 7 5 1 shard_empty).

Definition shard_cost : shard.t string Z := shard.newShard 1 100 LRU opt_cost.

(** [shard_k] after [Remove("k")]: the node stays in the heap, unlinked. *)
Definition shard_gone : shard.t string Z :=
default shard_k (snd <$> shard.Remove "k" shard_k).

(** The cache [New] builds for one processor, or an empty closed cache
  where [New] panics. *)
Definition build (o : Options string Z) : cache.t string Z :=
default (cache.mk [] true o ∅) (cache.New 1 o).

(** The cache of [build o] after the operations [ops]. *)
Definition after (ops : list (op string Z)) (o : Options string Z)
: cache.t string Z :=
default (build o) (cache.run ops (build o)).
End samples.

(** * Reachable states and what operations leave alone *)

Section reach.
Context {K V : Type} `{Countable K} `{!util.Fnv64aKey K}.
Import cache.

(** [c] is a state of a cache that [New(o)] built, after some public
operations run one after the other.  The capacity is below 2^32, so
that the arithmetic of [New] does not wrap around. *)
Definition reachable (o : Options K V) (c : cache.t K V) : Prop :=
∃ procs c0 ops,
cache.New procs o = Some c0 ∧ Capacity o < 2 ^ 32 ∧
cache.run ops c0 = Some c.

(** The limits and the options of a shard. *)
Definition shard_conf (s : shard.t K V) : Z * Z * Options K V :=
(shard.cap s, shard.maxCost s, shard.opt s).

(** The key an operation is called for. *)
Definition op_key (x : op K V) : option K :=
match x with
| OpAdd _ k _ | OpSet _ k _ | OpSetWithTTL _ k _ _ | OpGet _ k
| OpRemove k | OpGetOrLoad _ _ _ k => Some k
| OpClose => None
end.

(** The keys a shard holds, most recently used first, when its list of
nodes is [l]. *)
Definition keys_of (s : shard.t K V) (l : list ptr) : list K :=
omap (fun p => key <$> shard.heap s !! p) l.
End reach.

Section static.
Context {K V : Type} `{Countable K} `{!util.Fnv64aKey K}.
Import cache.

(** What no operation changes: the options of the cache, the number of
shards, and the limits and options of every shard. *)
Definition same_static (c c' : cache.t K V) : Prop :=
opt c' = opt c ∧ shard_conf <$> shards c' = shard_conf <$> shards c.

(** What every operation on a key keeps: the invariant of the shards, the
static part, the flight set and the closed flag. *)
Definition keeps (c c' : cache.t K V) : Prop :=
shards_inv c' ∧ same_static c c' ∧ sf c' = sf c ∧ closed c' = closed c.

(** The number of entries of the cache, counted in the maps. *)
Definition entries (c : cache.t K V) : Z :=
foldr (fun s a => Z.of_nat (size (shard.m s)) + a) 0 (shards c).
End static.


Section a1in.
Context {K V : Type} `{Countable K}.
Import cache.

(** The length of A1in and its capacity, for a shard policy (0 for LRU,
which has no such queue). *)
Definition a1in_len (P : ShardPolicy K) : Z :=
match P with
| ShardLRU _ => 0
| ShardTwoQ q => Z.of_nat (length (twoq.inList q))
end.

Definition a1in_cap (P : ShardPolicy K) : Z :=
match P with
| ShardLRU _ => 0
| ShardTwoQ q => twoq.capIn q
end.

(** A1in holds at most [capIn] nodes. *)
Definition a1in_ok (s : shard.t K V) : Prop :=
a1in_len (shard.pol s) <= a1in_cap (shard.pol s).
End a1in.


Section counters.
Context {K V : Type} `{Countable K}.
Import cache.

Definition is_hit (e : event K V) : bool :=
match e with
| Hit => true
| _ => false
end.

Definition is_miss (e : event K V) : bool :=
match e with
| Miss => true
| _ => false
end.

(** The counters and the log of a shard. *)
Definition obs (s : shard.t K V) : Z * Z * Z * list (event K V) :=
(shard.hits s, shard.misses s, shard.evicts s, shard.log s).

(** The counters of a shard agree with what it has reported: [hits],
  [misses] and [evicts] count, modulo 2^64, the [Hit], [Miss] and [Evict]
  calls on the metrics sink. *)
Definition counters_ok (s : shard.t K V) : Prop :=
shard.hits s = wrap64 (Z.of_nat (length (List.filter is_hit (shard.log s)))) ∧
shard.misses s = wrap64 (Z.of_nat (length (List.filter is_miss (shard.log s)))) ∧
shard.evicts s = wrapu64 (Z.of_nat (count_evict (shard.log s))).
End counters.


(** * Machine integers *)

Lemma wrap64_id z : MinInt64 <= z <= MaxInt64 -> wrap64 z = z.
Proof.
  unfold wrap64, MinInt64, MaxInt64. intros Hz.
  rewrite Z.mod_small; lia.
Qed.

Lemma wrapu64_id z : 0 <= z < 2 ^ 64 -> wrapu64 z = z.
Proof. unfold wrapu64. intros Hz. apply Z.mod_small; lia. Qed.

Lemma wrap64_range z : MinInt64 <= wrap64 z <= MaxInt64.
Proof.
  unfold wrap64, MinInt64, MaxInt64.
  pose proof (Z.mod_pos_bound (z + 2 ^ 63) (2 ^ 64)). lia.
Qed.

(** * The intrusive list *)

Section list_facts.
Context {K V : Type}.
Import cache.
Local Abbreviation node := (node K V).
Implicit Types (h : gmap ptr node) (l : list ptr) (p n : ptr).

Lemma last_or_nil d : last_or [] d = d.
Proof. reflexivity. Qed.

Lemma last_or_cons p l d : last_or (p :: l) d = last_or l (Some p).
Proof.
  unfold last_or. destruct l as [|q l]; [done|].
  change (last (p :: q :: l)) with (last (q :: l)).
  destruct (last (q :: l)) eqn:E; [done|]. by apply last_None in E.
Qed.

Lemma last_or_snoc l p d : last_or (l ++ [p]) d = Some p.
Proof. unfold last_or. by rewrite last_snoc. Qed.

Lemma last_or_None l : last_or l None = last l.
Proof. unfold last_or. by destruct (last l). Qed.

Lemma head_or_None l : head_or l None = head l.
Proof. by destruct l. Qed.

Lemma head_or_app l1 l2 d : head_or (l1 ++ l2) d = head_or l1 (head_or l2 d).
Proof. by destruct l1. Qed.

Lemma seg_app h prv l1 l2 nxt :
  seg h prv (l1 ++ l2) nxt ↔
  seg h prv l1 (head_or l2 nxt) ∧ seg h (last_or l1 prv) l2 nxt.
Proof.
  revert prv. induction l1 as [|p l1 IH]; intros prv; simpl.
  - rewrite last_or_nil. tauto.
  - rewrite last_or_cons, head_or_app. split.
    + intros (x & Hx & Hp & Hn & Hs). apply IH in Hs as [Hs1 Hs2].
      split; [|done]. by exists x.
    + intros [(x & Hx & Hp & Hn & Hs1) Hs2]. exists x.
      repeat split; try done. apply IH. done.
Qed.

(** A segment only depends on the links of its own nodes. *)
Lemma seg_frame h h' prv l nxt :
  (∀ p x, p ∈ l → h !! p = Some x →
          ∃ x', h' !! p = Some x' ∧ prev x' = prev x ∧ next x' = next x) →
  seg h prv l nxt → seg h' prv l nxt.
Proof.
  revert prv. induction l as [|p l IH]; intros prv Hfr; simpl; [done|].
  intros (x & Hx & Hp & Hn & Hs).
  destruct (Hfr p x) as (x' & Hx' & Hp' & Hn'); [left|done|].
  exists x'. repeat split; try congruence.
  apply IH; [|done]. intros q y Hq. apply Hfr. by right.
Qed.

Lemma seg_frame_eq h h' prv l nxt :
  (∀ p, p ∈ l → h' !! p = h !! p) →
  seg h prv l nxt → seg h' prv l nxt.
Proof.
  intros Heq. apply seg_frame. intros p x Hp Hx. exists x.
  by rewrite Heq.
Qed.

Lemma seg_lookup h prv l nxt p :
  seg h prv l nxt → p ∈ l → is_Some (h !! p).
Proof.
  revert prv. induction l as [|q l IH]; intros prv; simpl.
  - intros _ Hp. by apply elem_of_nil in Hp.
  - intros (x & Hx & _ & _ & Hs) [->|Hp]%elem_of_cons; eauto.
Qed.

Lemma dll_lookup h hd tl l p : dll h hd tl l → p ∈ l → is_Some (h !! p).
Proof. intros (Hs & _). by eapply seg_lookup. Qed.

Lemma dll_nil h : dll h None None [].
Proof. repeat split; simpl; auto. constructor. Qed.
End list_facts.


Section list_ops.
Context {K V : Type} `{Countable K}.
Import cache.
Local Abbreviation node := (node K V).
Implicit Types (h : gmap ptr node) (l : list ptr) (p n : ptr) (s : shard.t K V).

Lemma same_payload_refl h : same_payload h h.
Proof. by intros p. Qed.

Lemma same_payload_trans h1 h2 h3 :
  same_payload h1 h2 → same_payload h2 h3 → same_payload h1 h3.
Proof. intros H12 H23 p. by rewrite H23. Qed.

Lemma same_payload_insert h p x y :
  h !! p = Some x → payload y = payload x → same_payload h (<[p := y]> h).
Proof.
  intros Hx Hy q. destruct (decide (p = q)) as [->|Hne].
  - rewrite lookup_insert_eq, Hx. simpl. by rewrite Hy.
  - by rewrite lookup_insert_ne.
Qed.

Lemma store_Some h p f x :
  h !! p = Some x → shard.store p f h = Some (<[p := f x]> h).
Proof. intros Hx. unfold shard.store. by rewrite Hx. Qed.

Lemma insertFront_spec s l n x :
  dll (shard.heap s) (shard.head s) (shard.tail s) l →
  shard.heap s !! n = Some x → n ∉ l →
  ∃ s', shard.insertFront n s = Some s' ∧
        dll (shard.heap s') (shard.head s') (shard.tail s') (n :: l) ∧
        same_payload (shard.heap s) (shard.heap s') ∧
        shard.len s' = wrap64 (shard.len s + 1) ∧
        shard.cost s' = wrap64 (shard.cost s + ncost x) ∧
        shard.rest s' = shard.rest s.
Proof.
  intros (Hseg & Hhd & Htl & Hnd) Hx Hn.
  unfold shard.insertFront.
  rewrite (store_Some _ _ _ x) by done. simpl.
  destruct l as [|q l]; simpl in *.
  - rewrite Hhd, Htl. simpl. rewrite lookup_insert_eq. simpl.
    eexists. split; [done|]. simpl. repeat split; try done.
    + eexists. rewrite lookup_insert_eq. done.
    + apply NoDup_singleton.
    + by apply (same_payload_insert _ n x).
  - destruct Hseg as (y & Hy & Hyp & Hyn & Hseg).
    assert (n ≠ q) as Hnq by (intros ->; apply Hn; left).
    rewrite Hhd. simpl.
    rewrite (store_Some _ _ _ y) by (by rewrite lookup_insert_ne).
    simpl. rewrite lookup_insert_ne, lookup_insert_eq by done. simpl.
    eexists. split; [done|]. simpl. rewrite Htl.
    repeat split; try done.
    + eexists. rewrite lookup_insert_ne, lookup_insert_eq by done.
      repeat split; try done.
      eexists. rewrite lookup_insert_eq. repeat split; try done.
      eapply seg_frame_eq; [|done]. intros p Hp.
      apply NoDup_cons in Hnd as [Hq _].
      rewrite !lookup_insert_ne; [done| |]; intros ->; [apply Hn; by right|done].
    + change (last (n :: q :: l)) with (last (q :: l)).
      destruct (last (q :: l)) eqn:E; [done|]. by apply last_None in E.
    + apply NoDup_cons. done.
    + apply (same_payload_trans _
               (<[n := set_next (Some q) (set_prev None x)]> (shard.heap s)));
        [by apply (same_payload_insert _ n x)|].
      apply (same_payload_insert _ q y); [by rewrite lookup_insert_ne|done].
Qed.

(** Re-pointing the [next] link of the last node of a segment. *)
Lemma seg_set_last_next h prv l nxt nxt' :
  seg h prv l nxt → NoDup l →
  ∃ h', shard.store_opt (last l) (set_next nxt') h = Some h' ∧
        seg h' prv l nxt' ∧
        (∀ p, p ∉ l → h' !! p = h !! p) ∧
        same_payload h h'.
Proof.
  intros Hseg Hnd. destruct l as [|p l _] using rev_ind.
  - exists h. simpl. repeat split; auto using same_payload_refl.
  - apply seg_app in Hseg as [Hl (y & Hy & Hyp & Hyn & _)].
    apply NoDup_app in Hnd as (_ & Hdisj & _).
    rewrite last_snoc. simpl. rewrite (store_Some _ _ _ y) by done.
    eexists. split; [done|]. repeat split.
    + apply seg_app. split.
      * eapply seg_frame_eq; [|done]. intros q Hq.
        rewrite lookup_insert_ne; [done|]. intros ->.
        eapply Hdisj; [done|left].
      * eexists. rewrite lookup_insert_eq. by repeat split.
    + intros q Hq. rewrite lookup_insert_ne; [done|]. intros ->.
      apply Hq, elem_of_app. right. left.
    + by apply (same_payload_insert _ p y).
Qed.

(** Re-pointing the [prev] link of the first node of a segment. *)
Lemma seg_set_head_prev h prv l nxt prv' :
  seg h prv l nxt → NoDup l →
  ∃ h', shard.store_opt (head l) (set_prev prv') h = Some h' ∧
        seg h' prv' l nxt ∧
        (∀ p, p ∉ l → h' !! p = h !! p) ∧
        same_payload h h'.
Proof.
  intros Hseg Hnd. destruct l as [|q l].
  - exists h. simpl. repeat split; auto using same_payload_refl.
  - destruct Hseg as (y & Hy & Hyp & Hyn & Hseg).
    apply NoDup_cons in Hnd as [Hq _].
    simpl. rewrite (store_Some _ _ _ y) by done.
    eexists. split; [done|]. repeat split.
    + eexists. rewrite lookup_insert_eq. repeat split; try done.
      eapply seg_frame_eq; [|done]. intros p Hp.
      rewrite lookup_insert_ne; [done|]. by intros ->.
    + intros p Hp. rewrite lookup_insert_ne; [done|]. intros ->.
      apply Hp. left.
    + by apply (same_payload_insert _ q y).
Qed.

(** The two detaching steps shared by [removeNode] and [moveToFront]. *)
Lemma detach_spec h l1 n l2 :
  seg h None (l1 ++ n :: l2) None → NoDup (l1 ++ n :: l2) →
  ∃ x h1 h2,
    h !! n = Some x ∧ prev x = last l1 ∧ next x = head l2 ∧
    shard.store_opt (prev x) (set_next (next x)) h = Some h1 ∧
    h1 !! n = Some x ∧
    shard.store_opt (next x) (set_prev (prev x)) h1 = Some h2 ∧
    h2 !! n = Some x ∧
    seg h2 None (l1 ++ l2) None ∧
    (∀ p, p ∉ l1 ++ l2 → h2 !! p = h !! p) ∧
    same_payload h h2.
Proof.
  intros Hseg Hnd.
  apply seg_app in Hseg as [Hl1 (x & Hx & Hxp & Hxn & Hl2)].
  rewrite last_or_None in Hxp. rewrite head_or_None in Hxn. simpl in Hl1.
  apply NoDup_app in Hnd as (Hnd1 & Hdisj & Hnd2).
  apply NoDup_cons in Hnd2 as [Hn2 Hnd2].
  assert (n ∉ l1) as Hn1 by (intros Hn; eapply Hdisj; [done|left]).
  assert (∀ p, p ∈ l1 → p ∉ l2) as Hd12
    by (intros p Hp1 Hp2; eapply Hdisj; [done|by right]).
  destruct (seg_set_last_next _ _ _ _ (head l2) Hl1 Hnd1)
    as (h1 & Hst1 & Hs1 & Hfr1 & Hpl1).
  assert (seg h1 (Some n) l2 None) as Hl2'.
  { eapply seg_frame_eq; [|done]. intros p Hp. apply Hfr1.
    intros Hp1. by eapply Hd12. }
  destruct (seg_set_head_prev _ _ _ _ (last l1) Hl2' Hnd2)
    as (h2 & Hst2 & Hs2 & Hfr2 & Hpl2).
  exists x, h1, h2. rewrite Hxp, Hxn.
  assert (h1 !! n = Some x) as Hx1 by (by rewrite Hfr1).
  assert (h2 !! n = Some x) as Hx2 by (by rewrite Hfr2).
  repeat split; try done.
  - apply seg_app. split.
    + rewrite head_or_None. eapply seg_frame_eq; [|done].
      intros p Hp. apply Hfr2. by apply Hd12.
    + by rewrite last_or_None.
  - intros p Hp. rewrite Hfr2, Hfr1; [done| |]; intros Hp';
      apply Hp, elem_of_app; auto.
  - by eapply same_payload_trans.
Qed.

Lemma removeNode_spec s l1 n l2 :
  dll (shard.heap s) (shard.head s) (shard.tail s) (l1 ++ n :: l2) →
  ∃ s' x,
    shard.heap s !! n = Some x ∧
    shard.removeNode n s = Some s' ∧
    dll (shard.heap s') (shard.head s') (shard.tail s') (l1 ++ l2) ∧
    same_payload (shard.heap s) (shard.heap s') ∧
    shard.len s' = wrap64 (shard.len s - 1) ∧
    shard.cost s' =
      (let c := wrap64 (shard.cost s - ncost x) in if c <? 0 then 0 else c) ∧
    shard.rest s' = shard.rest s.
Proof.
  intros (Hseg & Hhd & Htl & Hnd).
  destruct (detach_spec _ _ _ _ Hseg Hnd)
    as (x & h1 & h2 & Hx & Hxp & Hxn & Hst1 & Hx1 & Hst2 & Hx2 & Hs2 & Hfr & Hpl).
  unfold shard.removeNode. rewrite Hx. simpl. rewrite Hst1. simpl.
  rewrite Hx1. simpl. rewrite Hst2. simpl. rewrite Hx2. simpl.
  rewrite (store_Some _ _ _ x) by done. simpl.
  eexists _, x. split; [done|]. split; [done|]. simpl.
  assert (n ∉ l1 ++ l2) as Hn.
  { intros [Hn|Hn]%elem_of_app.
    - apply NoDup_app in Hnd as (_ & Hdisj & _). eapply Hdisj; [done|left].
    - apply NoDup_app in Hnd as (_ & _ & [Hn2 _]%NoDup_cons). done. }
  repeat split; try done.
  - eapply seg_frame_eq; [|done]. intros p Hp.
    rewrite lookup_insert_ne; [done|]. by intros ->.
  - rewrite Hhd, Hxn. destruct l1 as [|p l1]; simpl.
    + by rewrite decide_True.
    + rewrite decide_False; [done|]. intros [= ->]. apply Hn. left.
  - rewrite Htl, Hxp, last_app. simpl.
    destruct l2 as [|q l2] using rev_ind.
    + simpl. rewrite decide_True by done. by rewrite app_nil_r.
    + rewrite app_comm_cons, !last_snoc.
      rewrite last_app, last_snoc.
      rewrite decide_False; [done|]. intros [= ->].
      apply Hn, elem_of_app. right. apply elem_of_app. right. left.
  - by apply NoDup_app in Hnd as (Hnd1 & Hdisj & [_ Hnd2]%NoDup_cons);
      apply NoDup_app; repeat split; [| intros p Hp1 Hp2; eapply Hdisj; [done|by right] |].
  - eapply same_payload_trans; [done|].
    by apply (same_payload_insert _ n x).
Qed.

Lemma last_cons_ne (p : ptr) l : l ≠ [] → last (p :: l) = last l.
Proof. by destruct l. Qed.

Lemma last_is_Some (l : list ptr) : l ≠ [] → is_Some (last l).
Proof.
  intros Hl. destruct (last l) eqn:E; [by eexists|].
  by apply last_None in E.
Qed.

Lemma moveToFront_spec s l1 n l2 :
  dll (shard.heap s) (shard.head s) (shard.tail s) (l1 ++ n :: l2) →
  ∃ s',
    shard.moveToFront n s = Some s' ∧
    dll (shard.heap s') (shard.head s') (shard.tail s') (n :: l1 ++ l2) ∧
    same_payload (shard.heap s) (shard.heap s') ∧
    shard.len s' = shard.len s ∧
    shard.cost s' = shard.cost s ∧
    shard.rest s' = shard.rest s.
Proof.
  intros (Hseg & Hhd & Htl & Hnd).
  assert (n ∉ l1 ++ l2) as Hn.
  { intros [Hn|Hn]%elem_of_app.
    - apply NoDup_app in Hnd as (_ & Hdisj & _). eapply Hdisj; [done|left].
    - apply NoDup_app in Hnd as (_ & _ & [Hn2 _]%NoDup_cons). done. }
  unfold shard.moveToFront. destruct (decide (shard.head s = Some n)) as [Hh|Hh].
  - assert (l1 = []) as ->.
    { destruct l1 as [|p l1]; [done|]. rewrite Hhd in Hh. simpl in Hh.
      injection Hh as ->. exfalso. apply Hn. left. }
    exists s. repeat split; done.
  - assert (l1 ≠ []) as Hl1.
    { intros ->. apply Hh. by rewrite Hhd. }
    destruct (detach_spec _ _ _ _ Hseg Hnd)
      as (x & h1 & h2 & Hx & Hxp & Hxn & Hst1 & Hx1 & Hst2 & Hx2 & Hs2 & Hfr & Hpl).
    rewrite Hx. simpl. rewrite Hst1. simpl.
    rewrite Hx1. simpl. rewrite Hst2. simpl. rewrite Hx2. simpl.
    rewrite (store_Some _ _ _ x) by done. simpl.
    set (xn := set_next (shard.head s) (set_prev None x)).
    assert (seg (<[n := xn]> h2) None (l1 ++ l2) None) as Hs3.
    { eapply seg_frame_eq; [|done]. intros p Hp.
      rewrite lookup_insert_ne; [done|]. by intros ->. }
    assert (NoDup (l1 ++ l2)) as Hnd'.
    { apply NoDup_app in Hnd as (Hnd1 & Hdisj & [_ Hnd2]%NoDup_cons).
      apply NoDup_app. repeat split; try done.
      intros p Hp1 Hp2. eapply Hdisj; [done|by right]. }
    assert (shard.head s = head (l1 ++ l2)) as Hhd'.
    { rewrite Hhd. by destruct l1. }
    destruct (seg_set_head_prev _ _ _ _ (Some n) Hs3 Hnd')
      as (h4 & Hst4 & Hs4 & Hfr4 & Hpl4).
    rewrite Hhd', Hst4. simpl.
    eexists. split; [done|]. simpl. repeat split; try done.
    + exists xn. rewrite Hfr4, lookup_insert_eq by done.
      repeat split; try done.
    + rewrite Htl, Hxp. rewrite last_cons_ne by (by destruct l1).
      destruct l2 as [|q l2 _] using rev_ind.
      * rewrite decide_True by (by rewrite last_snoc).
        rewrite app_nil_r. by destruct (last_is_Some l1 Hl1) as [t ->].
      * rewrite app_comm_cons, !app_assoc, !last_snoc.
        rewrite decide_False; [done|]. intros [= ->].
        apply Hn, elem_of_app. right. apply elem_of_app. right. left.
    + apply NoDup_cons. done.
    + eapply same_payload_trans; [done|].
      eapply same_payload_trans; [|done].
      by apply (same_payload_insert _ n x).
Qed.
End list_ops.


(** * Removal from a [container/list] *)

Section remove_first.
Context {A : Type} `{EqDecision A}.
Implicit Types (x y : A) (l : list A).

Lemma remove_first_notin x l : x ∉ l → remove_first x l = l.
Proof.
  induction l as [|y l IH]; simpl; [done|].
  intros Hx. apply not_elem_of_cons in Hx as [Hxy Hx].
  rewrite decide_False by done. by rewrite IH.
Qed.

Lemma remove_first_app x l1 l2 :
  x ∉ l1 → remove_first x (l1 ++ x :: l2) = l1 ++ l2.
Proof.
  induction l1 as [|y l1 IH]; simpl; intros Hx.
  - by rewrite decide_True.
  - apply not_elem_of_cons in Hx as [Hxy Hx].
    rewrite decide_False by done. by rewrite IH.
Qed.

Lemma elem_of_remove_first x y l :
  NoDup l → y ∈ remove_first x l ↔ y ∈ l ∧ y ≠ x.
Proof.
  induction l as [|z l IH]; simpl; intros Hnd.
  - split; [by intros ?%elem_of_nil|by intros [?%elem_of_nil _]].
  - apply NoDup_cons in Hnd as [Hz Hnd]. destruct (decide (x = z)) as [->|Hxz].
    + rewrite elem_of_cons. split.
      * intros Hy. split; [by right|]. by intros ->.
      * intros [[->|Hy] Hne]; done.
    + rewrite !elem_of_cons, IH by done. split.
      * intros [->|[Hy Hne]]; split; auto.
      * intros [[->|Hy] Hne]; auto.
Qed.

Lemma remove_first_subseteq x l y : y ∈ remove_first x l → y ∈ l.
Proof.
  induction l as [|z l IH]; simpl; [done|].
  destruct (decide (x = z)); rewrite ?elem_of_cons; [by right|].
  intros [->|Hy]; auto.
Qed.

Lemma NoDup_remove_first x l : NoDup l → NoDup (remove_first x l).
Proof.
  induction l as [|z l IH]; simpl; [done|].
  intros [Hz Hnd]%NoDup_cons. destruct (decide (x = z)); [done|].
  apply NoDup_cons. split; [|by apply IH].
  intros Hz'. by apply Hz, (remove_first_subseteq x).
Qed.
End remove_first.

(** * The 2Q policy keeps its invariant *)

Section twoq_facts.
Context {K : Type} `{Countable K}.
Import policy twoq.
Implicit Types (res : ptr → option K) (q : twoQ K) (n p : ptr) (k : K).

Lemma last_Some_snoc {A} (l : list A) x :
  last l = Some x → ∃ l', l = l' ++ [x].
Proof.
  destruct l as [|y l _] using rev_ind; [done|].
  rewrite last_snoc. intros [= ->]. by exists l.
Qed.

Lemma removelast_snoc {A} (l : list A) x : removelast (l ++ [x]) = l.
Proof. apply removelast_last. Qed.

Lemma trimGhosts_spec fuel q :
  NoDup (ghostList q) → (∀ k, k ∈ ghostIdx q ↔ k ∈ ghostList q) →
  let q' := trimGhosts fuel q in
  capIn q' = capIn q ∧ capGhost q' = capGhost q ∧
  inList q' = inList q ∧ inIdx q' = inIdx q ∧
  NoDup (ghostList q') ∧ (∀ k, k ∈ ghostIdx q' ↔ k ∈ ghostList q') ∧
  ghostIdx q' ⊆ ghostIdx q.
Proof.
  revert q. induction fuel as [|fuel IH]; intros q Hnd Hidx; simpl.
  { repeat split; try done; apply Hidx. }
  destruct (_ >? _); [|repeat split; try done; apply Hidx].
  destruct (last (ghostList q)) as [kk|] eqn:Hlast;
    [|repeat split; try done; apply Hidx].
  apply last_Some_snoc in Hlast as [gl Hgl].
  set (q1 := set_ghost _ _ q).
  assert (ghostList q1 = gl) as Hgl1.
  { unfold q1. simpl. rewrite Hgl. apply removelast_snoc. }
  rewrite Hgl in Hnd. apply NoDup_app in Hnd as (Hnd & Hdisj & _).
  destruct (IH q1) as (H1 & H2 & H3 & H4 & H5 & H6 & H7).
  - by rewrite Hgl1.
  - intros k. rewrite Hgl1. unfold q1. simpl.
    rewrite elem_of_difference, Hidx, Hgl, elem_of_app, list_elem_of_singleton.
    rewrite elem_of_singleton. split.
    + intros [[?|?] ?]; done.
    + intros Hk. split; [by left|]. intros ->. eapply Hdisj; [done|left].
  - split_and!; try done. intros k' Hk'. apply H7 in Hk'.
    unfold q1 in Hk'. simpl in Hk'. by apply elem_of_difference in Hk' as [? _].
Qed.

Lemma New_shard_inv res (pl : twoQPolicy) : twoq_inv res (New_shard pl).
Proof.
  split; simpl.
  - apply NoDup_nil_2.
  - intros n. split; intros Hn;
      [by apply elem_of_empty in Hn|by apply elem_of_nil in Hn].
  - intros n Hn. by apply elem_of_empty in Hn.
  - apply NoDup_nil_2.
  - intros k. split; intros Hk;
      [by apply elem_of_empty in Hk|by apply elem_of_nil in Hk].
  - intros n k Hn. by apply elem_of_empty in Hn.
Qed.

Section callbacks.
Context {L : Type} `{!Node K L, !Hooks L}.
Implicit Types (l : L).

Lemma OnAdd_inv res q n k l ev q' l' :
  twoq_inv res q → res n = None → (∀ p, res p ≠ Some k) →
  Key n l = Some k →
  OnAdd n q l = Some (ev, q', l') →
  twoq_inv (res_set n (Some k) res) q' ∧ PushFront n l = Some l' ∧
  capIn q' = capIn q ∧
  match ev with
  | Some e => e ∈ inIdx q' ∧ (1 <= capIn q → e ≠ n)
  | None => True
  end.
Proof.
  intros [Hnd Hidx Hres Hgnd Hgidx Hdisj] Hn Hk HKey.
  assert (n ∉ inIdx q) as Hnin.
  { intros Hin. apply Hres in Hin as [? ?]. congruence. }
  assert (∀ p, p ∈ inIdx q → res_set n (Some k) res p = res p) as Hresp.
  { intros p Hp. unfold res_set.
    destruct (decide (p = n)) as [->|]; done. }
  unfold OnAdd. rewrite HKey. simpl.
  destruct (decide (k ∈ ghostIdx q)) as [Hg|Hg].
  - destruct (PushFront n l) as [l1|] eqn:Hpf; simpl; [|done].
    intros [= <- <- <-]. split_and!; try done. split; simpl; try done.
    + intros p Hp. rewrite Hresp by done. by apply Hres.
    + by apply NoDup_remove_first.
    + intros k'. rewrite elem_of_difference, elem_of_singleton, Hgidx.
      rewrite elem_of_remove_first by done. done.
    + intros p k' Hp. rewrite Hresp by done. intros Hk'.
      rewrite elem_of_difference. intros [Hk'' _]. by eapply Hdisj.
  - destruct (PushFront n l) as [l1|] eqn:Hpf; simpl; [|done].
    set (q1 := set_in _ _ q).
    assert (twoq_inv (res_set n (Some k) res) q1) as Hinv1.
    { split; simpl; try done.
      - apply NoDup_cons. split; [|done]. by rewrite <- Hidx.
      - intros p. rewrite elem_of_union, elem_of_singleton, elem_of_cons, Hidx.
        done.
      - intros p [->%elem_of_singleton|Hp]%elem_of_union.
        + unfold res_set. rewrite decide_True by done. by eexists.
        + rewrite Hresp by done. by apply Hres.
      - intros p k' [->%elem_of_singleton|Hp]%elem_of_union.
        + unfold res_set. rewrite decide_True by done.
          by intros [= <-].
        + rewrite Hresp by done. by apply Hdisj. }
    assert (∀ e, last (n :: inList q) = Some e →
                 Z.of_nat (S (length (inList q))) > capIn q →
                 e ∈ inIdx q1 ∧ (1 <= capIn q → e ≠ n)) as Hlast.
    { intros e He Hlen. split.
      - apply (in_idx _ _ Hinv1). by apply last_Some_elem_of.
      - intros Hcap ->.
        destruct (inList q) as [|p0 l0] eqn:Hl0; simpl in Hlen; [lia|].
        rewrite last_cons_cons in He.
        apply Hnin, Hidx. by apply last_Some_elem_of. }
    destruct (_ >? _) eqn:Hgt; [apply Z.gtb_lt in Hgt|].
    + destruct (last (n :: inList q)) as [e|] eqn:He.
      * intros ?; simplify_eq. split_and!; try done; apply Hlast; try done; lia.
      * intros ?; simplify_eq. done.
    + intros ?; simplify_eq. done.
Qed.

Lemma OnAdd_Some q n k l l' :
  Key n l = Some k → PushFront n l = Some l' →
  ∃ ev q', OnAdd n q l = Some (ev, q', l').
Proof.
  intros HKey Hpf. unfold OnAdd. rewrite HKey. simpl.
  destruct (decide _); rewrite Hpf; simpl; [by eexists _, _|].
  destruct (_ >? _); [|by eexists _, _].
  destruct (last _); by eexists _, _.
Qed.

Lemma OnGet_Some q n l l' :
  MoveToFront n l = Some l' → ∃ q', OnGet n q l = Some (q', l').
Proof. intros Hmv. unfold OnGet. rewrite Hmv. simpl. by eexists. Qed.

Lemma twoq_inv_ext res res' q :
  (∀ p, res p = res' p) → twoq_inv res q → twoq_inv res' q.
Proof.
  intros Hext [Hnd Hidx Hres Hgnd Hgidx Hdisj]. split; try done.
  - intros p Hp. rewrite <- Hext. by apply Hres.
  - intros p k Hp. rewrite <- Hext. by apply Hdisj.
Qed.

Lemma set_in_remove_inv res q n :
  twoq_inv res q →
  twoq_inv res (set_in (remove_first n (inList q)) (inIdx q ∖ {[n]}) q).
Proof.
  intros [Hnd Hidx Hres Hgnd Hgidx Hdisj]. split; simpl; try done.
  - by apply NoDup_remove_first.
  - intros p. rewrite elem_of_difference, elem_of_singleton, Hidx.
    by rewrite elem_of_remove_first.
  - intros p [Hp _]%elem_of_difference. by apply Hres.
  - intros p k [Hp _]%elem_of_difference. by apply Hdisj.
Qed.

Lemma OnGet_inv res q n l q' l' :
  twoq_inv res q →
  OnGet n q l = Some (q', l') →
  twoq_inv res q' ∧ MoveToFront n l = Some l' ∧ capIn q' = capIn q.
Proof.
  intros Hinv. unfold OnGet.
  destruct (MoveToFront n l) as [l1|]; simpl; [|done].
  intros ?; simplify_eq. split_and!; try done.
  - destruct (decide _); [|done]. by apply set_in_remove_inv.
  - by destruct (decide _).
Qed.

Lemma OnRemove_inv res q n k l q' l' :
  twoq_inv res q → res_inj res →
  res n = Some k → Key n l = Some k →
  OnRemove n q l = Some (q', l') →
  twoq_inv (res_set n None res) q' ∧ l' = l ∧ capIn q' = capIn q ∧
  n ∉ inIdx q'.
Proof.
  intros Hinv Hinj Hn HKey. unfold OnRemove.
  destruct (decide (n ∈ inIdx q)) as [Hin|Hin].
  - rewrite HKey. simpl.
    assert (k ∉ ghostIdx q) as Hk by (by eapply (in_gh_disj _ _ Hinv)).
    rewrite decide_False by done.
    destruct (set_in_remove_inv _ _ n Hinv) as [Hnd Hidx Hres Hgnd Hgidx Hdisj].
    simpl in Hnd, Hidx, Hres, Hgnd, Hgidx, Hdisj.
    set (q2 := set_ghost _ _ _).
    assert (twoq_inv (res_set n None res) q2) as Hinv2.
    { split; simpl; try done.
      - intros p Hp. unfold res_set. rewrite decide_False; [by apply Hres|].
        intros ->. simpl in Hp. apply elem_of_difference in Hp as [_ Hp].
        by apply Hp, elem_of_singleton.
      - apply NoDup_cons. split; [|done]. intros Hk'. by apply Hk, Hgidx.
      - intros k'. rewrite elem_of_union, elem_of_singleton, elem_of_cons.
        by rewrite Hgidx.
      - intros p k' Hp. unfold res_set.
        destruct (decide (p = n)) as [->|Hpn]; [done|]. intros Hk'.
        rewrite elem_of_union, elem_of_singleton.
        intros [->|Hg]; [by apply Hpn, (Hinj _ _ k)|].
        by eapply Hdisj. }
    destruct Hinv2 as [Hnd2 Hidx2 Hres2 Hgnd2 Hgidx2 Hdisj2].
    pose proof (trimGhosts_spec (length (ghostList q2)) q2 Hgnd2 Hgidx2) as Ht.
    cbv zeta in Ht.
    match goal with |- Some (?t, _) = _ → _ => set (q3 := t) end.
    change (trimGhosts _ q2) with q3 in Ht.
    destruct Ht as (H1 & H2 & H3 & H4 & H5 & H6 & H7).
    intros ?; simplify_eq. split_and!; try done.
    + split; try done.
      * by rewrite H3.
      * intros p. by rewrite H3, H4.
      * intros p. rewrite H4. apply Hres2.
      * intros p k'. rewrite H4. intros Hp Hk' Hg. apply H7 in Hg.
        by eapply Hdisj2.
    + rewrite H4. simpl. intros [_ Hp]%elem_of_difference.
      by apply Hp, elem_of_singleton.
  - intros ?; simplify_eq. destruct Hinv as [Hnd Hidx Hres Hgnd Hgidx Hdisj].
    split_and!; try done. split; try done.
    + intros p Hp. unfold res_set. rewrite decide_False; [by apply Hres|].
      by intros ->.
    + intros p k' Hp. unfold res_set.
      destruct (decide (p = n)) as [->|Hpn]; [done|]. by apply Hdisj.
Qed.
End callbacks.
End twoq_facts.


Section shard_facts.
Context {K V : Type} `{Countable K}.
Import cache.
Local Abbreviation node := (node K V).
Implicit Types (h : gmap ptr node) (l : list ptr) (p n : ptr) (s : shard.t K V).

(** ** Payloads, costs, residents *)

Lemma same_payload_key h h' p :
  same_payload h h' → key <$> h' !! p = key <$> h !! p.
Proof.
  intros Hpl. specialize (Hpl p).
  destruct (h' !! p) as [x'|], (h !! p) as [x|]; simpl in *; try done.
  by injection Hpl as -> _ _ _.
Qed.

Lemma same_payload_lookup h h' p x :
  same_payload h h' → h !! p = Some x →
  ∃ x', h' !! p = Some x' ∧ payload x' = payload x.
Proof.
  intros Hpl Hx. specialize (Hpl p). rewrite Hx in Hpl.
  destruct (h' !! p) as [x'|]; simpl in *; [|done].
  exists x'. split; [done|]. congruence.
Qed.

Lemma same_payload_sym h h' : same_payload h h' → same_payload h' h.
Proof. intros Hpl p. by rewrite Hpl. Qed.

Lemma payload_ncost (x y : node) : payload x = payload y → ncost x = ncost y.
Proof. by intros [= _ _ _ ->]. Qed.

Lemma payload_key (x y : node) : payload x = payload y → key x = key y.
Proof. by intros [= -> _ _ _]. Qed.

Lemma payload_val (x y : node) : payload x = payload y → val x = val y.
Proof. by intros [= _ -> _ _]. Qed.

Lemma payload_exp (x y : node) : payload x = payload y → exp x = exp y.
Proof. by intros [= _ _ -> _]. Qed.

Lemma same_payload_node_cost h h' p :
  same_payload h h' → node_cost h' p = node_cost h p.
Proof.
  intros Hpl. specialize (Hpl p). unfold node_cost.
  destruct (h' !! p) as [x'|], (h !! p) as [x|]; simpl in *; try done.
  by injection Hpl as _ _ _ ->.
Qed.

Lemma same_payload_sum_cost h h' l :
  same_payload h h' → sum_cost h' l = sum_cost h l.
Proof.
  intros Hpl. induction l as [|p l IH]; simpl; [done|].
  by rewrite IH, (same_payload_node_cost h h').
Qed.

Lemma sum_cost_app h l1 l2 :
  sum_cost h (l1 ++ l2) = sum_cost h l1 + sum_cost h l2.
Proof. induction l1 as [|p l1 IH]; simpl; [done|]. rewrite IH. lia. Qed.

Lemma sum_cost_mid h l1 n l2 :
  sum_cost h (l1 ++ n :: l2) = sum_cost h (l1 ++ l2) + node_cost h n.
Proof. rewrite !sum_cost_app. simpl. lia. Qed.

Lemma sum_cost_bound h l :
  (∀ p x, p ∈ l → h !! p = Some x → 0 <= ncost x <= MaxInt32) →
  0 <= sum_cost h l <= Z.of_nat (length l) * MaxInt32.
Proof.
  induction l as [|p l IH]; intros Hc; simpl length; simpl sum_cost; [lia|].
  assert (0 <= node_cost h p <= MaxInt32) as Hp.
  { unfold node_cost. destruct (h !! p) as [x|] eqn:Hx.
    - apply (Hc p x); [left|done].
    - unfold MaxInt32. lia. }
  destruct IH as [IH1 IH2]; [intros q y Hq; apply Hc; by right|].
  lia.
Qed.

Lemma sum_cost_frame h h' l :
  (∀ p, p ∈ l → h' !! p = h !! p) → sum_cost h' l = sum_cost h l.
Proof.
  induction l as [|p l IH]; intros Heq; simpl; [done|].
  rewrite IH by (intros q Hq; apply Heq; by right).
  unfold node_cost. rewrite Heq by left. done.
Qed.

Lemma pol_inv_ext res res' (P : ShardPolicy K) :
  (∀ p, res p = res' p) → pol_inv res P → pol_inv res' P.
Proof.
  intros Hext. destruct P; simpl; [done|].
  intros [Hq Hc]. split; [|done]. by eapply twoq_inv_ext.
Qed.

Lemma res_of_inj s l : wf s l → res_inj (res_of (shard.heap s) l).
Proof.
  intros Hwf p p' k. unfold res_of.
  destruct (decide (p ∈ l)) as [Hp|]; [|done].
  destruct (decide (p' ∈ l)) as [Hp'|]; [|done].
  intros Hk Hk'.
  assert (shard.m s !! k = Some p) as H1 by (by apply (wf_map _ _ Hwf)).
  assert (shard.m s !! k = Some p') as H2 by (by apply (wf_map _ _ Hwf)).
  congruence.
Qed.

(** Fields a list operation leaves alone. *)
Lemma rest_eq s s' :
  shard.rest s' = shard.rest s →
  shard.m s' = shard.m s ∧ shard.cap s' = shard.cap s ∧
  shard.maxCost s' = shard.maxCost s ∧ shard.pol s' = shard.pol s ∧
  shard.opt s' = shard.opt s ∧ shard.hits s' = shard.hits s ∧
  shard.misses s' = shard.misses s ∧ shard.evicts s' = shard.evicts s ∧
  shard.log s' = shard.log s.
Proof. unfold shard.rest. intros [= -> -> -> -> -> -> -> -> ->]. done. Qed.

Lemma set_pol_id s : shard.set_pol (shard.pol s) s = s.
Proof. by destruct s. Qed.

Lemma wf_length_bound s l : wf s l → Z.of_nat (length l) <= 2 ^ 32.
Proof. intros Hwf. pose proof (wf_cap _ _ Hwf). pose proof (wf_room _ _ Hwf). lia. Qed.

Lemma NoDup_mid_notin (l1 l2 : list ptr) n :
  NoDup (l1 ++ n :: l2) → (n ∉ l1 ++ l2) ∧ NoDup (l1 ++ l2).
Proof.
  intros Hnd. apply NoDup_app in Hnd as (Hnd1 & Hdisj & Hnd2).
  apply NoDup_cons in Hnd2 as [Hn2 Hnd2]. split.
  - intros [Hn|Hn]%elem_of_app; [|done]. eapply Hdisj; [done|left].
  - apply NoDup_app. split_and!; try done.
    intros p Hp1 Hp2. eapply Hdisj; [done|by right].
Qed.

Lemma elem_of_mid (l1 l2 : list ptr) n p :
  p ∈ (l1 ++ n :: l2) ↔ p = n ∨ p ∈ (l1 ++ l2).
Proof. rewrite !elem_of_app, elem_of_cons. tauto. Qed.
End shard_facts.


Section unlink.
Context {K V : Type} `{Countable K}.
Import cache.
Local Abbreviation node := (node K V).
Implicit Types (h : gmap ptr node) (l : list ptr) (p n : ptr) (s : shard.t K V).

(** [pol.OnRemove(n)] on a resident node: the policy forgets the node, the
    shard is as it was. *)
Lemma pol_OnRemove_spec s l1 n l2 :
  wf s (l1 ++ n :: l2) →
  ∃ P, shard.pol_OnRemove n s = Some (shard.set_pol P s) ∧
       pol_inv (res_set n None (res_of (shard.heap s) (l1 ++ n :: l2))) P.
Proof.
  intros Hwf. unfold shard.pol_OnRemove.
  pose proof (wf_pol _ _ Hwf) as Hpol.
  destruct (shard.pol s) as [p|q] eqn:Hp; simpl.
  - exists (ShardLRU p). done.
  - destruct (dll_lookup _ _ _ _ n (wf_dll _ _ Hwf)) as [x Hx].
    { apply elem_of_mid. by left. }
    assert (res_of (shard.heap s) (l1 ++ n :: l2) n = Some (key x)) as Hres.
    { unfold res_of. rewrite decide_True by (apply elem_of_mid; by left).
      by rewrite Hx. }
    destruct (twoq.OnRemove n q s) as [[q' s']|] eqn:Hrm.
    + destruct Hpol as [Hq Hc].
      eapply OnRemove_inv in Hrm as (Hinv & -> & Hc' & _); try done.
      * exists (ShardTwoQ q'). split; [done|]. simpl. split; [done|]. by rewrite Hc'.
      * by apply res_of_inj.
      * unfold policy.Key, shard.shardNode. by rewrite Hx.
    + exfalso. unfold twoq.OnRemove in Hrm.
      unfold policy.Key, shard.shardNode in Hrm. rewrite Hx in Hrm.
      simpl in Hrm. by destruct (decide _).
Qed.

(** Unlinking a resident node and deleting its key: the common part of
    [Remove] and [evictNode]. *)
Lemma unlink_spec s l1 n l2 :
  wf s (l1 ++ n :: l2) →
  ∃ s1 s2 x,
    shard.pol_OnRemove n s = Some s1 ∧
    shard.removeNode n s1 = Some s2 ∧
    shard.heap s !! n = Some x ∧
    (∃ x', shard.heap s2 !! n = Some x' ∧ payload x' = payload x) ∧
    shard.m s !! key x = Some n ∧
    shard.m s2 = shard.m s ∧
    wf (shard.set_m (delete (key x) (shard.m s2)) s2) (l1 ++ l2) ∧
    shard.cap s2 = shard.cap s ∧ shard.maxCost s2 = shard.maxCost s ∧
    shard.opt s2 = shard.opt s ∧ shard.hits s2 = shard.hits s ∧
    shard.misses s2 = shard.misses s ∧ shard.evicts s2 = shard.evicts s ∧
    shard.log s2 = shard.log s ∧
    shard.cost s2 = shard.cost s - ncost x ∧
    same_payload (shard.heap s) (shard.heap s2).
Proof.
  intros Hwf.
  destruct (pol_OnRemove_spec _ _ _ _ Hwf) as (P & HP & HPinv).
  pose proof (wf_dll _ _ Hwf) as Hdll.
  destruct (removeNode_spec (shard.set_pol P s) l1 n l2 Hdll)
    as (s2 & x & Hx & Hrm & Hdll2 & Hpl & Hlen2 & Hcost2 & Hrest).
  simpl in Hx, Hpl, Hlen2, Hcost2.
  apply rest_eq in Hrest as (Hm & Hcap & Hmc & Hpol & Hopt & Hhits & Hmiss & Hev & Hlog).
  simpl in Hm, Hcap, Hmc, Hpol, Hopt, Hhits, Hmiss, Hev, Hlog.
  destruct Hdll as (_ & _ & _ & Hnd).
  destruct (NoDup_mid_notin _ _ _ Hnd) as [Hn Hnd'].
  pose proof (wf_length_bound _ _ Hwf) as Hlb.
  rewrite length_app in Hlb. simpl in Hlb.
  assert (n ∈ l1 ++ n :: l2) as Hnl by (apply elem_of_mid; by left).
  pose proof (wf_ncost _ _ Hwf n x Hnl Hx) as Hxc.
  assert (shard.cost s = sum_cost (shard.heap s) (l1 ++ l2) + ncost x) as Hcs.
  { rewrite (wf_cost _ _ Hwf), sum_cost_mid. unfold node_cost. by rewrite Hx. }
  assert (0 <= sum_cost (shard.heap s) (l1 ++ l2)
          <= Z.of_nat (length (l1 ++ l2)) * MaxInt32) as Hsb.
  { apply sum_cost_bound. intros p y Hp. apply (wf_ncost _ _ Hwf).
    apply elem_of_mid. by right. }
  rewrite length_app in Hsb.
  assert (shard.cost s2 = shard.cost s - ncost x) as Hcost2'.
  { rewrite Hcost2. cbv zeta. rewrite wrap64_id.
    - destruct (Z.ltb_spec (shard.cost s - ncost x) 0); [lia|done].
    - unfold MinInt64, MaxInt64, MaxInt32 in *. nia. }
  destruct (same_payload_lookup _ _ n x Hpl Hx) as (x' & Hx' & Hxx').
  exists (shard.set_pol P s), s2, x. split_and!; try done.
  - by exists x'.
  - apply (wf_map _ _ Hwf). split; [done|]. by rewrite Hx.
  - split; simpl.
    + done.
    + rewrite Hlen2, (wf_len _ _ Hwf), !length_app. simpl.
      rewrite wrap64_id; unfold MinInt64, MaxInt64; lia.
    + rewrite Hcost2', Hcs, (same_payload_sum_cost _ _ _ Hpl). lia.
    + intros k p. rewrite Hm. rewrite (same_payload_key _ _ _ Hpl).
      destruct (decide (k = key x)) as [->|Hk].
      * rewrite lookup_delete_eq. split; [done|]. intros [Hp Hkp].
        assert (shard.m s !! key x = Some p) as Hmp.
        { apply (wf_map _ _ Hwf). split; [|done]. apply elem_of_mid. by right. }
        assert (shard.m s !! key x = Some n) as Hmn.
        { apply (wf_map _ _ Hwf). split; [done|]. by rewrite Hx. }
        assert (p = n) as -> by congruence. done.
      * rewrite lookup_delete_ne by done. rewrite (wf_map _ _ Hwf).
        rewrite elem_of_mid. split.
        -- intros [[->|Hp] Hkp]; [|done]. rewrite Hx in Hkp. simpl in Hkp. congruence.
        -- intros [Hp Hkp]. auto.
    + intros p y Hp Hy.
      destruct (same_payload_lookup _ _ p y (same_payload_sym _ _ Hpl) Hy)
        as (y' & Hy' & Hyy').
      rewrite (payload_ncost _ _ (eq_sym Hyy')).
      refine (wf_ncost _ _ Hwf p y' _ Hy'). apply elem_of_mid. by right.
    + rewrite Hpol. eapply pol_inv_ext; [|done].
      intros p. unfold res_set, res_of.
      destruct (decide (p = n)) as [->|Hpn].
      * by rewrite decide_False.
      * rewrite (same_payload_key _ _ _ Hpl).
        destruct (decide (p ∈ l1 ++ n :: l2)) as [Hp|Hp].
        -- apply elem_of_mid in Hp as [->|Hp]; [done|]. by rewrite decide_True.
        -- rewrite decide_False; [done|]. intros Hp'. apply Hp, elem_of_mid. by right.
    + rewrite Hcap. apply (wf_cap _ _ Hwf).
    + rewrite Hcap. pose proof (wf_room _ _ Hwf) as Hr.
      rewrite !length_app in *. simpl in Hr. lia.
Qed.

Lemma wf_same s s' l :
  shard.heap s' = shard.heap s → shard.head s' = shard.head s →
  shard.tail s' = shard.tail s → shard.len s' = shard.len s →
  shard.cost s' = shard.cost s → shard.m s' = shard.m s →
  shard.pol s' = shard.pol s → shard.cap s' = shard.cap s →
  wf s l → wf s' l.
Proof.
  destruct s, s'. simpl. intros -> -> -> -> -> -> -> ->.
  intros [H1 H2 H3 H4 H5 H6 H7 H8]. split; done.
Qed.

Lemma evictNode_spec s l1 n l2 r :
  wf s (l1 ++ n :: l2) →
  ∃ s' x,
    shard.heap s !! n = Some x ∧
    shard.evictNode n r s = Some s' ∧
    wf s' (l1 ++ l2) ∧
    shard.m s !! key x = Some n ∧
    shard.m s' = delete (key x) (shard.m s) ∧
    shard.evicts s' = wrapu64 (shard.evicts s + 1) ∧
    shard.log s' = shard.log s ++ evict_events (shard.opt s) x r ∧
    shard.cap s' = shard.cap s ∧ shard.maxCost s' = shard.maxCost s ∧
    shard.opt s' = shard.opt s ∧ shard.hits s' = shard.hits s ∧
    shard.misses s' = shard.misses s ∧
    shard.cost s' = shard.cost s - ncost x ∧
    same_payload (shard.heap s) (shard.heap s').
Proof.
  intros Hwf.
  destruct (unlink_spec _ _ _ _ Hwf)
    as (s1 & s2 & x & Hp & Hrm & Hx & (x' & Hx' & Hxx') & Hmx & Hm & Hwf2 & Hcap
        & Hmc & Hopt & Hhits & Hmiss & Hev & Hlog & Hcost & Hpl).
  unfold shard.evictNode. rewrite Hp. simpl. rewrite Hrm. simpl.
  rewrite Hx'. simpl.
  rewrite (payload_key _ _ Hxx'), (payload_val _ _ Hxx').
  eexists _, x. split; [done|]. split; [done|].
  unfold evict_events. rewrite Hopt. rewrite Hm in Hwf2.
  destruct (OnEvict (shard.opt s)); simpl; rewrite ?Hm, ?Hev, ?Hlog, <- ?app_assoc;
    split_and!; try done; (eapply wf_same; [..|exact Hwf2]; done).
Qed.
End unlink.


Section limits.
Context {K V : Type} `{Countable K}.
Import cache.
Local Abbreviation node := (node K V).
Implicit Types (h : gmap ptr node) (l : list ptr) (p n : ptr) (s : shard.t K V).

Lemma evicted_events_app o h r l1 l2 :
  evicted_events o h r (l1 ++ l2) =
  evicted_events o h r l1 ++ evicted_events o h r l2.
Proof. unfold evicted_events. apply flat_map_app. Qed.

Lemma evicted_events_same_payload o h h' r l :
  same_payload h h' → evicted_events o h' r l = evicted_events o h r l.
Proof.
  intros Hpl. induction l as [|p l IH]; simpl; [done|]. rewrite IH. f_equal.
  specialize (Hpl p).
  destruct (h' !! p) as [x'|], (h !! p) as [x|]; simpl in *; try done.
  unfold evict_events. injection Hpl as -> -> _ _. done.
Qed.

Lemma bump_evicts_S n e : bump_evicts (S n) e = bump_evicts n (wrapu64 (e + 1)).
Proof. unfold bump_evicts. by rewrite Nat.iter_succ_r. Qed.

Lemma wf_tail s l t : wf s (l ++ [t]) → shard.back s = Some t.
Proof.
  intros Hwf. destruct (wf_dll _ _ Hwf) as (_ & _ & Htl & _).
  unfold shard.back. by rewrite Htl, last_snoc.
Qed.

Lemma wf_nil_cost s : wf s [] → shard.cost s = 0.
Proof. intros Hwf. by rewrite (wf_cost _ _ Hwf). Qed.

(** The count loop evicts, from the tail up, the nodes beyond [cap]. *)
Lemma evictWhileLen_spec fuel s l :
  wf s l → (length l < fuel)%nat →
  ∃ s',
    shard.evictWhileLen fuel s = Some s' ∧
    wf s' (take (Z.to_nat (shard.cap s)) l) ∧
    shard.log s' =
      shard.log s ++ evicted_events (shard.opt s) (shard.heap s) EvictPolicy
                       (rev (drop (Z.to_nat (shard.cap s)) l)) ∧
    shard.evicts s' =
      bump_evicts (length (drop (Z.to_nat (shard.cap s)) l)) (shard.evicts s) ∧
    shard.cap s' = shard.cap s ∧ shard.maxCost s' = shard.maxCost s ∧
    shard.opt s' = shard.opt s ∧ shard.hits s' = shard.hits s ∧
    shard.misses s' = shard.misses s ∧
    same_payload (shard.heap s) (shard.heap s').
Proof.
  revert s l. induction fuel as [|fuel IH]; intros s l Hwf Hfuel; [lia|].
  simpl. pose proof (wf_cap _ _ Hwf) as Hcap.
  rewrite (wf_len _ _ Hwf).
  destruct (Z.gtb_spec (Z.of_nat (length l)) (shard.cap s)) as [Hgt|Hle].
  - destruct l as [|t l _] using rev_ind; [simpl in Hgt; lia|].
    rewrite (wf_tail _ _ _ Hwf).
    rewrite length_app in Hgt, Hfuel. simpl in Hgt, Hfuel.
    destruct (evictNode_spec s l t [] EvictPolicy Hwf)
      as (s1 & x & Hx & Hev & Hwf1 & _ & Hm1 & Hevc1 & Hlog1 & Hcap1 & Hmc1 & Hopt1
          & Hhits1 & Hmiss1 & Hcost1 & Hpl1).
    rewrite app_nil_r in Hwf1. rewrite Hev. simpl.
    destruct (IH s1 l Hwf1) as (s' & Hrun & Hwf' & Hlog' & Hevc' & Hcap' & Hmc'
                                & Hopt' & Hhits' & Hmiss' & Hpl'); [lia|].
    exists s'. rewrite Hcap1 in *.
    rewrite take_app_le, drop_app_le by lia.
    rewrite rev_app_distr. simpl.
    split_and!; try congruence.
    + rewrite Hlog', Hlog1, Hopt1, <- app_assoc. f_equal.
      rewrite (evicted_events_same_payload _ _ _ _ _ Hpl1). by rewrite Hx.
    + rewrite Hevc', Hevc1, length_app. simpl.
      rewrite Nat.add_1_r. by rewrite bump_evicts_S.
  - exists s. rewrite take_ge, drop_ge by lia. simpl.
    rewrite app_nil_r. split_and!; done.
Qed.

(** The cost loop evicts from the tail up to the longest prefix of the
    list whose cost is within [maxCost]. *)
Lemma evictWhileCost_spec fuel s l :
  wf s l → (length l < fuel)%nat → 0 <= shard.maxCost s →
  ∃ s' keep d,
    shard.evictWhileCost fuel s = Some s' ∧
    l = keep ++ d ∧
    wf s' keep ∧
    shard.cost s' <= shard.maxCost s ∧
    (∀ p d', d = p :: d' →
             sum_cost (shard.heap s) (keep ++ [p]) > shard.maxCost s) ∧
    shard.log s' =
      shard.log s ++ evicted_events (shard.opt s) (shard.heap s) EvictCapacity
                       (rev d) ∧
    shard.evicts s' = bump_evicts (length d) (shard.evicts s) ∧
    shard.cap s' = shard.cap s ∧ shard.maxCost s' = shard.maxCost s ∧
    shard.opt s' = shard.opt s ∧ shard.hits s' = shard.hits s ∧
    shard.misses s' = shard.misses s ∧
    same_payload (shard.heap s) (shard.heap s').
Proof.
  revert s l. induction fuel as [|fuel IH]; intros s l Hwf Hfuel Hmc; [lia|].
  simpl.
  destruct (Z.gtb_spec (shard.cost s) (shard.maxCost s)) as [Hgt|Hle].
  - destruct l as [|t l _] using rev_ind.
    { rewrite (wf_nil_cost _ Hwf) in Hgt. lia. }
    rewrite (wf_tail _ _ _ Hwf).
    rewrite length_app in Hfuel. simpl in Hfuel.
    destruct (evictNode_spec s l t [] EvictCapacity Hwf)
      as (s1 & x & Hx & Hev & Hwf1 & _ & Hm1 & Hevc1 & Hlog1 & Hcap1 & Hmc1 & Hopt1
          & Hhits1 & Hmiss1 & Hcost1 & Hpl1).
    rewrite app_nil_r in Hwf1. rewrite Hev. simpl.
    destruct (IH s1 l Hwf1) as (s' & keep & d & Hrun & Hl & Hwf' & Hcost' & Hd
                                & Hlog' & Hevc' & Hcap' & Hmc' & Hopt' & Hhits'
                                & Hmiss' & Hpl'); [lia|lia|].
    exists s', keep, (d ++ [t]). rewrite Hmc1 in *.
    split_and!; try congruence; try (by eapply same_payload_trans).
    + rewrite Hl. by rewrite app_assoc.
    + intros p d' Hpd. destruct d as [|p0 d0].
      * simpl in Hpd. injection Hpd as <- <-. rewrite app_nil_r in Hl.
        rewrite <- Hl, <- (wf_cost _ _ Hwf). lia.
      * simpl in Hpd. injection Hpd as <- <-.
        rewrite <- (same_payload_sum_cost _ _ _ Hpl1). by eapply Hd.
    + rewrite Hlog', Hlog1, Hopt1, <- app_assoc. f_equal.
      rewrite rev_app_distr. simpl.
      rewrite (evicted_events_same_payload _ _ _ _ _ Hpl1).
      unfold evicted_events at 2. simpl. by rewrite Hx.
    + rewrite Hevc', Hevc1, length_app. simpl.
      rewrite Nat.add_1_r. by rewrite bump_evicts_S.
  - exists s, l, []. rewrite app_nil_r. simpl. rewrite app_nil_r.
    split_and!; done.
Qed.
End limits.


Section enforce.
Context {K V : Type} `{Countable K}.
Import cache.
Local Abbreviation node := (node K V).
Implicit Types (h : gmap ptr node) (l : list ptr) (p n : ptr) (s : shard.t K V).

Local Arguments shard.loop_fuel : simpl never.

Lemma loop_fuel_wf s l : wf s l → (length l < shard.loop_fuel s)%nat.
Proof.
  intros Hwf. unfold shard.loop_fuel. rewrite (wf_len _ _ Hwf), Nat2Z.id. lia.
Qed.

Lemma bump_evicts_add a b e :
  bump_evicts b (bump_evicts a e) = bump_evicts (a + b) e.
Proof. unfold bump_evicts. by rewrite Nat.add_comm, Nat.iter_add. Qed.

Lemma wf_emit s l e : wf s l → wf (shard.emit e s) l.
Proof. apply wf_same; done. Qed.

(** [enforceLimitsLocked]: the nodes beyond [cap] go first, for
    [EvictPolicy]; then, when a cost limit is set, the tail of what is
    left goes for [EvictCapacity], down to the longest prefix whose cost
    is within [maxCost]; last comes [Size]. *)
Lemma enforceLimitsLocked_spec s l :
  wf s l →
  ∃ s' keep capd,
    shard.enforceLimitsLocked s = Some s' ∧
    take (Z.to_nat (shard.cap s)) l = keep ++ capd ∧
    wf s' keep ∧
    (shard.maxCost s > 0 → shard.cost s' <= shard.maxCost s) ∧
    (shard.maxCost s <= 0 → capd = []) ∧
    (∀ p d', capd = p :: d' →
             sum_cost (shard.heap s) (keep ++ [p]) > shard.maxCost s) ∧
    shard.log s' =
      shard.log s ++
      evicted_events (shard.opt s) (shard.heap s) EvictPolicy
        (rev (drop (Z.to_nat (shard.cap s)) l)) ++
      evicted_events (shard.opt s) (shard.heap s) EvictCapacity (rev capd) ++
      [Size (shard.len s') (shard.cost s')] ∧
    shard.evicts s' =
      bump_evicts (length (drop (Z.to_nat (shard.cap s)) l) + length capd)
        (shard.evicts s) ∧
    shard.cap s' = shard.cap s ∧ shard.maxCost s' = shard.maxCost s ∧
    shard.opt s' = shard.opt s ∧ shard.hits s' = shard.hits s ∧
    shard.misses s' = shard.misses s ∧
    same_payload (shard.heap s) (shard.heap s').
Proof.
  intros Hwf. unfold shard.enforceLimitsLocked.
  destruct (evictWhileLen_spec _ s l Hwf (loop_fuel_wf _ _ Hwf))
    as (s1 & Hrun1 & Hwf1 & Hlog1 & Hev1 & Hcap1 & Hmc1 & Hopt1 & Hhits1
        & Hmiss1 & Hpl1).
  rewrite Hrun1. cbn -[shard.loop_fuel shard.evictWhileCost]. rewrite Hmc1.
  destruct (Z.gtb_spec (shard.maxCost s) 0) as [Hmc|Hmc].
  - destruct (evictWhileCost_spec _ s1 _ Hwf1 (loop_fuel_wf _ _ Hwf1))
      as (s2 & keep & d & Hrun2 & Hl2 & Hwf2 & Hcost2 & Hd2 & Hlog2 & Hev2
          & Hcap2 & Hmc2 & Hopt2 & Hhits2 & Hmiss2 & Hpl2); [lia|].
    rewrite Hrun2. simpl. eexists _, keep, d. split; [done|]. simpl.
    split_and!; try congruence; try lia; try (by eapply same_payload_trans).
    + by apply wf_emit.
    + intros p d' Hpd. rewrite <- Hmc1.
      rewrite <- (same_payload_sum_cost _ _ _ Hpl1). by eapply Hd2.
    + simpl. rewrite Hlog2, Hlog1, Hopt1, <- !app_assoc. do 2 f_equal.
      by rewrite (evicted_events_same_payload _ _ _ _ _ Hpl1).
    + rewrite Hev2, Hev1. apply bump_evicts_add.
  - eexists _, (take (Z.to_nat (shard.cap s)) l), []. split; [done|].
    simpl. rewrite app_nil_r, Nat.add_0_r.
    split_and!; try congruence; try lia.
    + by apply wf_emit.
    + by rewrite Hlog1, <- app_assoc.
Qed.

Lemma enforceLimitsLocked_inv s l :
  wf s l → ∃ s', shard.enforceLimitsLocked s = Some s' ∧ inv s'.
Proof.
  intros Hwf.
  destruct (enforceLimitsLocked_spec s l Hwf)
    as (s' & keep & capd & Hrun & Hl & Hwf' & Hcost & _ & _ & _ & _ & Hcap
        & Hmc & _).
  exists s'. split; [done|]. exists keep. split; [done|].
  rewrite Hcap, Hmc. split; [|done].
  pose proof (wf_cap _ _ Hwf) as Hc.
  assert (length (keep ++ capd) <= Z.to_nat (shard.cap s))%nat as Hlen.
  { rewrite <- Hl, length_take. lia. }
  rewrite length_app in Hlen. lia.
Qed.
End enforce.


Section insert_new.
Context {K V : Type} `{Countable K}.
Import cache.
Local Abbreviation node := (node K V).
Implicit Types (h : gmap ptr node) (l : list ptr) (p n : ptr) (s : shard.t K V).

Lemma fresh_not_resident s l :
  wf s l →
  shard.heap s !! fresh (dom (shard.heap s)) = None ∧
  fresh (dom (shard.heap s)) ∉ l.
Proof.
  intros Hwf.
  assert (shard.heap s !! fresh (dom (shard.heap s)) = None) as Hn.
  { apply not_elem_of_dom. apply is_fresh. }
  split; [done|]. intros Hin.
  destruct (dll_lookup _ _ _ _ _ (wf_dll _ _ Hwf) Hin) as [x Hx]. congruence.
Qed.

(** [n := &node{...}; s.m[k] = n; s.pol.OnAdd(n)]. *)
Lemma insert_spec s l k v ttl c :
  wf s l → Z.of_nat (length l) <= shard.cap s →
  shard.m s !! k = None → 0 <= c <= MaxInt32 →
  ∃ n sa ev s1,
    shard.alloc k v ttl c s = (n, sa) ∧
    (n ∉ l) ∧
    shard.pol_OnAdd n sa = Some (ev, s1) ∧
    wf s1 (n :: l) ∧
    (∃ x, shard.heap s1 !! n = Some x ∧ payload x = (k, v, ttl, c)) ∧
    (∀ p, p ≠ n → (payload <$> shard.heap s1 !! p = payload <$> shard.heap s !! p)) ∧
    match ev with Some e => e ∈ l | None => True end ∧
    shard.cap s1 = shard.cap s ∧ shard.maxCost s1 = shard.maxCost s ∧
    shard.opt s1 = shard.opt s ∧ shard.hits s1 = shard.hits s ∧
    shard.misses s1 = shard.misses s ∧ shard.evicts s1 = shard.evicts s ∧
    shard.log s1 = shard.log s.
Proof.
  intros Hwf Hlen Hk Hc.
  destruct (fresh_not_resident _ _ Hwf) as [Hfresh Hnl].
  set (n := fresh (dom (shard.heap s))) in *.
  set (x0 := mkNode k v None None ttl c).
  set (sa := shard.set_m (<[k := n]> (shard.m s))
               (shard.set_heap (<[n := x0]> (shard.heap s)) s)).
  assert (∀ p, p ∈ l → shard.heap sa !! p = shard.heap s !! p) as Hfr.
  { intros p Hp. simpl. rewrite lookup_insert_ne; [done|]. by intros ->. }
  assert (dll (shard.heap sa) (shard.head sa) (shard.tail sa) l) as Hdll.
  { destruct (wf_dll _ _ Hwf) as (Hseg & Hhd & Htl & Hnd).
    split_and!; try done. eapply seg_frame_eq; [|done]. done. }
  assert (shard.heap sa !! n = Some x0) as Hx0 by (simpl; apply lookup_insert_eq).
  destruct (insertFront_spec sa l n x0 Hdll Hx0 Hnl)
    as (s' & Hins & Hdll' & Hpl & Hlen' & Hcost' & Hrest).
  apply rest_eq in Hrest as (Hm & Hcap & Hmc & Hpol & Hopt & Hhits & Hmiss & Hev & Hlog).
  simpl in Hm, Hcap, Hmc, Hpol, Hopt, Hhits, Hmiss, Hev, Hlog, Hlen', Hcost'.
  pose proof (wf_cap _ _ Hwf) as Hcapb.
  assert (key <$> shard.heap s' !! n = Some k) as Hkn.
  { rewrite (same_payload_key _ _ _ Hpl), Hx0. done. }
  assert (∀ p, p ≠ n → key <$> shard.heap s' !! p = key <$> shard.heap s !! p) as Hkp.
  { intros p Hp. rewrite (same_payload_key _ _ _ Hpl). simpl.
    by rewrite lookup_insert_ne. }
  assert (∀ p, res_set n (Some k) (res_of (shard.heap sa) l) p
               = res_of (shard.heap s') (n :: l) p) as Hres.
  { intros p. unfold res_set, res_of. destruct (decide (p = n)) as [->|Hpn].
    - rewrite decide_True by left. done.
    - rewrite (same_payload_key _ _ _ Hpl).
      destruct (decide (p ∈ l)) as [Hp|Hp].
      + rewrite decide_True by (by right). done.
      + rewrite decide_False; [done|]. by intros [?|?]%elem_of_cons. }
  (* the policy *)
  assert (∃ ev P, shard.pol_OnAdd n sa = Some (ev, shard.set_pol P s') ∧
                  pol_inv (res_of (shard.heap s') (n :: l)) P ∧
                  match ev with Some e => e ∈ l | None => True end)
    as (ev & P & HOnAdd & HP & Hev').
  { unfold shard.pol_OnAdd. pose proof (wf_pol _ _ Hwf) as Hpi.
    change (shard.pol sa) with (shard.pol s).
    destruct (shard.pol s) as [p0|q] eqn:Hps.
    - exists None, (ShardLRU p0). unfold lru.OnAdd.
      change (policy.PushFront n sa) with (shard.insertFront n sa).
      rewrite Hins. done.
    - destruct Hpi as [Hq Hcq].
      assert (policy.Key n sa = Some k) as HKey.
      { unfold policy.Key, shard.shardNode. by rewrite Hx0. }
      assert (policy.PushFront n sa = Some s') as Hpf by exact Hins.
      destruct (OnAdd_Some q n k sa s' HKey Hpf) as (ev & q' & HOn).
      assert (twoq_inv (res_of (shard.heap sa) l) q) as Hq'.
      { eapply twoq_inv_ext; [|exact Hq]. intros p. unfold res_of.
        destruct (decide (p ∈ l)); [|done]. by rewrite Hfr. }
      eapply OnAdd_inv in HOn as Hinv; try done.
      + destruct Hinv as (Hinv & _ & Hcin & Hev').
        exists ev, (ShardTwoQ q'). rewrite HOn. simpl. split_and!; try done.
        * eapply twoq_inv_ext; [exact Hres|done].
        * lia.
        * destruct ev as [e|]; [|done]. destruct Hev' as [He Hne].
          apply (in_res _ _ Hinv) in He as [k' He].
          unfold res_set, res_of in He.
          rewrite decide_False in He by (apply Hne; lia).
          by destruct (decide (e ∈ l)).
      + unfold res_of. by rewrite decide_False.
      + intros p. unfold res_of. destruct (decide (p ∈ l)) as [Hp|]; [|done].
        rewrite Hfr by done. intros Hkp'.
        assert (shard.m s !! k = Some p) by (by apply (wf_map _ _ Hwf)).
        congruence. }
  exists n, sa, ev, (shard.set_pol P s').
  destruct (same_payload_lookup _ _ n x0 Hpl Hx0) as (x' & Hx' & Hxx').
  split_and!; try done.
  - split; simpl; try done.
    + rewrite Hlen', (wf_len _ _ Hwf).
      rewrite wrap64_id; unfold MinInt64, MaxInt64; lia.
    + rewrite Hcost', (wf_cost _ _ Hwf).
      rewrite (same_payload_sum_cost _ _ _ Hpl).
      rewrite (sum_cost_frame (shard.heap s) (shard.heap sa) l Hfr).
      unfold node_cost. rewrite Hx'. rewrite (payload_ncost _ _ Hxx'). simpl.
      pose proof (sum_cost_bound _ _ (wf_ncost _ _ Hwf)) as Hb.
      rewrite wrap64_id; [lia|]. unfold MinInt64, MaxInt64, MaxInt32 in *. nia.
    + intros k' p. rewrite Hm. rewrite elem_of_cons.
      destruct (decide (p = n)) as [->|Hpn].
      * rewrite Hkn. destruct (decide (k = k')) as [->|Hkk].
        -- rewrite lookup_insert_eq. naive_solver.
        -- rewrite lookup_insert_ne by done. split.
           ++ intros Hmp. apply (wf_map _ _ Hwf) in Hmp as [Hp _]. done.
           ++ intros [_ ?]. congruence.
      * rewrite Hkp by done. destruct (decide (k = k')) as [->|Hkk].
        -- rewrite lookup_insert_eq. split; [congruence|].
           intros [[?|Hp] Hkp']; [done|].
           assert (shard.m s !! k' = Some p) by (by apply (wf_map _ _ Hwf)).
           congruence.
        -- rewrite lookup_insert_ne by done. rewrite (wf_map _ _ Hwf).
           naive_solver.
    + intros p y [->|Hp]%elem_of_cons Hy.
      * rewrite Hx' in Hy. injection Hy as <-.
        by rewrite (payload_ncost _ _ Hxx').
      * destruct (same_payload_lookup _ _ p y (same_payload_sym _ _ Hpl) Hy)
          as (y' & Hy' & Hyy').
        rewrite Hfr in Hy' by done.
        rewrite (payload_ncost _ _ (eq_sym Hyy')).
        by apply (wf_ncost _ _ Hwf p y').
    + rewrite Hcap. done.
    + rewrite Hcap. simpl. lia.
  - exists x'. done.
  - intros p Hp. simpl. rewrite Hpl. simpl. by rewrite lookup_insert_ne.
Qed.
End insert_new.


Section promote.
Context {K V : Type} `{Countable K}.
Import cache.
Local Abbreviation node := (node K V).
Implicit Types (h : gmap ptr node) (l : list ptr) (p n : ptr) (s : shard.t K V).

Lemma sum_cost_promote h l1 n l2 :
  sum_cost h (n :: l1 ++ l2) = sum_cost h (l1 ++ n :: l2).
Proof. rewrite sum_cost_mid. simpl. lia. Qed.

(** Moving a resident node to the front keeps the shard well formed. *)
Lemma wf_promote s s' l1 n l2 P :
  wf s (l1 ++ n :: l2) →
  dll (shard.heap s') (shard.head s') (shard.tail s') (n :: l1 ++ l2) →
  same_payload (shard.heap s) (shard.heap s') →
  shard.len s' = shard.len s → shard.cost s' = shard.cost s →
  shard.m s' = shard.m s → shard.cap s' = shard.cap s →
  shard.pol s' = P →
  pol_inv (res_of (shard.heap s) (l1 ++ n :: l2)) P →
  wf s' (n :: l1 ++ l2).
Proof.
  intros Hwf Hdll Hpl Hlen Hcost Hm Hcap Hpol HP.
  assert (∀ p, p ∈ n :: l1 ++ l2 ↔ p ∈ l1 ++ n :: l2) as Hmem.
  { intros p. rewrite elem_of_mid, elem_of_cons. done. }
  assert (length (n :: l1 ++ l2) = length (l1 ++ n :: l2)) as Hlength.
  { simpl. rewrite !length_app. simpl. lia. }
  split.
  - done.
  - by rewrite Hlen, (wf_len _ _ Hwf), Hlength.
  - by rewrite Hcost, (wf_cost _ _ Hwf), (same_payload_sum_cost _ _ _ Hpl),
      sum_cost_promote.
  - intros k p. rewrite Hm, (wf_map _ _ Hwf), (same_payload_key _ _ _ Hpl), Hmem.
    done.
  - intros p y Hp Hy.
    destruct (same_payload_lookup _ _ p y (same_payload_sym _ _ Hpl) Hy)
      as (y' & Hy' & Hyy').
    rewrite (payload_ncost _ _ (eq_sym Hyy')).
    apply (wf_ncost _ _ Hwf p y'); [by apply Hmem|done].
  - rewrite Hpol. eapply pol_inv_ext; [|done]. intros p. unfold res_of.
    rewrite (same_payload_key _ _ _ Hpl).
    destruct (decide (p ∈ l1 ++ n :: l2)) as [Hp|Hp].
    + rewrite decide_True; [done|]. by apply Hmem.
    + rewrite decide_False; [done|]. by rewrite Hmem.
  - rewrite Hcap. apply (wf_cap _ _ Hwf).
  - rewrite Hcap, Hlength. apply (wf_room _ _ Hwf).
Qed.

(** [pol.OnGet(n)] and [pol.OnUpdate(n)] on a resident node. *)
Lemma promote_spec (f : ptr → shard.t K V → option (shard.t K V)) s l1 n l2 :
  f = shard.pol_OnGet ∨ f = shard.pol_OnUpdate →
  wf s (l1 ++ n :: l2) →
  ∃ s',
    f n s = Some s' ∧ wf s' (n :: l1 ++ l2) ∧
    same_payload (shard.heap s) (shard.heap s') ∧
    shard.m s' = shard.m s ∧
    shard.cap s' = shard.cap s ∧ shard.maxCost s' = shard.maxCost s ∧
    shard.opt s' = shard.opt s ∧ shard.hits s' = shard.hits s ∧
    shard.misses s' = shard.misses s ∧ shard.evicts s' = shard.evicts s ∧
    shard.log s' = shard.log s ∧ shard.cost s' = shard.cost s ∧
    shard.len s' = shard.len s.
Proof.
  intros Hf Hwf.
  destruct (moveToFront_spec s l1 n l2 (wf_dll _ _ Hwf))
    as (s1 & Hmv & Hdll & Hpl & Hlen & Hcost & Hrest).
  apply rest_eq in Hrest as (Hm & Hcap & Hmc & Hpol & Hopt & Hhits & Hmiss & Hev & Hlog).
  assert (policy.MoveToFront n s = Some s1) as Hmv' by exact Hmv.
  assert (∃ P, f n s = Some (shard.set_pol P s1) ∧
               pol_inv (res_of (shard.heap s) (l1 ++ n :: l2)) P) as (P & HfP & HP).
  { pose proof (wf_pol _ _ Hwf) as Hpi.
    assert (f n s = shard.pol_OnGet n s) as ->.
    { destruct Hf as [->| ->]; [done|].
      unfold shard.pol_OnUpdate, shard.pol_OnGet. by destruct (shard.pol s). }
    unfold shard.pol_OnGet. destruct (shard.pol s) as [p0|q].
    - exists (ShardLRU p0). unfold lru.OnGet. rewrite Hmv'. done.
    - destruct Hpi as [Hq Hcq].
      destruct (OnGet_Some q n s s1 Hmv') as (q' & HOn).
      eapply OnGet_inv in HOn as Hinv; [|done].
      destruct Hinv as (Hinv & _ & Hc).
      exists (ShardTwoQ q'). rewrite HOn. simpl. split_and!; try done. lia. }
  exists (shard.set_pol P s1). split; [done|].
  split_and!; try done.
  eapply wf_promote; try done.
Qed.
End promote.


Section ops.
Context {K V : Type} `{Countable K}.
Import cache.
Local Abbreviation node := (node K V).
Implicit Types (h : gmap ptr node) (l : list ptr) (p n : ptr) (s : shard.t K V).

Lemma evict_events_payload (o : Options K V) (x y : node) r :
  payload x = payload y → evict_events o x r = evict_events o y r.
Proof.
  intros Hxy. unfold evict_events.
  by rewrite (payload_key _ _ Hxy), (payload_val _ _ Hxy).
Qed.

(** The new-entry path of [Add] and [Set], up to the enforcement of the
    limits: the node is allocated and linked at the front, and the node
    the policy names, if any, is evicted for [EvictPolicy]. *)
Lemma insertNew_spec s l k v ttl c :
  wf s l → Z.of_nat (length l) <= shard.cap s →
  shard.m s !! k = None → 0 <= c <= MaxInt32 →
  ∃ n s0 la nom lb,
    l = la ++ nom ++ lb ∧ (length nom <= 1)%nat ∧ (n ∉ l) ∧
    wf s0 (n :: la ++ lb) ∧
    shard.insertNew k v ttl c s = shard.enforceLimitsLocked s0 ∧
    (∃ x, shard.heap s0 !! n = Some x ∧ payload x = (k, v, ttl, c)) ∧
    (∀ p, p ≠ n →
          (payload <$> shard.heap s0 !! p) = (payload <$> shard.heap s !! p)) ∧
    shard.log s0 =
      shard.log s ++ evicted_events (shard.opt s) (shard.heap s) EvictPolicy nom ∧
    shard.evicts s0 = bump_evicts (length nom) (shard.evicts s) ∧
    shard.cap s0 = shard.cap s ∧ shard.maxCost s0 = shard.maxCost s ∧
    shard.opt s0 = shard.opt s ∧ shard.hits s0 = shard.hits s ∧
    shard.misses s0 = shard.misses s.
Proof.
  intros Hwf Hlen Hk Hc.
  destruct (insert_spec s l k v ttl c Hwf Hlen Hk Hc)
    as (n & sa & ev & s1 & Halloc & Hnl & HOnAdd & Hwf1 & Hxn & Hpl1 & Hev & Hcap1
        & Hmc1 & Hopt1 & Hhits1 & Hmiss1 & Hevc1 & Hlog1).
  unfold shard.insertNew. rewrite Halloc, HOnAdd. simpl.
  destruct ev as [e|].
  - apply list_elem_of_split in Hev as (la & lb & ->).
    assert (e ≠ n) as Hen.
    { intros ->. apply Hnl, elem_of_mid. by left. }
    change (n :: la ++ e :: lb) with ((n :: la) ++ e :: lb) in Hwf1.
    destruct (evictNode_spec s1 (n :: la) e lb EvictPolicy Hwf1)
      as (s2 & x & Hx & Hevict & Hwf2 & _ & Hm2 & Hevc2 & Hlog2 & Hcap2 & Hmc2
          & Hopt2 & Hhits2 & Hmiss2 & Hcost2 & Hpl2).
    rewrite Hevict. simpl.
    exists n, s2, la, [e], lb. split_and!; try done; try congruence.
    + destruct Hxn as (xn & Hxn & Hpn).
      destruct (same_payload_lookup _ _ n xn Hpl2 Hxn) as (xn' & Hxn' & Hpn').
      exists xn'. split; [done|]. congruence.
    + intros p Hp. rewrite <- Hpl1 by done. apply Hpl2.
    + rewrite Hlog2, Hlog1, Hopt1. f_equal. simpl. rewrite app_nil_r.
      specialize (Hpl1 e Hen). rewrite Hx in Hpl1.
      destruct (shard.heap s !! e) as [y|]; simpl in Hpl1; [|done].
      apply evict_events_payload. congruence.
    + rewrite Hevc2, Hevc1. done.
  - exists n, s1, l, [], []. simpl. rewrite ?app_nil_r.
    split_and!; try done. lia.
Qed.

(** The update path of [Set], up to the enforcement of the limits. *)
Lemma update_spec s l1 n l2 k v ttl c :
  wf s (l1 ++ n :: l2) →
  shard.m s !! k = Some n → 0 <= c <= MaxInt32 →
  Z.of_nat (length (l1 ++ n :: l2)) <= shard.cap s →
  ∃ s0,
    wf s0 (n :: l1 ++ l2) ∧
    shard.Set_ k v ttl c s = shard.enforceLimitsLocked s0 ∧
    (∃ x, shard.heap s0 !! n = Some x ∧ payload x = (k, v, ttl, c)) ∧
    (∀ p, p ≠ n →
          (payload <$> shard.heap s0 !! p) = (payload <$> shard.heap s !! p)) ∧
    shard.log s0 = shard.log s ∧ shard.evicts s0 = shard.evicts s ∧
    shard.cap s0 = shard.cap s ∧ shard.maxCost s0 = shard.maxCost s ∧
    shard.opt s0 = shard.opt s ∧ shard.hits s0 = shard.hits s ∧
    shard.misses s0 = shard.misses s.
Proof.
  intros Hwf Hk Hc Hlen. set (l := l1 ++ n :: l2) in *.
  assert (n ∈ l) as Hnl by (apply elem_of_mid; by left).
  destruct (dll_lookup _ _ _ _ n (wf_dll _ _ Hwf) Hnl) as [x Hx].
  assert (key x = k) as Hkx.
  { apply (wf_map _ _ Hwf) in Hk as [_ Hk]. rewrite Hx in Hk. by injection Hk. }
  unfold shard.Set_. rewrite Hk, Hx. simpl.
  set (x' := set_payload v ttl c x).
  set (h' := <[n := x']> (shard.heap s)).
  set (su := shard.set_cost _ (shard.set_heap h' s)).
  pose proof (wf_ncost _ _ Hwf n x Hnl Hx) as Hxc.
  pose proof (sum_cost_bound _ _ (wf_ncost _ _ Hwf)) as Hsb.
  pose proof (wf_cap _ _ Hwf) as Hcap.
  assert (∀ p, key <$> h' !! p = key <$> shard.heap s !! p) as Hkeys.
  { intros p. unfold h'. destruct (decide (p = n)) as [->|Hp].
    - by rewrite lookup_insert_eq, Hx.
    - by rewrite lookup_insert_ne. }
  assert (sum_cost h' l = sum_cost (shard.heap s) l - ncost x + c) as Hsum.
  { unfold l. rewrite !sum_cost_mid.
    destruct (wf_dll _ _ Hwf) as (_ & _ & _ & Hnd).
    destruct (NoDup_mid_notin _ _ _ Hnd) as [Hn _].
    rewrite (sum_cost_frame (shard.heap s) h').
    - unfold node_cost, h'. rewrite lookup_insert_eq, Hx. simpl. lia.
    - intros p Hp. unfold h'. rewrite lookup_insert_ne; [done|]. by intros ->. }
  assert (wf su l) as Hwfu.
  { split; simpl.
    - destruct (wf_dll _ _ Hwf) as (Hseg & Hhd & Htl & Hnd).
      split_and!; try done. eapply seg_frame; [|done].
      intros p y Hp Hy. unfold h'. destruct (decide (p = n)) as [->|Hpn].
      + rewrite lookup_insert_eq. exists x'. rewrite Hx in Hy. by injection Hy as ->.
      + rewrite lookup_insert_ne by done. by exists y.
    - apply (wf_len _ _ Hwf).
    - rewrite Hsum, (wf_cost _ _ Hwf).
      rewrite (wrap64_id (c - ncost x)) by (unfold MinInt64, MaxInt64, MaxInt32 in *; lia).
      rewrite wrap64_id; [lia|]. unfold MinInt64, MaxInt64, MaxInt32 in *. nia.
    - intros k' p. rewrite Hkeys. apply (wf_map _ _ Hwf).
    - intros p y Hp. unfold h'. destruct (decide (p = n)) as [->|Hpn].
      + rewrite lookup_insert_eq. by intros [= <-].
      + rewrite lookup_insert_ne by done. by apply (wf_ncost _ _ Hwf).
    - eapply pol_inv_ext; [|exact (wf_pol _ _ Hwf)]. intros p. unfold res_of.
      by rewrite Hkeys.
    - done.
    - apply (wf_room _ _ Hwf). }
  destruct (promote_spec shard.pol_OnUpdate su l1 n l2 (or_intror eq_refl) Hwfu)
    as (s0 & Hup & Hwf0 & Hpl & Hm0 & Hcap0 & Hmc0 & Hopt0 & Hhits0 & Hmiss0
        & Hevc0 & Hlog0 & _).
  rewrite Hup. simpl. exists s0. split_and!; try done.
  - assert (shard.heap su !! n = Some x') as Hx' by (simpl; apply lookup_insert_eq).
    destruct (same_payload_lookup _ _ n x' Hpl Hx') as (y & Hy & Hyx).
    exists y. split; [done|]. rewrite Hyx. unfold payload. simpl. by rewrite Hkx.
  - intros p Hp. rewrite Hpl. simpl. unfold h'. by rewrite lookup_insert_ne.
Qed.
End ops.


Section shard_ops.
Context {K V : Type} `{Countable K}.
Import cache.
Local Abbreviation node := (node K V).
Implicit Types (h : gmap ptr node) (l : list ptr) (p n : ptr) (s : shard.t K V).

Lemma wf_resident s l k n :
  wf s l → shard.m s !! k = Some n →
  ∃ l1 l2 x, l = l1 ++ n :: l2 ∧ shard.heap s !! n = Some x ∧ key x = k.
Proof.
  intros Hwf Hk. apply (wf_map _ _ Hwf) in Hk as [Hn Hk].
  apply list_elem_of_split in Hn as (l1 & l2 & ->).
  destruct (shard.heap s !! n) as [x|] eqn:Hx; [|done].
  exists l1, l2, x. split_and!; try done. by injection Hk.
Qed.

(** ** The operations keep the invariant *)

Lemma Add_inv s k v ttl c :
  inv s → 0 <= c <= MaxInt32 →
  ∃ r s', shard.Add k v ttl c s = Some (r, s') ∧ inv s'.
Proof.
  intros (l & Hwf & Hlen & Hcost) Hc. unfold shard.Add.
  destruct (shard.m s !! k) as [n|] eqn:Hk.
  - exists false, s. split; [done|]. by exists l.
  - destruct (insertNew_spec s l k v ttl c Hwf Hlen Hk Hc)
      as (n & s0 & la & nom & lb & _ & _ & _ & Hwf0 & Hadm & _).
    destruct (enforceLimitsLocked_inv s0 _ Hwf0) as (s' & Hen & Hinv).
    exists true, s'. rewrite Hadm, Hen. done.
Qed.

Lemma Set_inv s k v ttl c :
  inv s → 0 <= c <= MaxInt32 →
  ∃ s', shard.Set_ k v ttl c s = Some s' ∧ inv s'.
Proof.
  intros (l & Hwf & Hlen & Hcost) Hc.
  destruct (shard.m s !! k) as [n|] eqn:Hk.
  - destruct (wf_resident _ _ _ _ Hwf Hk) as (l1 & l2 & x & -> & Hx & Hkx).
    destruct (update_spec s l1 n l2 k v ttl c Hwf Hk Hc Hlen)
      as (s0 & Hwf0 & Hset & _).
    destruct (enforceLimitsLocked_inv s0 _ Hwf0) as (s' & Hen & Hinv).
    exists s'. rewrite Hset, Hen. done.
  - destruct (insertNew_spec s l k v ttl c Hwf Hlen Hk Hc)
      as (n & s0 & la & nom & lb & _ & _ & _ & Hwf0 & Hadm & _).
    destruct (enforceLimitsLocked_inv s0 _ Hwf0) as (s' & Hen & Hinv).
    exists s'. unfold shard.Set_. rewrite Hk, Hadm, Hen. done.
Qed.

Lemma inv_same s s' :
  shard.heap s' = shard.heap s → shard.head s' = shard.head s →
  shard.tail s' = shard.tail s → shard.len s' = shard.len s →
  shard.cost s' = shard.cost s → shard.m s' = shard.m s →
  shard.pol s' = shard.pol s → shard.cap s' = shard.cap s →
  shard.maxCost s' = shard.maxCost s →
  inv s → inv s'.
Proof.
  intros Hh Hhd Htl Hlen Hcost Hm Hpol Hcap Hmc (l & Hwf & Hl & Hc).
  exists l. rewrite Hcap, Hmc, Hcost. split_and!; try done.
  by eapply wf_same.
Qed.

Lemma Get_inv s now k :
  inv s → ∃ r s', shard.Get now k s = Some (r, s') ∧ inv s'.
Proof.
  intros Hinv. pose proof Hinv as (l & Hwf & Hlen & Hcost). unfold shard.Get.
  destruct (shard.m s !! k) as [n|] eqn:Hk.
  - destruct (wf_resident _ _ _ _ Hwf Hk) as (l1 & l2 & x & -> & Hx & Hkx).
    rewrite Hx. simpl. destruct (shard.expiredLocked now x).
    + destruct (evictNode_spec s l1 n l2 EvictTTL Hwf)
        as (s1 & x1 & Hx1 & Hev & Hwf1 & _ & Hm1 & Hevc1 & Hlog1 & Hcap1 & Hmc1
            & Hopt1 & Hhits1 & Hmiss1 & Hcost1 & Hpl1).
      rewrite Hev. simpl. eexists _, _. split; [done|].
      eapply (inv_same s1); try done.
      exists (l1 ++ l2). rewrite Hcap1, Hmc1, Hcost1. split_and!; try done.
      * rewrite !length_app in *. simpl in Hlen. lia.
      * intros Hmc. specialize (Hcost Hmc).
        pose proof (wf_ncost _ _ Hwf n x1) as Hb.
        rewrite elem_of_mid in Hb. specialize (Hb (or_introl eq_refl) Hx1). lia.
    + destruct (promote_spec shard.pol_OnGet s l1 n l2 (or_introl eq_refl) Hwf)
        as (s1 & Hget & Hwf1 & Hpl & Hm1 & Hcap1 & Hmc1 & Hopt1 & Hhits1 & Hmiss1
            & Hevc1 & Hlog1 & Hcost1 & Hlen1).
      rewrite Hget. simpl.
      destruct (same_payload_lookup _ _ n x Hpl Hx) as (x' & Hx' & Hxx').
      rewrite Hx'. simpl. eexists _, _. split; [done|].
      eapply (inv_same s1); try done.
      exists (n :: l1 ++ l2). rewrite Hcap1, Hmc1, Hcost1. split_and!; try done.
      rewrite !length_app in *. simpl in *. rewrite length_app. lia.
  - eexists _, _. split; [done|]. by eapply (inv_same s).
Qed.

Lemma Remove_inv s k :
  inv s → ∃ r s', shard.Remove k s = Some (r, s') ∧ inv s'.
Proof.
  intros Hinv. pose proof Hinv as (l & Hwf & Hlen & Hcost). unfold shard.Remove.
  destruct (shard.m s !! k) as [n|] eqn:Hk.
  - destruct (wf_resident _ _ _ _ Hwf Hk) as (l1 & l2 & x & -> & Hx & Hkx).
    destruct (unlink_spec _ _ _ _ Hwf)
      as (s1 & s2 & x1 & Hp & Hrm & Hx1 & _ & Hmx & Hm & Hwf2 & Hcap2
          & Hmc2 & Hopt2 & Hhits2 & Hmiss2 & Hev2 & Hlog2 & Hcost2 & Hpl).
    assert (x1 = x) as -> by congruence. rewrite Hkx in Hwf2.
    rewrite Hp. simpl. rewrite Hrm. simpl.
    eexists _, _. split; [done|]. exists (l1 ++ l2). simpl.
    rewrite Hcap2, Hmc2, Hcost2. split_and!; try done.
    + rewrite !length_app in *. simpl in Hlen. lia.
    + intros Hmc. specialize (Hcost Hmc).
      pose proof (wf_ncost _ _ Hwf n x) as Hb.
      rewrite elem_of_mid in Hb. specialize (Hb (or_introl eq_refl) Hx). lia.
  - by eexists _, _.
Qed.
End shard_ops.


Section shard_ok.
Context {K V : Type} `{Countable K}.
Import cache.
Local Abbreviation node := (node K V).
Implicit Types (h : gmap ptr node) (l : list ptr) (p n : ptr) (s : shard.t K V).

Lemma sum_cost_Permutation h l l' : l ≡ₚ l' → sum_cost h l = sum_cost h l'.
Proof. induction 1; simpl; lia. Qed.

(** The values of the map are the nodes of the list. *)
Lemma wf_map_values s l : wf s l → (map_to_list (shard.m s)).*2 ≡ₚ l.
Proof.
  intros Hwf. apply NoDup_Permutation.
  - apply NoDup_fmap_2_strong; [|apply NoDup_map_to_list].
    intros [k p] [k' p'] Hkp Hkp' Heq. simpl in Heq. subst p'.
    apply elem_of_map_to_list in Hkp, Hkp'.
    apply (wf_map _ _ Hwf) in Hkp as [_ Hk], Hkp' as [_ Hk'].
    congruence.
  - by destruct (wf_dll _ _ Hwf) as (_ & _ & _ & Hnd).
  - intros p. rewrite list_elem_of_fmap. split.
    + intros ([k p'] & -> & Hkp). simpl.
      apply elem_of_map_to_list in Hkp. by apply (wf_map _ _ Hwf) in Hkp as [Hp _].
    + intros Hp. destruct (dll_lookup _ _ _ _ p (wf_dll _ _ Hwf) Hp) as [x Hx].
      exists (key x, p). split; [done|]. apply elem_of_map_to_list.
      apply (wf_map _ _ Hwf). split; [done|]. by rewrite Hx.
Qed.

Lemma wf_size s l : wf s l → size (shard.m s) = length l.
Proof.
  intros Hwf. rewrite <- (Permutation_length (wf_map_values _ _ Hwf)).
  rewrite length_fmap. symmetry. apply length_map_to_list.
Qed.

Lemma wf_resident_cost s l : wf s l → resident_cost s = shard.cost s.
Proof.
  intros Hwf. rewrite (wf_cost _ _ Hwf).
  rewrite <- (sum_cost_Permutation _ _ _ (wf_map_values _ _ Hwf)).
  unfold resident_cost. induction (map_to_list (shard.m s)) as [|kp ml IH]; simpl; [done|].
  by rewrite IH.
Qed.

(** The invariant gives what the specification states of a shard. *)
Lemma inv_shard_ok s : inv s → shard_ok s.
Proof.
  intros (l & Hwf & Hlen & Hcost). unfold shard_ok.
  rewrite (wf_size _ _ Hwf), (wf_resident_cost _ _ Hwf), (wf_len _ _ Hwf). done.
Qed.
End shard_ok.


(** * Package util *)

Lemma land_mask_bound a b : 0 <= b -> 0 <= Z.land a b <= b.
Proof.
  intros Hb. apply Z.ldiff_le; [done|].
  apply Z.bits_inj'. intros i Hi.
  rewrite Z.ldiff_spec, Z.land_spec, Z.bits_0.
  destruct (Z.testbit a i), (Z.testbit b i); done.
Qed.

(** One round of the bit filling of [NextPow2]: when the [d + 1] bits from
    the top bit [t] down are set, or-ing with a shift by [n <= d + 1] sets
    the [d + n + 1] bits from [t] down. *)
Lemma fill_step a t d n :
  (∀ i, 0 <= i -> t - d <= i <= t -> Z.testbit a i = true) ->
  (∀ i, t < i -> Z.testbit a i = false) ->
  0 <= n <= d + 1 ->
  (∀ i, 0 <= i -> t - (d + n) <= i <= t ->
        Z.testbit (Z.lor a (Z.shiftr a n)) i = true) ∧
  (∀ i, t < i -> Z.testbit (Z.lor a (Z.shiftr a n)) i = false).
Proof.
  intros Hlow Hhigh Hn. split.
  - intros i Hi Hr. rewrite Z.lor_spec, Z.shiftr_spec by lia.
    destruct (Z_le_gt_dec (t - d) i).
    + rewrite Hlow by lia. done.
    + rewrite (Hlow (i + n)) by lia. by destruct (Z.testbit a i).
  - intros i Hi. destruct (Z_lt_le_dec i 0).
    + rewrite Z.testbit_neg_r by lia. done.
    + rewrite Z.lor_spec, Z.shiftr_spec by lia.
      rewrite !Hhigh by lia. done.
Qed.

Lemma NextPow2_pow2 x :
  0 <= x < 2 ^ 64 -> ∃ j, 0 <= j <= 63 ∧ util.NextPow2 x = 2 ^ j.
Proof.
  intros Hx. unfold util.NextPow2.
  destruct (Z.leb_spec x 1) as [Hle|Hgt]; [by exists 0|].
  rewrite (wrapu64_id (x - 1)) by lia.
  set (a0 := x - 1). set (t := Z.log2 a0).
  assert (0 < a0) as Ha0 by (unfold a0; lia).
  assert (0 <= t <= 63) as Ht.
  { split; [apply Z.log2_nonneg|].
    assert (t < 64); [|lia]. apply Z.log2_lt_pow2; unfold a0; lia. }
  assert ((∀ i, 0 <= i -> t - 0 <= i <= t -> Z.testbit a0 i = true) ∧
          (∀ i, t < i -> Z.testbit a0 i = false)) as [L0 H0].
  { split.
    - intros i Hi Hr. assert (i = t) as -> by lia. apply Z.bit_log2. done.
    - intros i Hi. apply Z.bits_above_log2; lia. }
  destruct (fill_step a0 t 0 1 L0 H0) as [L1 H1]; [lia|].
  destruct (fill_step _ t (0 + 1) 2 L1 H1) as [L2 H2]; [lia|].
  destruct (fill_step _ t (0 + 1 + 2) 4 L2 H2) as [L3 H3]; [lia|].
  destruct (fill_step _ t (0 + 1 + 2 + 4) 8 L3 H3) as [L4 H4]; [lia|].
  destruct (fill_step _ t (0 + 1 + 2 + 4 + 8) 16 L4 H4) as [L5 H5]; [lia|].
  destruct (fill_step _ t (0 + 1 + 2 + 4 + 8 + 16) 32 L5 H5) as [L6 H6]; [lia|].
  cbv zeta.
  match goal with |- context [wrapu64 (?y + 1)] => set (a6 := y) in * end.
  assert (a6 = Z.ones (t + 1)) as ->.
  { apply Z.bits_inj'. intros i Hi.
    destruct (Z_le_gt_dec i t).
    - rewrite L6, Z.ones_spec_low by lia. done.
    - rewrite H6, Z.ones_spec_high by lia. done. }
  rewrite Z.ones_equiv.
  replace (Z.pred (2 ^ (t + 1)) + 1) with (2 ^ (t + 1)) by lia.
  destruct (Z.eq_dec t 63) as [->|Hne].
  - exists 63. done.
  - assert (2 ^ (t + 1) <= 2 ^ 63) by (apply Z.pow_le_mono_r; lia).
    assert (0 < 2 ^ (t + 1)) by (apply Z.pow_pos_nonneg; lia).
    rewrite wrapu64_id by lia.
    destruct (Z.eqb_spec (2 ^ (t + 1)) 0); [lia|].
    exists (t + 1). split; [lia|done].
Qed.


Section cache_facts.
Context {K V : Type} `{Countable K} `{!util.Fnv64aKey K}.
Import cache.
Implicit Types (c : cache.t K V) (s : shard.t K V) (o : Options K V).

(** ** Construction *)

Lemma newShard_inv procs capacity p o :
  1 <= capacity < 2 ^ 32 → inv (shard.newShard procs capacity p o).
Proof.
  intros Hcap. exists []. split_and!.
  - split; simpl.
    + apply dll_nil.
    + done.
    + done.
    + intros k n. rewrite lookup_empty. split; [done|].
      intros [Hn _]. by apply elem_of_nil in Hn.
    + intros n x Hn. by apply elem_of_nil in Hn.
    + destruct p as [|a b]; simpl; [done|]. split.
      * apply New_shard_inv.
      * unfold twoq.New. simpl. destruct (Z.ltb_spec a 1); simpl; lia.
    + done.
    + lia.
  - simpl. lia.
  - simpl. destruct (_ >? 0); lia.
Qed.

(** Where [make] does not panic, the length is not negative and the slice
    fits. *)
Lemma makeslice_panics_false e n :
  makeslice_panics e n = false → 0 <= n ∧ e * n <= maxAlloc.
Proof.
  unfold makeslice_panics.
  destruct (Z.ltb_spec n 0); destruct (Z.ltb_spec maxAlloc (e * n)); simpl;
    intros Hf; first [done | lia].
Qed.

(** The shard count is a power of two, unless [make] panics. *)
Lemma shard_count_pow2 procs o :
  0 <= cache.shard_count procs o →
  ∃ j, 0 <= j <= 62 ∧ cache.shard_count procs o = 2 ^ j.
Proof.
  unfold cache.shard_count.
  assert (∀ x, 0 <= wrap64 (util.NextPow2 (wrapu64 x)) →
               ∃ j, 0 <= j <= 62 ∧ wrap64 (util.NextPow2 (wrapu64 x)) = 2 ^ j) as Hp.
  { intros x. destruct (NextPow2_pow2 (wrapu64 x)) as (j & Hj & ->).
    { unfold wrapu64. apply Z.mod_pos_bound. lia. }
    destruct (Z.eq_dec j 63) as [->|Hne].
    - vm_compute. intros Hc. by exfalso.
    - assert (2 ^ j <= 2 ^ 62) by (apply Z.pow_le_mono_r; lia).
      assert (0 < 2 ^ j) by (apply Z.pow_pos_nonneg; lia).
      rewrite wrap64_id by (unfold MinInt64, MaxInt64; lia).
      exists j. split; [lia|done]. }
  destruct (Z.leb_spec (Shards o) 0).
  - cbv zeta. destruct (Z.ltb_spec (wrap64 (util.NextPow2 (wrapu64 (wrap64 (2 * procs))))) 1).
    + intros _. by exists 0.
    + intros Hs. by apply Hp.
  - apply Hp.
Qed.

Lemma ceil_div_bound a b :
  0 < a → 0 < b → 1 <= go_div (a + b - 1) b <= a.
Proof.
  intros Ha Hb. unfold go_div. rewrite Z.quot_div_nonneg by lia. split.
  - apply Z.div_le_lower_bound; lia.
  - apply Z.div_le_upper_bound; [lia|]. nia.
Qed.

Lemma New_inv procs o c :
  cache.New procs o = Some c → Capacity o < 2 ^ 32 → cache_inv c.
Proof.
  unfold cache.New. destruct (Z.leb_spec (Capacity o) 0) as [|Hcap]; [done|].
  destruct (makeslice_panics 8 (cache.shard_count procs o)) eqn:Hmk; [done|].
  apply makeslice_panics_false in Hmk as [Hsh Hmem].
  intros [= <-] Hlt. simpl.
  destruct (shard_count_pow2 procs o Hsh) as (j & Hj & Hs). rewrite Hs.
  assert (2 ^ j <= 2 ^ 62) by (apply Z.pow_le_mono_r; lia).
  assert (0 < 2 ^ j) by (apply Z.pow_pos_nonneg; lia).
  unfold cache_inv, shards_inv. split_and!; simpl.
  - apply Forall_replicate. apply newShard_inv.
    rewrite (wrap64_id (Capacity o + 2 ^ j)) by (unfold MinInt64, MaxInt64; lia).
    rewrite wrap64_id by (unfold MinInt64, MaxInt64; lia).
    pose proof (ceil_div_bound (Capacity o) (2 ^ j)). lia.
  - rewrite length_replicate. lia.
  - rewrite length_replicate. lia.
  - done.
Qed.

(** ** Shard selection *)

Lemma shard_index_bound k c :
  1 <= Z.of_nat (length (shards c)) <= 2 ^ 62 →
  0 <= cache.shard_index k c < Z.of_nat (length (shards c)).
Proof.
  intros Hlen. unfold cache.shard_index.
  rewrite (wrap64_id (_ - 1)) by (unfold MinInt64, MaxInt64; lia).
  pose proof (land_mask_bound (wrap64 (util.Fnv64a k))
                (Z.of_nat (length (shards c)) - 1)). lia.
Qed.

Lemma getShard_Some k c :
  shards_inv c → ∃ s, cache.getShard k c = Some s ∧ inv s.
Proof.
  intros (Hall & Hlen). unfold cache.getShard.
  pose proof (shard_index_bound k c Hlen) as Hidx.
  destruct (Z.ltb_spec (cache.shard_index k c) 0); [lia|].
  destruct (lookup_lt_is_Some_2 (shards c) (Z.to_nat (cache.shard_index k c)))
    as [s Hs]; [lia|].
  exists s. split; [done|]. by eapply Forall_lookup_1.
Qed.

Lemma putShard_inv k s c : shards_inv c → inv s → shards_inv (cache.putShard k s c).
Proof.
  intros (Hall & Hlen) Hs. unfold cache.putShard, shards_inv. simpl.
  rewrite length_insert. split; [|done]. by apply Forall_insert.
Qed.

Lemma costOf_range v c : 0 <= cache.costOf v c <= MaxInt32.
Proof.
  unfold cache.costOf, MaxInt32. destruct (Cost (opt c)) as [f|]; [|lia].
  cbv zeta. destruct (Z.ltb_spec (f v) 0).
  - destruct (Z.gtb_spec 0 (2 ^ 31 - 1)); lia.
  - destruct (Z.gtb_spec (f v) (2 ^ 31 - 1)); lia.
Qed.

(** ** The operations keep the invariant *)

Lemma Add_shards_inv now k v c :
  shards_inv c →
  ∃ r c', cache.Add now k v c = Some (r, c') ∧ shards_inv c' ∧
          sf c' = sf c ∧ opt c' = opt c.
Proof.
  intros Hc. unfold cache.Add. destruct (closed c); [by eexists _, _|].
  destruct (getShard_Some k c Hc) as (s & -> & Hs). simpl.
  destruct (Add_inv s k v (cache.defaultDeadline now c) (cache.costOf v c) Hs
              (costOf_range v c)) as (r & s' & -> & Hs').
  simpl. eexists _, _. split; [done|]. split; [by apply putShard_inv|done].
Qed.

Lemma Set_shards_inv now k v c :
  shards_inv c →
  ∃ c', cache.Set_ now k v c = Some c' ∧ shards_inv c' ∧
        sf c' = sf c ∧ opt c' = opt c.
Proof.
  intros Hc. unfold cache.Set_. destruct (closed c); [by eexists|].
  destruct (getShard_Some k c Hc) as (s & -> & Hs). simpl.
  destruct (Set_inv s k v (cache.defaultDeadline now c) (cache.costOf v c) Hs
              (costOf_range v c)) as (s' & -> & Hs').
  simpl. eexists. split; [done|]. split; [by apply putShard_inv|done].
Qed.

Lemma SetWithTTL_shards_inv now k v ttl c :
  shards_inv c →
  ∃ c', cache.SetWithTTL now k v ttl c = Some c' ∧ shards_inv c' ∧
        sf c' = sf c ∧ opt c' = opt c.
Proof.
  intros Hc. unfold cache.SetWithTTL. destruct (closed c); [by eexists|].
  destruct (getShard_Some k c Hc) as (s & -> & Hs). simpl.
  destruct (Set_inv s k v (cache.deadline now ttl) (cache.costOf v c) Hs
              (costOf_range v c)) as (s' & -> & Hs').
  simpl. eexists. split; [done|]. split; [by apply putShard_inv|done].
Qed.

Lemma Get_shards_inv now k c :
  shards_inv c →
  ∃ r c', cache.Get now k c = Some (r, c') ∧ shards_inv c' ∧
          sf c' = sf c ∧ opt c' = opt c.
Proof.
  intros Hc. unfold cache.Get. destruct (closed c); [by eexists _, _|].
  destruct (getShard_Some k c Hc) as (s & -> & Hs). simpl.
  destruct (Get_inv s now k Hs) as (r & s' & -> & Hs').
  simpl. eexists _, _. split; [done|]. split; [by apply putShard_inv|done].
Qed.

Lemma Remove_shards_inv k c :
  shards_inv c →
  ∃ r c', cache.Remove k c = Some (r, c') ∧ shards_inv c' ∧
          sf c' = sf c ∧ opt c' = opt c.
Proof.
  intros Hc. unfold cache.Remove. destruct (closed c); [by eexists _, _|].
  destruct (getShard_Some k c Hc) as (s & -> & Hs). simpl.
  destruct (Remove_inv s k Hs) as (r & s' & -> & Hs').
  simpl. eexists _, _. split; [done|]. split; [by apply putShard_inv|done].
Qed.

Lemma flight_over (k : K) : ({[k]} ∪ (∅ : gset K)) ∖ {[k]} = ∅.
Proof.
  apply set_eq. intros x.
  rewrite elem_of_difference, elem_of_union, elem_of_singleton. split.
  - intros [[Hx|Hx] Hne]; [done|by apply elem_of_empty in Hx].
  - intros Hx. by apply elem_of_empty in Hx.
Qed.

Lemma GetOrLoad_cache_inv now1 now2 now3 k c :
  cache_inv c →
  ∃ r c', cache.GetOrLoad now1 now2 now3 k c = Some (r, c') ∧ cache_inv c'.
Proof.
  intros [Hc Hsf]. unfold cache.GetOrLoad.
  destruct (Get_shards_inv now1 k c Hc) as (r & c1 & -> & Hc1 & Hsf1 & Hopt1).
  simpl. destruct r as [v|].
  { eexists _, _. split; [done|]. split; [done|]. congruence. }
  destruct (Loader (opt c1)) as [load|].
  2: { eexists _, _. split; [done|]. split; [done|]. congruence. }
  unfold singleflight.Do. rewrite Hsf1, Hsf.
  rewrite decide_False by apply not_elem_of_empty.
  set (c2 := cache.set_sf _ c1).
  assert (shards_inv c2) as Hc2 by done.
  destruct (Get_shards_inv now2 k c2 Hc2) as (r & c3 & -> & Hc3 & Hsf3 & Hopt3).
  simpl. destruct r as [v|]; simpl.
  { eexists _, _. split; [done|]. split; [done|]. simpl. rewrite Hsf3. simpl.
    apply flight_over. }
  destruct (load k) as [v|e]; simpl.
  - destruct (Set_shards_inv now3 k v c3 Hc3) as (c4 & -> & Hc4 & Hsf4 & Hopt4).
    simpl. eexists _, _. split; [done|]. split; [done|]. simpl.
    rewrite Hsf4, Hsf3. simpl. apply flight_over.
  - eexists _, _. split; [done|]. split; [done|]. simpl. rewrite Hsf3. simpl.
    apply flight_over.
Qed.

Lemma run_op_cache_inv (x : op K V) c :
  cache_inv c → ∃ c', cache.run_op x c = Some c' ∧ cache_inv c'.
Proof.
  intros Hci. pose proof Hci as [Hc Hsf]. destruct x; simpl.
  - destruct (Add_shards_inv now k v c Hc) as (r & c' & -> & Hc' & Hsf' & _).
    exists c'. split; [done|]. split; [done|]. congruence.
  - destruct (Set_shards_inv now k v c Hc) as (c' & -> & Hc' & Hsf' & _).
    exists c'. split; [done|]. split; [done|]. congruence.
  - destruct (SetWithTTL_shards_inv now k v ttl c Hc) as (c' & -> & Hc' & Hsf' & _).
    exists c'. split; [done|]. split; [done|]. congruence.
  - destruct (Get_shards_inv now k c Hc) as (r & c' & -> & Hc' & Hsf' & _).
    exists c'. split; [done|]. split; [done|]. congruence.
  - destruct (Remove_shards_inv k c Hc) as (r & c' & -> & Hc' & Hsf' & _).
    exists c'. split; [done|]. split; [done|]. congruence.
  - destruct (GetOrLoad_cache_inv now1 now2 now3 k c Hci) as (r & c' & -> & Hc').
    by exists c'.
  - eexists. split; [done|]. done.
Qed.

Lemma run_cache_inv (ops : list (op K V)) c :
  cache_inv c → ∃ c', cache.run ops c = Some c' ∧ cache_inv c'.
Proof.
  revert c. induction ops as [|x ops IH]; intros c Hc; simpl.
  - by exists c.
  - destruct (run_op_cache_inv x c Hc) as (c1 & -> & Hc1). simpl. by apply IH.
Qed.
End cache_facts.


Section cache_properties.
Context {K V : Type} `{Countable K} `{!util.Fnv64aKey K}.
Import cache.

End cache_properties.




(** The entry-count ceiling of every shard is [ceil(Capacity / S)], [S]
    being the number of shards. *)
Lemma New_per_shard_capacity {K V : Type} `{Countable K} `{!util.Fnv64aKey K}
    (procs : Z) (o : cache.Options K V) (c : cache.t K V) :
  cache.New procs o = Some c → cache.Capacity o < 2 ^ 32 →
  let S := Z.of_nat (length (cache.shards c)) in
  Forall (fun s => cache.shard.cap s = (cache.Capacity o + S - 1) / S)
         (cache.shards c).
Proof.
  unfold cache.New. destruct (Z.leb_spec (cache.Capacity o) 0) as [|Hcap]; [done|].
  destruct (makeslice_panics 8 (cache.shard_count procs o)) eqn:Hmk; [done|].
  apply makeslice_panics_false in Hmk as [Hsh Hmem].
  intros [= <-] Hlt. simpl.
  destruct (shard_count_pow2 procs o Hsh) as (j & Hj & Hs). rewrite Hs.
  assert (2 ^ j <= 2 ^ 62) by (apply Z.pow_le_mono_r; lia).
  assert (0 < 2 ^ j) by (apply Z.pow_pos_nonneg; lia).
  rewrite length_replicate, Z2Nat.id by lia.
  apply Forall_replicate. simpl.
  rewrite (wrap64_id (cache.Capacity o + 2 ^ j)) by (unfold MinInt64, MaxInt64; lia).
  rewrite wrap64_id by (unfold MinInt64, MaxInt64; lia).
  unfold go_div. apply Z.quot_div_nonneg; lia.
Qed.

(** C3 (the code departs from it). With [Capacity = 10], [Shards = 3] and
    [MaxCost = 12], [New] builds [S = 4] shards; every shard has the
    entry-count ceiling [3 = ceil(10 / 4)], but its [maxCost] is
    [4 = ceil(12 / 3)], the quotient by the shard count asked for, and not
    [3 = ceil(12 / 4)]. *)
Theorem C3_maxCost_split_by_requested_shards :
  ∃ c, cache.New 1 samples.opt_three = Some c ∧
       length (cache.shards c) = 4%nat ∧
       Forall (fun s => cache.shard.cap s = 3 ∧ cache.shard.maxCost s = 4)
              (cache.shards c).
Proof.
  eexists. split; [reflexivity|]. split; [reflexivity|].
  repeat constructor.
Qed.

Section twoq_properties.
Context {K : Type} `{Countable K} {L : Type} `{!policy.Node K L, !policy.Hooks L}.
Import policy twoq.

Lemma disciplined_inv (R : gmap ptr K) (q : twoQ K) :
  disciplined (L := L) R q →
  twoq_inv (fun p => R !! p) q ∧ res_inj (fun p => R !! p).
Proof.
  induction 1 as [pl|R q n k l ev q' l' Hd [IH IHinj] Hn Hk HKey HOn
                 |R q n l q' l' Hd [IH IHinj] Hn HOn
                 |R q n l q' l' Hd [IH IHinj] Hn HOn
                 |R q n k l q' l' Hd [IH IHinj] Hn HKey HOn].
  - split; [apply New_shard_inv|]. intros p0 p' k. by rewrite lookup_empty.
  - destruct (OnAdd_inv (fun p => R !! p) q n k l ev q' l' IH Hn Hk HKey HOn)
      as (Hinv & _). split.
    + eapply twoq_inv_ext; [|exact Hinv]. intros p. unfold res_set.
      destruct (decide (p = n)) as [->|Hp].
      * by rewrite lookup_insert_eq.
      * by rewrite lookup_insert_ne.
    + intros p p' k'.
      destruct (decide (n = p)) as [<-|Hp], (decide (n = p')) as [<-|Hp'];
        rewrite ?lookup_insert_eq, ?lookup_insert_ne by done; try done.
      * intros [= <-] Hk'. by destruct (Hk p').
      * intros Hk' [= <-]. by destruct (Hk p).
      * apply IHinj.
  - by destruct (OnGet_inv (fun p => R !! p) q n l q' l' IH HOn) as (Hinv & _).
  - by destruct (OnGet_inv (fun p => R !! p) q n l q' l' IH HOn) as (Hinv & _).
  - destruct (OnRemove_inv (fun p => R !! p) q n k l q' l' IH IHinj Hn HKey HOn)
      as (Hinv & _). split.
    + eapply twoq_inv_ext; [|exact Hinv]. intros p. unfold res_set.
      destruct (decide (p = n)) as [->|Hp].
      * by rewrite lookup_delete_eq.
      * by rewrite lookup_delete_ne.
    + intros p p' k'.
      destruct (decide (n = p)) as [<-|Hp]; [by rewrite lookup_delete_eq|].
      destruct (decide (n = p')) as [<-|Hp']; [by rewrite lookup_delete_eq|].
      rewrite !lookup_delete_ne by done. apply IHinj.
Qed.

(** C10. In the 2Q policy, under the calling discipline of the shard,
    after every callback that has returned, no key is at once the key of
    a node tracked in A1in (in the index or in the list) and a key of the
    ghost queue A1out (in the index or in the list); and every node
    tracked in A1in is resident. *)
Theorem C10_A1in_A1out_disjoint (R : gmap ptr K) (q : twoQ K) :
  disciplined (L := L) R q →
  ∀ n, n ∈ inIdx q ∨ n ∈ inList q →
       ∃ k, R !! n = Some k ∧ (k ∉ ghostIdx q) ∧ (k ∉ ghostList q).
Proof.
  intros Hd. destruct (disciplined_inv R q Hd) as [Hinv Hinj].
  intros n Hn.
  assert (n ∈ inIdx q) as Hin.
  { destruct Hn as [Hn|Hn]; [done|]. by apply (in_idx _ _ Hinv). }
  destruct (in_res _ _ Hinv n Hin) as [k Hk].
  exists k. split; [done|].
  pose proof (in_gh_disj _ _ Hinv n k Hin Hk) as Hg.
  split; [done|]. intros Hgl. by apply Hg, (gh_idx _ _ Hinv).
Qed.

(** C5. [OnAdd(n)] of the 2Q policy, [k] being the key of [n].  When [k]
    is in the ghost queue the ghost entry is removed, [n] is pushed to the
    front of the shard list, A1in is left as it was and no candidate is
    returned.  Otherwise [n] is pushed to the front of the shard list and
    recorded at the front of A1in, and the candidate is the node at the
    back of A1in if A1in is now longer than [capIn], and none if not. *)
Theorem C5_twoq_OnAdd (n : ptr) (q : twoQ K) (l : L) (k : K) :
  Key n l = Some k →
  (k ∈ ghostIdx q →
     OnAdd n q l =
       (fun l' => (None,
                   set_ghost (remove_first k (ghostList q))
                             (ghostIdx q ∖ {[k]}) q, l'))
         <$> PushFront n l) ∧
  (k ∉ ghostIdx q →
     OnAdd n q l =
       (fun l' => (if Z.of_nat (length (n :: inList q)) >? capIn q
                   then last (n :: inList q) else None,
                   set_in (n :: inList q) ({[n]} ∪ inIdx q) q, l'))
         <$> PushFront n l).
Proof.
  intros HKey. unfold OnAdd. rewrite HKey. simpl. split; intros Hk.
  - rewrite decide_True by done. by destruct (PushFront n l).
  - rewrite decide_False by done. destruct (PushFront n l) as [l'|]; simpl; [|done].
    destruct (_ >? _); [|done]. by destruct (last (n :: inList q)).
Qed.
End twoq_properties.

Lemma C10_witness :
  ∃ k, (<[1%nat := "b"%string]> (delete 0%nat (<[0%nat := "a"%string]> ∅))
          : gmap nat string) !! 1%nat = Some k ∧
       (k ∉ twoq.ghostIdx samples.q_after) ∧ (k ∉ twoq.ghostList samples.q_after).
Proof.
  apply (@C10_A1in_A1out_disjoint string _ _ (list nat) samples.listNode
           samples.listHooks _ samples.q_after).
  - eapply (@disc_OnAdd string _ _ (list nat) samples.listNode samples.listHooks
              _ _ 1%nat "b"%string [] None _ [1%nat]).
    + eapply (@disc_OnRemove string _ _ (list nat) samples.listNode samples.listHooks
                _ _ 0%nat "a"%string [0%nat] _ [0%nat]).
      * eapply (@disc_OnAdd string _ _ (list nat) samples.listNode samples.listHooks
                  _ _ 0%nat "a"%string [] None _ [0%nat]).
        -- apply (disc_New (twoq.New 1 2)).
        -- reflexivity.
        -- intros p. by rewrite lookup_empty.
        -- reflexivity.
        -- reflexivity.
      * reflexivity.
      * reflexivity.
      * reflexivity.
    + reflexivity.
    + intros p. destruct p; vm_compute; discriminate.
    + reflexivity.
    + vm_compute. reflexivity.
  - left. by apply elem_of_singleton.
Defined.

Lemma C5_witness :
  policy.Key (Node := samples.listNode) 0%nat [] = Some "a"%string ∧
  twoq.OnAdd (Node0 := samples.listNode) (Hooks0 := samples.listHooks)
      0%nat samples.q_fresh [] =
    Some (None, twoq.set_in [0%nat] ({[0%nat]} ∪ ∅) samples.q_fresh, [0%nat]).
Proof.
  split; [reflexivity|].
  apply (@C5_twoq_OnAdd string _ _ (list nat) samples.listNode samples.listHooks
           0%nat samples.q_fresh [] "a"%string eq_refl).
  intros Hk. by apply elem_of_empty in Hk.
Defined.


Section shard_properties.
Context {K V : Type} `{Countable K}.
Import cache.
Local Abbreviation node := (node K V).
Implicit Types (h : gmap ptr node) (l : list ptr) (p n : ptr) (s : shard.t K V).

Lemma expiredLocked_spec now (x : node) :
  shard.expiredLocked now x = true ↔ expired now x.
Proof.
  unfold shard.expiredLocked, expired.
  destruct (Z.eqb_spec (exp x) 0) as [He|He].
  - split; [done|]. by intros [? _].
  - destruct (Z.gtb_spec now (exp x)); split; intros Hc; try done.
    + split; [done|lia].
    + destruct Hc. lia.
Qed.

(** C4. [Get(k)] on a shard that holds the node [n] for [k].  If
    [n.exp != 0] and [now() > n.exp], the node is removed and reported as
    evicted for [EvictTTL], the miss counter is incremented, [Miss] is
    emitted and no value is returned.  Otherwise [policy.OnGet(n)] is
    called, the hit counter is incremented, [Hit] is emitted and the stored
    value is returned.  In particular an entry whose deadline is [now()]
    is a hit. *)
Theorem C4_Get_resident s (now : Z) (k : K) n (x : node) :
  inv s → shard.m s !! k = Some n → shard.heap s !! n = Some x →
  (expired now x →
     ∃ s', shard.Get now k s = Some (None, s') ∧
           shard.m s' = delete k (shard.m s) ∧
           shard.log s' =
             shard.log s ++ evict_events (shard.opt s) x EvictTTL ++ [Miss] ∧
           shard.misses s' = wrap64 (shard.misses s + 1) ∧
           shard.evicts s' = wrapu64 (shard.evicts s + 1) ∧
           shard.hits s' = shard.hits s) ∧
  (¬ expired now x →
     ∃ s1, shard.pol_OnGet n s = Some s1 ∧
           shard.Get now k s =
             Some (Some (val x),
                   shard.emit Hit (shard.set_hits (wrap64 (shard.hits s + 1)) s1)) ∧
           shard.m s1 = shard.m s ∧ shard.log s1 = shard.log s ∧
           shard.hits s1 = shard.hits s ∧ shard.misses s1 = shard.misses s ∧
           shard.evicts s1 = shard.evicts s) ∧
  (exp x = now → ∃ s', shard.Get now k s = Some (Some (val x), s')).
Proof.
  intros (l & Hwf & Hlen & Hcost) Hk Hx.
  destruct (wf_resident _ _ _ _ Hwf Hk) as (l1 & l2 & x0 & -> & Hx0 & Hkx).
  assert (x0 = x) as -> by congruence.
  assert (¬ expired now x →
          ∃ s1, shard.pol_OnGet n s = Some s1 ∧
                shard.Get now k s =
                  Some (Some (val x),
                        shard.emit Hit (shard.set_hits (wrap64 (shard.hits s + 1)) s1)) ∧
                shard.m s1 = shard.m s ∧ shard.log s1 = shard.log s ∧
                shard.hits s1 = shard.hits s ∧ shard.misses s1 = shard.misses s ∧
                shard.evicts s1 = shard.evicts s) as Hhit.
  { intros Hne. unfold shard.Get. rewrite Hk, Hx. simpl.
    destruct (shard.expiredLocked now x) eqn:He.
    { by apply expiredLocked_spec in He. }
    destruct (promote_spec shard.pol_OnGet s l1 n l2 (or_introl eq_refl) Hwf)
      as (s1 & Hget & Hwf1 & Hpl & Hm1 & Hcap1 & Hmc1 & Hopt1 & Hhits1 & Hmiss1
          & Hevc1 & Hlog1 & Hcost1 & Hlen1).
    exists s1. rewrite Hget. simpl.
    destruct (same_payload_lookup _ _ n x Hpl Hx) as (x' & Hx' & Hxx').
    rewrite Hx'. simpl. rewrite (payload_val _ _ Hxx'), Hhits1. done. }
  split_and!; [|done|].
  - intros He. unfold shard.Get. rewrite Hk, Hx. simpl.
    apply expiredLocked_spec in He. rewrite He.
    destruct (evictNode_spec s l1 n l2 EvictTTL Hwf)
      as (s1 & x1 & Hx1 & Hev & Hwf1 & _ & Hm1 & Hevc1 & Hlog1 & Hcap1 & Hmc1
          & Hopt1 & Hhits1 & Hmiss1 & Hcost1 & Hpl1).
    assert (x1 = x) as -> by congruence.
    rewrite Hev. simpl. eexists. split; [done|]. simpl.
    rewrite Hm1, Hlog1, Hmiss1, Hkx, <- app_assoc.
    unfold evict_events. rewrite Hkx. done.
  - intros He. destruct Hhit as (s1 & _ & Hget & _).
    + unfold expired. lia.
    + by eexists.
Qed.

End shard_properties.


Section accounting.
Context {K V : Type} `{Countable K}.
Import cache.
Local Abbreviation node := (node K V).
Local Abbreviation event := (event K V).
Implicit Types (h : gmap ptr node) (l : list ptr) (p n : ptr) (s : shard.t K V).

Lemma count_evict_app (a b : list event) :
  count_evict (a ++ b) = (count_evict a + count_evict b)%nat.
Proof. unfold count_evict. by rewrite List.filter_app, length_app. Qed.

Lemma count_evict_evict_events (o : Options K V) (x : node) r :
  count_evict (evict_events o x r) = 1%nat.
Proof. unfold evict_events. by destruct (OnEvict o). Qed.

Lemma count_evict_evicted_events (o : Options K V) h r ps :
  (∀ p, p ∈ ps → is_Some (h !! p)) →
  count_evict (evicted_events o h r ps) = length ps.
Proof.
  induction ps as [|p ps IH]; intros Hps; [done|].
  change (evicted_events o h r (p :: ps))
    with (match h !! p with Some x => evict_events o x r | None => [] end
          ++ evicted_events o h r ps).
  rewrite count_evict_app, IH by (intros q Hq; apply Hps; by right).
  destruct (Hps p) as [x ->]; [left|]. by rewrite count_evict_evict_events.
Qed.

Lemma reasons_evict_events (o : Options K V) (x : node) r rs :
  r ∈ rs → evict_reasons_in rs (evict_events o x r).
Proof.
  intros Hr r' Hin. unfold evict_events in Hin.
  apply elem_of_cons in Hin as [[= ->]|Hin]; [done|].
  destruct (OnEvict o); [|by apply elem_of_nil in Hin].
  apply list_elem_of_singleton in Hin. done.
Qed.

Lemma reasons_app rs (a b : list event) :
  evict_reasons_in rs a → evict_reasons_in rs b → evict_reasons_in rs (a ++ b).
Proof. intros Ha Hb r [Hr|Hr]%elem_of_app; auto. Qed.

Lemma reasons_evicted_events (o : Options K V) h r rs ps :
  r ∈ rs → evict_reasons_in rs (evicted_events o h r ps).
Proof.
  intros Hr. induction ps as [|p ps IH].
  - intros r' Hin. by apply elem_of_nil in Hin.
  - change (evicted_events o h r (p :: ps))
      with (match h !! p with Some x => evict_events o x r | None => [] end
            ++ evicted_events o h r ps).
    apply reasons_app; [|done]. destruct (h !! p).
    + by apply reasons_evict_events.
    + intros r' Hin. by apply elem_of_nil in Hin.
Qed.

Lemma reasons_single rs (e : event) :
  is_evict e = false → evict_reasons_in rs [e].
Proof.
  intros He r Hin. apply list_elem_of_singleton in Hin. by subst e.
Qed.

Lemma accounted_trans s1 s2 s3 i1 i2 rs :
  accounted s1 s2 i1 rs → accounted s2 s3 i2 rs → accounted s1 s3 (i1 + i2) rs.
Proof.
  intros (e1 & Hl1 & Hc1 & Hs1 & Hr1) (e2 & Hl2 & Hc2 & Hs2 & Hr2).
  exists (e1 ++ e2). split_and!.
  - by rewrite Hl2, Hl1, app_assoc.
  - by rewrite Hc2, Hc1, count_evict_app, bump_evicts_add.
  - rewrite count_evict_app. lia.
  - by apply reasons_app.
Qed.

Lemma elem_of_rev (p : ptr) (l : list ptr) : p ∈ rev l ↔ p ∈ l.
Proof. rewrite !list_elem_of_In. symmetry. apply in_rev. Qed.

Lemma wf_in_heap s l p : wf s l → p ∈ l → is_Some (shard.heap s !! p).
Proof. intros Hwf. apply (dll_lookup _ _ _ _ _ (wf_dll _ _ Hwf)). Qed.

(** The enforcement of the limits reports every node it drops. *)
Lemma enforce_accounted s l s' :
  wf s l → shard.enforceLimitsLocked s = Some s' →
  accounted s s' 0 [EvictPolicy; EvictCapacity].
Proof.
  intros Hwf Hen.
  destruct (enforceLimitsLocked_spec s l Hwf)
    as (s1 & keep & capd & Hrun & Hl & Hwf' & _ & _ & _ & Hlog & Hev & _).
  assert (s1 = s') as -> by congruence.
  pose proof (take_drop (Z.to_nat (shard.cap s)) l) as Htd.
  set (d := drop (Z.to_nat (shard.cap s)) l) in *.
  rewrite Hl in Htd.
  assert (∀ p, p ∈ rev d → is_Some (shard.heap s !! p)) as Hd.
  { intros p Hp. apply (wf_in_heap _ _ _ Hwf). rewrite <- Htd.
    apply elem_of_app. right. by apply elem_of_rev. }
  assert (∀ p, p ∈ rev capd → is_Some (shard.heap s !! p)) as Hc.
  { intros p Hp. apply (wf_in_heap _ _ _ Hwf). rewrite <- Htd.
    apply elem_of_app. left. apply elem_of_app. right. by apply elem_of_rev. }
  eexists. split_and!; [exact Hlog|..].
  - rewrite Hev. f_equal. rewrite !count_evict_app.
    rewrite !count_evict_evicted_events by done. rewrite !length_rev.
    unfold count_evict. simpl. lia.
  - rewrite (wf_size _ _ Hwf), (wf_size _ _ Hwf'). rewrite !count_evict_app.
    rewrite !count_evict_evicted_events by done. rewrite !length_rev.
    rewrite <- Htd, !length_app. unfold count_evict. simpl. lia.
  - repeat apply reasons_app.
    + apply reasons_evicted_events. left.
    + apply reasons_evicted_events. right. left.
    + by apply reasons_single.
Qed.
End accounting.


Section eviction_accounting.
Context {K V : Type} `{Countable K}.
Import cache.
Local Abbreviation node := (node K V).
Local Abbreviation event := (event K V).
Implicit Types (h : gmap ptr node) (l : list ptr) (p n : ptr) (s : shard.t K V).

Lemma accounted_quiet s s' (e : list event) :
  shard.log s' = shard.log s ++ e → count_evict e = 0%nat →
  (∀ r, Evict r ∉ e) →
  shard.evicts s' = shard.evicts s → size (shard.m s') = size (shard.m s) →
  ∀ rs, accounted s s' 0 rs.
Proof.
  intros Hlog Hcnt Hno Hev Hsize rs. exists e. split_and!; try done.
  - by rewrite Hcnt.
  - rewrite Hcnt, Hsize. lia.
  - intros r Hr. by destruct (Hno r).
Qed.

Lemma insertNew_accounted s l k v ttl c s' :
  wf s l → Z.of_nat (length l) <= shard.cap s →
  shard.m s !! k = None → 0 <= c <= MaxInt32 →
  shard.insertNew k v ttl c s = Some s' →
  accounted s s' 1 [EvictPolicy; EvictCapacity].
Proof.
  intros Hwf Hlen Hk Hc Hadm.
  destruct (insertNew_spec s l k v ttl c Hwf Hlen Hk Hc)
    as (n & s0 & la & nom & lb & Hl & Hnom & Hn & Hwf0 & Hadm0 & _ & _ & Hlog0
        & Hev0 & _).
  rewrite Hadm0 in Hadm.
  change 1 with (1 + 0). eapply accounted_trans; [|by eapply enforce_accounted].
  assert (count_evict (evicted_events (shard.opt s) (shard.heap s) EvictPolicy nom)
          = length nom) as Hcnt.
  { apply count_evict_evicted_events. intros p Hp.
    apply (wf_in_heap _ _ _ Hwf). rewrite Hl. rewrite !elem_of_app. auto. }
  eexists. split_and!; [exact Hlog0|..].
  - by rewrite Hcnt.
  - rewrite Hcnt, (wf_size _ _ Hwf), (wf_size _ _ Hwf0), Hl. simpl.
    rewrite !length_app. lia.
  - apply reasons_evicted_events. left.
Qed.

Lemma Get_miss_absent s now k s' :
  inv s → shard.Get now k s = Some (None, s') → shard.m s' !! k = None.
Proof.
  intros (l & Hwf & Hlen & Hcost). unfold shard.Get.
  destruct (shard.m s !! k) as [n|] eqn:Hk.
  - destruct (wf_resident _ _ _ _ Hwf Hk) as (l1 & l2 & x & -> & Hx & Hkx).
    rewrite Hx. simpl. destruct (shard.expiredLocked now x).
    + destruct (evictNode_spec s l1 n l2 EvictTTL Hwf)
        as (s1 & x1 & Hx1 & Hev & Hwf1 & _ & Hm1 & _).
      assert (x1 = x) as -> by congruence.
      rewrite Hev. simpl. intros [= <-]. simpl. rewrite Hm1, Hkx.
      apply lookup_delete_eq.
    + destruct (shard.pol_OnGet n s) as [s1|]; simpl; [|done].
      destruct (shard.heap s1 !! n); simpl; done.
  - intros [= <-]. done.
Qed.

(** C6. In a shard that satisfies its invariant: whatever [Add], [Set] and
    [Get] remove is reported, one [Evict] and one increment of the eviction
    counter for each entry that leaves the map, for the reasons
    [EvictPolicy] (named by the policy, or beyond [cap]) and
    [EvictCapacity] (cost limit) in [Add] and [Set], and [EvictTTL] in
    [Get]; [Remove] emits nothing and leaves the eviction counter alone,
    also when the key is present. *)
Theorem C6_eviction_accounting s :
  inv s →
  (∀ k v ttl c r s', 0 <= c <= MaxInt32 →
     shard.Add k v ttl c s = Some (r, s') →
     accounted s s' (if r then 1 else 0) [EvictPolicy; EvictCapacity]) ∧
  (∀ k v ttl c s', 0 <= c <= MaxInt32 →
     shard.Set_ k v ttl c s = Some s' →
     accounted s s' (match shard.m s !! k with Some _ => 0 | None => 1 end)
       [EvictPolicy; EvictCapacity]) ∧
  (∀ now k r s',
     shard.Get now k s = Some (r, s') → accounted s s' 0 [EvictTTL]) ∧
  (∀ k r s',
     shard.Remove k s = Some (r, s') →
     shard.log s' = shard.log s ∧ shard.evicts s' = shard.evicts s ∧
     (r = true ↔ is_Some (shard.m s !! k))).
Proof.
  intros (l & Hwf & Hlen & Hcost). split_and!.
  - intros k v ttl c r s' Hc. unfold shard.Add.
    destruct (shard.m s !! k) as [n|] eqn:Hk.
    + intros [= <- <-]. apply (accounted_quiet _ _ []); try done.
      * by rewrite app_nil_r.
      * intros r Hr. by apply elem_of_nil in Hr.
    + destruct (shard.insertNew k v ttl c s) as [s1|] eqn:Hadm; simpl; [|done].
      intros [= <- <-]. by eapply insertNew_accounted.
  - intros k v ttl c s' Hc Hset.
    destruct (shard.m s !! k) as [n|] eqn:Hk.
    + destruct (wf_resident _ _ _ _ Hwf Hk) as (l1 & l2 & x & -> & Hx & Hkx).
      destruct (update_spec s l1 n l2 k v ttl c Hwf Hk Hc Hlen)
        as (s0 & Hwf0 & Hset0 & _ & _ & Hlog0 & Hev0 & _).
      rewrite Hset0 in Hset.
      change 0 with (0 + 0). eapply accounted_trans; [|by eapply enforce_accounted].
      apply (accounted_quiet _ _ []); try done.
      * by rewrite app_nil_r.
      * intros r Hr. by apply elem_of_nil in Hr.
      * rewrite (wf_size _ _ Hwf), (wf_size _ _ Hwf0). simpl.
        rewrite !length_app. simpl. lia.
    + unfold shard.Set_ in Hset. rewrite Hk in Hset. by eapply insertNew_accounted.
  - intros now k r s'. unfold shard.Get.
    destruct (shard.m s !! k) as [n|] eqn:Hk.
    + destruct (wf_resident _ _ _ _ Hwf Hk) as (l1 & l2 & x & -> & Hx & Hkx).
      rewrite Hx. simpl. destruct (shard.expiredLocked now x).
      * destruct (evictNode_spec s l1 n l2 EvictTTL Hwf)
          as (s1 & x1 & Hx1 & Hev & Hwf1 & _ & Hm1 & Hevc1 & Hlog1 & _).
        rewrite Hev. simpl. intros [= <- <-].
        assert (count_evict (evict_events (shard.opt s) x1 EvictTTL ++ [Miss])
                = 1%nat) as Hcnt.
        { by rewrite count_evict_app, count_evict_evict_events. }
        exists (evict_events (shard.opt s) x1 EvictTTL ++ [Miss]).
        rewrite Hcnt. split_and!.
        -- simpl. by rewrite Hlog1, <- app_assoc.
        -- simpl. by rewrite Hevc1.
        -- simpl. rewrite (wf_size _ _ Hwf), (wf_size _ _ Hwf1), !length_app.
           simpl. lia.
        -- apply reasons_app; [apply reasons_evict_events; left|].
           by apply reasons_single.
      * destruct (promote_spec shard.pol_OnGet s l1 n l2 (or_introl eq_refl) Hwf)
          as (s1 & Hget & Hwf1 & Hpl & Hm1 & _ & _ & _ & _ & _ & Hevc1 & Hlog1 & _).
        rewrite Hget. simpl.
        destruct (shard.heap s1 !! n) as [x'|]; simpl; [|done].
        intros [= <- <-]. apply (accounted_quiet _ _ [Hit]); simpl; try done.
        -- by rewrite Hlog1.
        -- intros r Hr. apply list_elem_of_singleton in Hr. done.
        -- by rewrite Hm1.
    + intros [= <- <-]. apply (accounted_quiet _ _ [Miss]); simpl; try done.
      intros r Hr. apply list_elem_of_singleton in Hr. done.
  - intros k r s'. unfold shard.Remove.
    destruct (shard.m s !! k) as [n|] eqn:Hk.
    + destruct (wf_resident _ _ _ _ Hwf Hk) as (l1 & l2 & x & -> & Hx & Hkx).
      destruct (unlink_spec _ _ _ _ Hwf)
        as (s1 & s2 & x1 & Hp & Hrm & Hx1 & _ & Hmx & Hm & Hwf2 & Hcap2
            & Hmc2 & Hopt2 & Hhits2 & Hmiss2 & Hev2 & Hlog2 & _).
      rewrite Hp. simpl. rewrite Hrm. simpl. intros [= <- <-]. simpl.
      split_and!; try done.
    + intros [= <- <-]. split_and!; try done.
Qed.
End eviction_accounting.


Section add_twice.
Context {K V : Type} `{Countable K} `{!util.Fnv64aKey K}.
Import cache.
Local Abbreviation node := (node K V).
Implicit Types (h : gmap ptr node) (l : list ptr) (p n : ptr) (s : shard.t K V)
  (c : cache.t K V).

(** An entry whose cost is within the cost limit survives its own [Add]. *)
Lemma Add_then_stored s k v ttl cst s' :
  inv s → 0 <= cst <= MaxInt32 →
  shard.maxCost s <= 0 ∨ cst <= shard.maxCost s →
  shard.Add k v ttl cst s = Some (true, s') →
  inv s' ∧ is_Some (shard.m s' !! k) ∧ stored s' k = Some v.
Proof.
  intros (l & Hwf & Hlen & Hcost) Hc Hmc. unfold shard.Add.
  destruct (shard.m s !! k) as [n0|] eqn:Hk; [done|].
  destruct (insertNew_spec s l k v ttl cst Hwf Hlen Hk Hc)
    as (n & s0 & la & nom & lb & Hl & Hnom & Hn & Hwf0 & Hadm & (x & Hx & Hpx) & _
        & _ & _ & Hcap0 & Hmc0 & _).
  rewrite Hadm.
  destruct (enforceLimitsLocked_spec s0 _ Hwf0)
    as (s1 & keep & capd & Hrun & Htake & Hwf1 & Hcost1 & Hcapd & Hd & _ & _ & Hcap1
        & Hmc1 & _ & _ & _ & Hpl).
  rewrite Hrun. simpl. intros [= <-].
  assert (inv s1) as Hinv1.
  { destruct (enforceLimitsLocked_inv s0 _ Hwf0) as (s2 & Hrun2 & Hinv2).
    congruence. }
  split; [done|].
  pose proof (wf_cap _ _ Hwf0) as Hcapb.
  assert (∃ keep', keep = n :: keep') as [keep' ->].
  { destruct (Z.to_nat (shard.cap s0)) as [|m] eqn:Hm; [lia|].
    simpl in Htake. destruct keep as [|p keep'].
    - simpl in Htake. exfalso.
      destruct (Z.le_gt_cases (shard.maxCost s0) 0) as [Hle|Hgt].
      + rewrite (Hcapd Hle) in Htake. done.
      + destruct capd as [|p d']; [done|]. injection Htake as <- _.
        specialize (Hd n d' eq_refl). simpl in Hd. unfold node_cost in Hd.
        rewrite Hx in Hd. rewrite (payload_ncost x (mkNode k v None None ttl cst)) in Hd
          by done.
        simpl in Hd. lia.
    - injection Htake as <- _. by exists keep'. }
  destruct (same_payload_lookup _ _ n x Hpl Hx) as (x' & Hx' & Hxx').
  assert (shard.m s1 !! k = Some n) as Hmk.
  { apply (wf_map _ _ Hwf1). split; [left|]. rewrite Hx'. simpl.
    rewrite (payload_key _ _ Hxx'), (payload_key x (mkNode k v None None ttl cst)) by done.
    done. }
  split; [by eexists|]. unfold stored. rewrite Hmk. simpl. rewrite Hx'. simpl.
  rewrite (payload_val _ _ Hxx'), (payload_val x (mkNode k v None None ttl cst)) by done.
  done.
Qed.

Lemma shard_index_putShard k k' s c :
  cache.shard_index k (cache.putShard k' s c) = cache.shard_index k c.
Proof. unfold cache.shard_index, cache.putShard. simpl. by rewrite length_insert. Qed.

Lemma getShard_putShard k s s0 c :
  cache.getShard k c = Some s0 →
  cache.getShard k (cache.putShard k s c) = Some s.
Proof.
  unfold cache.getShard. rewrite shard_index_putShard.
  destruct (cache.shard_index k c <? 0); [done|]. intros Hs0.
  unfold cache.putShard. simpl. apply list_lookup_insert_eq.
  by eapply lookup_lt_Some.
Qed.

Lemma putShard_putShard k s s' c :
  cache.putShard k s (cache.putShard k s' c) = cache.putShard k s c.
Proof.
  unfold cache.putShard at 1. rewrite shard_index_putShard.
  unfold cache.putShard, cache.set_shards. simpl.
  by rewrite list_insert_insert_eq.
Qed.

(** C7, as the code has it.  On a cache built by [New] with a capacity
    below 2^32, after any operations: when [Add(k, v1)] returns true and the
    cost of [v1] is within the cost limit of the shard of [k] (or the shard
    has no cost limit), a second [Add(k, v2)] returns false and changes
    nothing, and the value stored for [k] is [v1]. *)
Theorem C7_Add_twice (procs : Z) (o : Options K V) (c0 c c1 : cache.t K V)
    (ops : list (op K V)) (now1 now2 : Z) (k : K) (v1 v2 : V) :
  cache.New procs o = Some c0 → Capacity o < 2 ^ 32 →
  cache.run ops c0 = Some c →
  (∀ s, cache.getShard k c = Some s →
        shard.maxCost s <= 0 ∨ cache.costOf v1 c <= shard.maxCost s) →
  cache.Add now1 k v1 c = Some (true, c1) →
  cache.Add now2 k v2 c1 = Some (false, c1) ∧ cache_stored c1 k = Some v1.
Proof.
  intros Hnew Hcap Hrun Hcost.
  destruct (run_cache_inv ops c0 (New_inv procs o c0 Hnew Hcap)) as (c' & Hrun' & [Hc _]).
  assert (c' = c) as -> by congruence.
  unfold cache.Add at 1. destruct (closed c) eqn:Hcl; [done|].
  destruct (getShard_Some k c Hc) as (s & Hs & Hinv). rewrite Hs. simpl.
  destruct (shard.Add k v1 _ _ s) as [[r s']|] eqn:Hadd; simpl; [|done].
  intros [= -> <-].
  destruct (Add_then_stored s k v1 _ _ s' Hinv (costOf_range v1 c) (Hcost s Hs) Hadd)
    as (Hinv' & [n Hn] & Hst).
  pose proof (getShard_putShard k s' s c Hs) as Hget.
  split.
  - unfold cache.Add. simpl. rewrite Hcl, Hget. simpl.
    unfold shard.Add. rewrite Hn. simpl. by rewrite putShard_putShard.
  - unfold cache_stored. rewrite Hget. done.
Qed.
End add_twice.

(** C7, as the specification states it, fails: with a cost limit of 10 for
    the one shard, [Add("k", 11)] returns true, the entry is evicted at once
    for its cost, and [Add("k", 5)] returns true as well. *)
Lemma C7_counterexample :
  ∃ c1 c2,
    cache.Add 0 "k"%string 11 (samples.build samples.opt_cost) = Some (true, c1) ∧
    cache_stored c1 "k"%string = None ∧
    cache.Add 0 "k"%string 5 c1 = Some (true, c2).
Proof.
  assert (('(r1, c1) ← cache.Add 0 "k"%string 11 (samples.build samples.opt_cost);
           '(r2, _) ← cache.Add 0 "k"%string 5 c1;
           Some (r1, cache_stored c1 "k"%string, r2)) = Some (true, None, true)) as Ht
    by (vm_compute; reflexivity).
  destruct (cache.Add 0 "k"%string 11 _) as [[r1 c1]|] eqn:E1; [|done].
  cbn [mbind option_bind] in Ht.
  destruct (cache.Add 0 "k"%string 5 c1) as [[r2 c2]|] eqn:E2; [|done].
  simpl in Ht. exists c1, c2. injection Ht as -> Hst ->.
  split; [reflexivity|]. split; [exact Hst|exact E2].
Qed.

Lemma C7_witness :
  ∃ c1,
    cache.Add 0 "k"%string 1 (samples.build samples.opt_cost) = Some (true, c1) ∧
    cache.Add 0 "k"%string 2 c1 = Some (false, c1) ∧
    cache_stored c1 "k"%string = Some 1.
Proof.
  assert ((fst <$> cache.Add 0 "k"%string 1 (samples.build samples.opt_cost))
          = Some true) as Ht by (vm_compute; reflexivity).
  destruct (cache.Add 0 "k"%string 1 _) as [[r c1]|] eqn:E1; [|discriminate Ht].
  injection Ht as ->. exists c1. split; [reflexivity|].
  apply (C7_Add_twice 1 samples.opt_cost (samples.build samples.opt_cost)
           (samples.build samples.opt_cost) c1 [] 0 0 "k"%string 1 2).
  - reflexivity.
  - vm_compute. reflexivity.
  - reflexivity.
  - intros s Hs. right. vm_compute in Hs. injection Hs as <-. vm_compute. discriminate.
  - exact E1.
Defined.

Section load_errors.
Context {K V : Type} `{Countable K} `{!util.Fnv64aKey K}.
Import cache.
Implicit Types (s : shard.t K V) (c : cache.t K V).

Lemma getShard_set_sf X k c : cache.getShard k (cache.set_sf X c) = cache.getShard k c.
Proof. done. Qed.

Lemma Get_set_sf X now k c :
  cache.Get now k (cache.set_sf X c)
  = (fun rc => (rc.1, cache.set_sf X rc.2)) <$> cache.Get now k c.
Proof.
  unfold cache.Get. rewrite getShard_set_sf.
  change (closed (cache.set_sf X c)) with (closed c).
  destruct (closed c); [done|].
  destruct (cache.getShard k c) as [s|]; [|done]. simpl.
  by destruct (shard.Get now k s) as [[r s']|].
Qed.

Lemma set_sf_id c : cache.set_sf (sf c) c = c.
Proof. by destruct c. Qed.

(** What a miss of [Get] leaves behind. *)
Lemma Get_miss_cache now k c c' :
  shards_inv c → cache.Get now k c = Some (None, c') →
  shards_inv c' ∧ sf c' = sf c ∧ opt c' = opt c ∧ closed c' = closed c ∧
  (closed c = false → cache_stored c' k = None).
Proof.
  intros Hc Hget.
  destruct (Get_shards_inv now k c Hc) as (r & c2 & Hget2 & Hc2 & Hsf & Hopt).
  rewrite Hget in Hget2. injection Hget2 as <- <-.
  split_and!; try done.
  - revert Hget. unfold cache.Get. destruct (closed c) eqn:Hcl; [by intros [= <-]|].
    destruct (cache.getShard k c) as [s|]; [|done]. simpl.
    destruct (shard.Get now k s) as [[r s']|]; [|done]. by intros [= _ <-].
  - intros Hcl. revert Hget. unfold cache.Get. rewrite Hcl.
    destruct (getShard_Some k c Hc) as (s & Hs & Hinv). rewrite Hs. simpl.
    destruct (shard.Get now k s) as [[r s']|] eqn:Hsg; [|done]. simpl.
    intros [= -> <-]. unfold cache_stored.
    rewrite (getShard_putShard k s' s c Hs). simpl. unfold stored.
    by rewrite (Get_miss_absent s now k s' Hinv Hsg).
Qed.

(** A second [Get] after a miss misses again. *)
Lemma Get_miss_again now1 now2 k c c1 :
  shards_inv c → cache.Get now1 k c = Some (None, c1) →
  ∃ c2, cache.Get now2 k c1 = Some (None, c2).
Proof.
  intros Hc Hget.
  destruct (Get_miss_cache now1 k c c1 Hc Hget) as (Hc1 & _ & _ & Hcl & Hst).
  unfold cache.Get. rewrite Hcl. destruct (closed c) eqn:Hclosed; [by eexists|].
  specialize (Hst eq_refl). unfold cache_stored in Hst.
  destruct (getShard_Some k c1 Hc1) as (s1 & Hs1 & Hinv1). rewrite Hs1 in *.
  simpl in *. unfold stored in Hst. unfold shard.Get.
  destruct (shard.m s1 !! k) as [n|] eqn:Hk; [|by eexists].
  destruct Hinv1 as (l & Hwf & _).
  destruct (wf_resident _ _ _ _ Hwf Hk) as (l1 & l2 & x & _ & Hx & _).
  simpl in Hst. by rewrite Hx in Hst.
Qed.

(** C8.  On a cache built by [New] with a capacity below 2^32, after any
    operations, let the first [Get] of [GetOrLoad(ctx, k)] miss.  With no
    loader configured the call returns [ErrNoLoader].  With a loader that
    fails on [k] with [e], the call returns [e] itself; all it did to the
    cache are the two lookups, both misses; and unless the cache is closed
    no value is stored for [k] afterwards. *)
Theorem C8_GetOrLoad_errors (procs : Z) (o : Options K V) (c0 c c1 : cache.t K V)
    (ops : list (op K V)) (now1 now2 now3 : Z) (k : K) :
  cache.New procs o = Some c0 → Capacity o < 2 ^ 32 →
  cache.run ops c0 = Some c →
  cache.Get now1 k c = Some (None, c1) →
  (Loader (opt c) = None →
   cache.GetOrLoad now1 now2 now3 k c = Some (inr ErrNoLoader, c1)) ∧
  (∀ load e, Loader (opt c) = Some load → load k = inr e →
     ∃ c2, cache.Get now2 k c1 = Some (None, c2) ∧
           cache.GetOrLoad now1 now2 now3 k c = Some (inr e, c2) ∧
           (closed c = false → cache_stored c2 k = None)).
Proof.
  intros Hnew Hcap Hrun Hget.
  destruct (run_cache_inv ops c0 (New_inv procs o c0 Hnew Hcap))
    as (c' & Hrun' & [Hc Hsf]).
  assert (c' = c) as -> by congruence.
  destruct (Get_miss_cache now1 k c c1 Hc Hget) as (Hc1 & Hsf1 & Hopt1 & Hcl1 & _).
  split.
  - intros Hld. unfold cache.GetOrLoad. rewrite Hget. simpl.
    by rewrite Hopt1, Hld.
  - intros load e Hld He.
    destruct (Get_miss_again now1 now2 k c c1 Hc Hget) as (c2 & Hget2).
    destruct (Get_miss_cache now2 k c1 c2 Hc1 Hget2) as (Hc2 & Hsf2 & _ & _ & Hst2).
    exists c2. split; [done|]. split; [|intros Hcl; apply Hst2; congruence].
    unfold cache.GetOrLoad. rewrite Hget. simpl. rewrite Hopt1, Hld.
    unfold singleflight.Do. rewrite Hsf1, Hsf.
    rewrite decide_False by apply not_elem_of_empty.
    rewrite Get_set_sf, Hget2. simpl. rewrite He. simpl.
    rewrite flight_over. do 2 f_equal.
    rewrite <- (set_sf_id c2) at 2. rewrite Hsf2, Hsf1, Hsf.
    by destruct c2.
Qed.
End load_errors.

Lemma C8_witness :
  ∃ c1 c2,
    cache.Get 0 "k"%string (samples.build samples.opt_failing) = Some (None, c1) ∧
    cache.Get 0 "k"%string c1 = Some (None, c2) ∧
    cache.GetOrLoad 0 0 0 "k"%string (samples.build samples.opt_failing)
      = Some (inr (cache.ErrLoad "boom"), c2) ∧
    cache_stored c2 "k"%string = None.
Proof.
  assert ((fst <$> cache.Get 0 "k"%string (samples.build samples.opt_failing))
          = Some None) as Ht by (vm_compute; reflexivity).
  destruct (cache.Get 0 "k"%string _) as [[r c1]|] eqn:E1; [|discriminate Ht].
  injection Ht as ->. exists c1.
  destruct (C8_GetOrLoad_errors 1 samples.opt_failing
              (samples.build samples.opt_failing) (samples.build samples.opt_failing)
              c1 [] 0 0 0 "k"%string) as [_ Herr].
  - reflexivity.
  - vm_compute. reflexivity.
  - reflexivity.
  - exact E1.
  - destruct (Herr (fun _ => inr (cache.ErrLoad "boom")) (cache.ErrLoad "boom"))
      as (c2 & Hg2 & Hgl & Hst).
    + reflexivity.
    + reflexivity.
    + exists c2. split; [reflexivity|]. split; [exact Hg2|]. split; [exact Hgl|].
      apply Hst. reflexivity.
Defined.


Lemma shard_empty_inv : inv samples.shard_empty.
Proof. apply newShard_inv. lia. Qed.

Lemma shard_k_inv : inv samples.shard_k.
Proof.
  destruct (Add_inv samples.shard_empty "k"%string 7 5 1 shard_empty_inv)
    as (r & s' & E & Hinv).
  - unfold MaxInt32. lia.
  - unfold samples.shard_k. rewrite E. exact Hinv.
Qed.

Lemma C4_witness :
  ∃ s', cache.shard.Get 5 "k"%string samples.shard_k = Some (Some 7, s').
Proof.
  destruct (C4_Get_resident samples.shard_k 5 "k"%string 0%nat
              (cache.mkNode "k"%string 7 None None 5 1)) as (_ & _ & Hnow).
  - exact shard_k_inv.
  - vm_compute. reflexivity.
  - vm_compute. reflexivity.
  - apply Hnow. reflexivity.
Defined.


Lemma C6_witness :
  ∃ s', cache.shard.Remove "k"%string samples.shard_k = Some (true, s') ∧
        cache.shard.log s' = cache.shard.log samples.shard_k ∧
        cache.shard.evicts s' = cache.shard.evicts samples.shard_k.
Proof.
  assert ((fst <$> cache.shard.Remove "k"%string samples.shard_k) = Some true)
    as Ht by (vm_compute; reflexivity).
  destruct (cache.shard.Remove "k"%string samples.shard_k) as [[r s']|] eqn:E;
    [|discriminate Ht].
  injection Ht as ->.
  destruct (C6_eviction_accounting samples.shard_k shard_k_inv) as (_ & _ & _ & Hrem).
  destruct (Hrem "k"%string true s' E) as (Hlog & Hev & _).
  exists s'. split; [reflexivity|]. split; [exact Hlog|exact Hev].
Defined.


(** * Package util: powers of two, shard counts, hashing *)

Lemma pow2_land_pred j : 0 <= j → Z.land (2 ^ j) (2 ^ j - 1) = 0.
Proof.
  intros Hj. replace (2 ^ j - 1) with (Z.ones j) by (rewrite Z.ones_equiv; lia).
  rewrite Z.land_ones by done. apply Z.mod_same. lia.
Qed.

Lemma IsPowerOfTwo_pow2 j : 0 <= j < 64 → util.IsPowerOfTwo (2 ^ j) = true.
Proof.
  intros Hj. unfold util.IsPowerOfTwo.
  assert (0 < 2 ^ j) by (apply Z.pow_pos_nonneg; lia).
  assert (2 ^ j < 2 ^ 64) by (apply Z.pow_lt_mono_r; lia).
  rewrite wrapu64_id by lia. rewrite pow2_land_pred by lia.
  destruct (Z.eqb_spec (2 ^ j) 0); [lia|]. done.
Qed.

Lemma IsPowerOfTwo_inv x :
  0 <= x < 2 ^ 64 → util.IsPowerOfTwo x = true → ∃ j, 0 <= j < 64 ∧ x = 2 ^ j.
Proof.
  intros Hx. unfold util.IsPowerOfTwo.
  destruct (Z.eqb_spec x 0) as [|Hne]; [done|]. simpl.
  rewrite wrapu64_id by lia. intros Hland%Z.eqb_eq.
  set (t := Z.log2 x).
  destruct (Z.log2_spec x) as [Hlo Hhi]; [lia|]. fold t in Hlo, Hhi.
  assert (0 <= t) by apply Z.log2_nonneg.
  assert (t < 64).
  { apply Z.log2_lt_pow2; lia. }
  exists t. split; [lia|].
  destruct (Z.eq_dec x (2 ^ t)) as [|Hgt]; [done|]. exfalso.
  assert (Z.log2 (x - 1) = t) as Hlog.
  { apply Z.log2_unique; [done|]. rewrite Z.pow_succ_r in Hhi by done.
    replace (t + 1) with (Z.succ t) by lia. rewrite Z.pow_succ_r by done. lia. }
  assert (Z.testbit (Z.land x (x - 1)) t = true) as Hbit.
  { rewrite Z.land_spec. unfold t at 1. rewrite Z.bit_log2 by lia.
    rewrite <- Hlog. rewrite Z.bit_log2; [done|].
    assert (0 < 2 ^ t) by (apply Z.pow_pos_nonneg; lia). lia. }
  rewrite Hland, Z.bits_0 in Hbit. done.
Qed.

(** X1. For a 64-bit [x], [IsPowerOfTwo(x)] holds exactly when [x] is one
    of 2^0, ..., 2^63; in particular it is false for 0. *)
Theorem IsPowerOfTwo_iff (x : Z) :
  0 <= x < 2 ^ 64 →
  util.IsPowerOfTwo x = true ↔ ∃ j, 0 <= j < 64 ∧ x = 2 ^ j.
Proof.
  intros Hx. split.
  - by apply IsPowerOfTwo_inv.
  - intros (j & Hj & ->). by apply IsPowerOfTwo_pow2.
Qed.

Lemma IsPowerOfTwo_iff_witness :
  0 <= 64 < 2 ^ 64 ∧
  (util.IsPowerOfTwo 64 = true ↔ ∃ j, 0 <= j < 64 ∧ 64 = 2 ^ j).
Proof. split; [lia|]. apply (IsPowerOfTwo_iff 64). lia. Defined.

(** The bit filling of [NextPow2] on an input above 1: with [t] the top bit
    of [x - 1], the result is [2^(t + 1)], clamped to [2^63] when [t = 63]. *)
Lemma NextPow2_fill x :
  1 < x < 2 ^ 64 →
  util.NextPow2 x =
    if Z.log2 (x - 1) =? 63 then 2 ^ 63 else 2 ^ (Z.log2 (x - 1) + 1).
Proof.
  intros Hx. unfold util.NextPow2.
  destruct (Z.leb_spec x 1) as [Hle|Hgt]; [lia|].
  rewrite (wrapu64_id (x - 1)) by lia.
  set (a0 := x - 1). set (t := Z.log2 a0).
  assert (0 < a0) as Ha0 by (unfold a0; lia).
  assert (0 <= t <= 63) as Ht.
  { split; [apply Z.log2_nonneg|].
    assert (t < 64); [|lia]. apply Z.log2_lt_pow2; unfold a0; lia. }
  assert ((∀ i, 0 <= i -> t - 0 <= i <= t -> Z.testbit a0 i = true) ∧
          (∀ i, t < i -> Z.testbit a0 i = false)) as [L0 H0].
  { split.
    - intros i Hi Hr. assert (i = t) as -> by lia. apply Z.bit_log2. done.
    - intros i Hi. apply Z.bits_above_log2; lia. }
  destruct (fill_step a0 t 0 1 L0 H0) as [L1 H1]; [lia|].
  destruct (fill_step _ t (0 + 1) 2 L1 H1) as [L2 H2]; [lia|].
  destruct (fill_step _ t (0 + 1 + 2) 4 L2 H2) as [L3 H3]; [lia|].
  destruct (fill_step _ t (0 + 1 + 2 + 4) 8 L3 H3) as [L4 H4]; [lia|].
  destruct (fill_step _ t (0 + 1 + 2 + 4 + 8) 16 L4 H4) as [L5 H5]; [lia|].
  destruct (fill_step _ t (0 + 1 + 2 + 4 + 8 + 16) 32 L5 H5) as [L6 H6]; [lia|].
  cbv zeta.
  match goal with |- context [wrapu64 (?y + 1)] => set (a6 := y) in * end.
  assert (a6 = Z.ones (t + 1)) as ->.
  { apply Z.bits_inj'. intros i Hi.
    destruct (Z_le_gt_dec i t).
    - rewrite L6, Z.ones_spec_low by lia. done.
    - rewrite H6, Z.ones_spec_high by lia. done. }
  rewrite Z.ones_equiv.
  replace (Z.pred (2 ^ (t + 1)) + 1) with (2 ^ (t + 1)) by lia.
  destruct (Z.eqb_spec t 63) as [->|Hne]; [done|].
  assert (2 ^ (t + 1) <= 2 ^ 63) by (apply Z.pow_le_mono_r; lia).
  assert (0 < 2 ^ (t + 1)) by (apply Z.pow_pos_nonneg; lia).
  rewrite wrapu64_id by lia.
  destruct (Z.eqb_spec (2 ^ (t + 1)) 0); [lia|]. done.
Qed.

(** [NextPow2] below the clamp: a power of two, at least the argument, and
    the least such. *)
Lemma NextPow2_spec (x : Z) :
  0 <= x <= 2 ^ 63 →
  ∃ j, 0 <= j <= 63 ∧ util.NextPow2 x = 2 ^ j ∧ x <= 2 ^ j ∧
       ∀ i, 0 <= i → x <= 2 ^ i → 2 ^ j <= 2 ^ i.
Proof.
  intros Hx. destruct (Z_le_gt_dec x 1) as [Hle|Hgt].
  - exists 0. unfold util.NextPow2. destruct (Z.leb_spec x 1); [|lia].
    split_and!; try done; try lia.
  - rewrite NextPow2_fill by lia.
    set (t := Z.log2 (x - 1)).
    destruct (Z.log2_spec (x - 1)) as [Hlo Hhi]; [lia|]. fold t in Hlo, Hhi.
    assert (0 <= t) by apply Z.log2_nonneg.
    assert (t < 63).
    { apply Z.log2_lt_pow2; lia. }
    destruct (Z.eqb_spec t 63); [lia|].
    replace (Z.succ t) with (t + 1) in Hhi by lia.
    exists (t + 1). split_and!; try done; try lia.
    intros i Hi Hxi. apply Z.pow_le_mono_r; [lia|].
    destruct (Z_lt_le_dec i (t + 1)) as [Hlt|]; [|done].
    assert (2 ^ i <= 2 ^ t) by (apply Z.pow_le_mono_r; lia). lia.
Qed.

(** X2. For [x <= 2^63], [NextPow2(x)] is the least power of two that is
    at least [x] (1 for [x = 0]). *)
Theorem NextPow2_least (x : Z) :
  0 <= x <= 2 ^ 63 →
  ∃ j, 0 <= j <= 63 ∧ util.NextPow2 x = 2 ^ j ∧ x <= 2 ^ j ∧
       ∀ i, 0 <= i → x <= 2 ^ i → 2 ^ j <= 2 ^ i.
Proof. apply NextPow2_spec. Qed.

Lemma NextPow2_least_witness :
  0 <= 5 <= 2 ^ 63 ∧
  ∃ j, 0 <= j <= 63 ∧ util.NextPow2 5 = 2 ^ j ∧ 5 <= 2 ^ j ∧
       ∀ i, 0 <= i → 5 <= 2 ^ i → 2 ^ j <= 2 ^ i.
Proof. split; [lia|]. apply (NextPow2_least 5). lia. Defined.

(** X3. Above [2^63] the next power of two does not fit in 64 bits:
    [NextPow2] returns [1 << 63], which is less than its argument. *)
Theorem NextPow2_clamp (x : Z) :
  2 ^ 63 < x < 2 ^ 64 → util.NextPow2 x = 2 ^ 63 ∧ util.NextPow2 x < x.
Proof.
  intros Hx. rewrite NextPow2_fill by lia.
  assert (Z.log2 (x - 1) = 63) as ->.
  { apply Z.log2_unique; lia. }
  simpl. lia.
Qed.

Lemma NextPow2_clamp_witness :
  2 ^ 63 < 2 ^ 63 + 1 < 2 ^ 64 ∧
  util.NextPow2 (2 ^ 63 + 1) = 2 ^ 63 ∧ util.NextPow2 (2 ^ 63 + 1) < 2 ^ 63 + 1.
Proof. split; [lia|]. apply (NextPow2_clamp (2 ^ 63 + 1)). lia. Defined.

Lemma wrap64_pow2 j : 0 <= j <= 62 → wrap64 (2 ^ j) = 2 ^ j.
Proof.
  intros Hj. apply wrap64_id. unfold MinInt64, MaxInt64.
  assert (0 < 2 ^ j) by (apply Z.pow_pos_nonneg; lia).
  assert (2 ^ j <= 2 ^ 62) by (apply Z.pow_le_mono_r; lia). lia.
Qed.

Lemma wrapu64_range z : 0 <= wrapu64 z < 2 ^ 64.
Proof. unfold wrapu64. apply Z.mod_pos_bound. lia. Qed.

Lemma pow2_le_256 j : 0 <= j → 2 ^ j <= 256 → j <= 8.
Proof.
  intros Hj Hle. destruct (Z_le_gt_dec j 8) as [|Hgt]; [done|].
  assert (2 ^ 9 <= 2 ^ j) by (apply Z.pow_le_mono_r; lia). lia.
Qed.

(** X4. Whatever [GOMAXPROCS] says, [ReasonableShardCount()] is a power of
    two between 1 and 256; for 1 to 128 processors it is the least power of
    two that is at least twice their number. *)
Theorem ReasonableShardCount_range (procs : Z) :
  ∃ j, 0 <= j <= 8 ∧ util.ReasonableShardCount procs = 2 ^ j ∧
       (1 <= procs <= 128 →
        2 * procs <= 2 ^ j ∧ ∀ i, 0 <= i → 2 * procs <= 2 ^ i → 2 ^ j <= 2 ^ i).
Proof.
  unfold util.ReasonableShardCount.
  set (p := if procs <? 1 then 1 else procs).
  set (x := wrapu64 (wrap64 (p * 2))).
  pose proof (wrapu64_range (wrap64 (p * 2))) as Hx. fold x in Hx.
  assert (1 <= procs <= 128 → x = 2 * procs) as Hsmall.
  { intros Hp. unfold x, p. destruct (Z.ltb_spec procs 1); [lia|].
    rewrite wrap64_id by (unfold MinInt64, MaxInt64; lia).
    rewrite wrapu64_id by lia. lia. }
  destruct (NextPow2_pow2 x Hx) as (j & Hj & Hnp).
  destruct (Z.eq_dec j 63) as [->|Hj63].
  - (* the conversion to [int] is negative *)
    exists 0. rewrite Hnp. change (wrap64 (2 ^ 63)) with (- 2 ^ 63).
    simpl. split_and!; try done.
    intros Hp. exfalso. specialize (Hsmall Hp).
    destruct (NextPow2_spec x) as (j' & Hj' & Hnp' & _ & Hleast); [lia|].
    specialize (Hleast 8). rewrite Hnp' in Hnp.
    assert (2 ^ j' <= 2 ^ 8) by (apply Hleast; lia). lia.
  - rewrite Hnp, wrap64_pow2 by lia.
    assert (0 < 2 ^ j) by (apply Z.pow_pos_nonneg; lia).
    destruct (Z.ltb_spec (2 ^ j) 1); [lia|].
    destruct (Z.gtb_spec (2 ^ j) 256) as [Hbig|Hle].
    + exists 8. split_and!; try done.
      intros Hp. exfalso. specialize (Hsmall Hp).
      destruct (NextPow2_spec x) as (j' & Hj' & Hnp' & _ & Hleast); [lia|].
      specialize (Hleast 8). rewrite Hnp' in Hnp.
      assert (2 ^ j' <= 2 ^ 8) by (apply Hleast; lia). lia.
    + exists j. split; [split; [lia|by apply pow2_le_256; lia]|].
      split; [done|]. intros Hp. specialize (Hsmall Hp).
      destruct (NextPow2_spec x) as (j' & Hj' & Hnp' & Hxj & Hleast); [lia|].
      rewrite Hnp in Hnp'. rewrite Hnp'. rewrite <- Hsmall. split; [done|].
      intros i Hi Hxi. by apply Hleast.
Qed.

(** [Z.rem] and [mod] agree on the unsigned. *)
Lemma rem_mod_nonneg a b : 0 <= a → 0 < b → Z.rem a b = a mod b.
Proof. intros Ha Hb. apply Z.rem_mod_nonneg; lia. Qed.

(** The mask path and the modulo path of [ShardIndex] both compute the
    remainder of the hash. *)
Lemma ShardIndex_spec (hash shards : Z) :
  0 <= hash < 2 ^ 64 → 1 <= shards <= MaxInt64 →
  util.ShardIndex hash shards = hash mod shards ∧
  0 <= util.ShardIndex hash shards < shards.
Proof.
  unfold MaxInt64. intros Hh Hs.
  assert (util.ShardIndex hash shards = hash mod shards) as Heq.
  { unfold util.ShardIndex. destruct (Z.leb_spec shards 1) as [Hle|Hgt].
    - assert (shards = 1) as -> by lia. by rewrite Z.mod_1_r.
    - rewrite (wrapu64_id shards) by lia.
      pose proof (Z.mod_pos_bound hash shards) as Hm.
      destruct (util.IsPowerOfTwo shards) eqn:Hpow.
      + apply IsPowerOfTwo_inv in Hpow as (j & Hj & ->); [|lia].
        rewrite (wrap64_id (2 ^ j - 1)) by (unfold MinInt64, MaxInt64; lia).
        rewrite (wrapu64_id (2 ^ j - 1)) by lia.
        replace (2 ^ j - 1) with (Z.ones j) by (rewrite Z.ones_equiv; lia).
        rewrite Z.land_ones by lia.
        apply wrap64_id. unfold MinInt64, MaxInt64. lia.
      + rewrite rem_mod_nonneg by lia.
        apply wrap64_id. unfold MinInt64, MaxInt64. lia. }
  split; [done|]. rewrite Heq. apply Z.mod_pos_bound. lia.
Qed.

(** X5. For a 64-bit hash and a positive shard count, [ShardIndex] is the
    hash modulo the count, on the mask path as on the modulo path; it is
    therefore a valid index.  For a count of at most 1 it is 0. *)
Theorem ShardIndex_mod (hash shards : Z) :
  0 <= hash < 2 ^ 64 → 1 <= shards <= MaxInt64 →
  util.ShardIndex hash shards = hash mod shards ∧
  0 <= util.ShardIndex hash shards < shards.
Proof. apply ShardIndex_spec. Qed.

Lemma ShardIndex_mod_witness :
  util.ShardIndex 1000 6 = 1000 mod 6 ∧ 0 <= util.ShardIndex 1000 6 < 6.
Proof. apply (ShardIndex_mod 1000 6); [lia|unfold MaxInt64; lia]. Defined.

Lemma fnv_step_range h c : 0 <= wrapu64 (Z.lxor h c * util.fnvPrime64) < 2 ^ 64.
Proof. apply wrapu64_range. Qed.

Lemma fnv64aFromBytes_range b : 0 <= util.fnv64aFromBytes b < 2 ^ 64.
Proof.
  unfold util.fnv64aFromBytes.
  assert (0 <= util.fnvOffset64 < 2 ^ 64) as H0 by (unfold util.fnvOffset64; lia).
  revert H0. generalize util.fnvOffset64. induction b as [|c b IH]; intros h Hh.
  - done.
  - simpl. apply IH, fnv_step_range.
Qed.

(** X6. [fnv64aFromUint64(u)] is the FNV hash of the eight bytes of [u]
    taken least significant first, as [fnv64aFromBytes] computes it; both
    hashes are 64-bit values. *)
Theorem fnv64aFromUint64_bytes (u : Z) :
  util.fnv64aFromUint64 u = util.fnv64aFromBytes (util.le_bytes u) ∧
  0 <= util.fnv64aFromUint64 u < 2 ^ 64.
Proof.
  assert (util.fnv64aFromUint64 u = util.fnv64aFromBytes (util.le_bytes u)) as Heq.
  { unfold util.fnv64aFromUint64, util.fnv64aFromBytes, util.le_bytes.
    cbn [util.fnv64aFromUint64_loop fmap list_fmap seq fold_left].
    rewrite !Z.shiftr_shiftr by lia. rewrite Z.shiftr_0_r. reflexivity. }
  split; [done|]. rewrite Heq. apply fnv64aFromBytes_range.
Qed.


(** * The 2Q policy: the ghost queue *)

Section twoq_ghosts.
Context {K : Type} `{Countable K}.
Import policy twoq.
Implicit Types (q : twoQ K) (n p : ptr) (k : K).

Lemma remove_first_length {A} `{EqDecision A} (x : A) (l : list A) :
  (length (remove_first x l) <= length l)%nat.
Proof.
  induction l as [|y l IH]; simpl; [done|].
  destruct (decide (x = y)); simpl; lia.
Qed.

Lemma remove_first_length_in {A} `{EqDecision A} (x : A) (l : list A) :
  x ∈ l → S (length (remove_first x l)) = length l.
Proof.
  induction l as [|y l IH]; simpl.
  - intros Hx. by apply elem_of_nil in Hx.
  - intros Hx. destruct (decide (x = y)) as [|Hne]; [done|].
    simpl. f_equal. apply IH. apply elem_of_cons in Hx as [|]; done.
Qed.

Lemma length_removelast {A} (l : list A) :
  l ≠ [] → S (length (removelast l)) = length l.
Proof.
  intros Hl. destruct (last l) as [x|] eqn:Hlast.
  - apply last_Some_snoc in Hlast as (l' & ->).
    rewrite removelast_snoc, length_app. simpl. lia.
  - apply last_None in Hlast. done.
Qed.

(** The loop of [OnRemove] leaves at most [capGhost] ghosts (none when
    [capGhost] is negative). *)
Lemma trimGhosts_length fuel q :
  (length (ghostList q) <= fuel)%nat →
  Z.of_nat (length (ghostList (trimGhosts fuel q))) <= Z.max 0 (capGhost q) ∧
  capGhost (trimGhosts fuel q) = capGhost q ∧ capIn (trimGhosts fuel q) = capIn q.
Proof.
  revert q. induction fuel as [|fuel IH]; intros q Hlen; simpl.
  - destruct (ghostList q); simpl in *; [lia|lia].
  - destruct (Z.gtb_spec (Z.of_nat (length (ghostList q))) (capGhost q)) as [Hgt|Hle];
      [|lia].
    destruct (last (ghostList q)) as [kk|] eqn:Hlast.
    + assert (ghostList q ≠ []) as Hne by (intros E; by rewrite E in Hlast).
      pose proof (length_removelast _ Hne) as Hrl.
      destruct (IH (set_ghost (removelast (ghostList q)) (ghostIdx q ∖ {[kk]}) q))
        as (Hb & Hcg & Hci); [simpl; lia|].
      simpl in *. done.
    + apply last_None in Hlast. rewrite Hlast. simpl. lia.
Qed.

(** With room for at least one ghost, the loop keeps the ghost at the
    front. *)
Lemma trimGhosts_front fuel q k gl :
  ghostList q = k :: gl → NoDup (ghostList q) → k ∈ ghostIdx q →
  1 <= capGhost q →
  k ∈ ghostIdx (trimGhosts fuel q) ∧
  head (ghostList (trimGhosts fuel q)) = Some k.
Proof.
  revert q gl. induction fuel as [|fuel IH]; intros q gl Hgl Hnd Hk Hcap; simpl.
  - by rewrite Hgl.
  - destruct (Z.gtb_spec (Z.of_nat (length (ghostList q))) (capGhost q)) as [Hgt|Hle];
      [|by rewrite Hgl].
    destruct (last (ghostList q)) as [kk|] eqn:Hlast; [|by rewrite Hgl].
    rewrite Hgl in Hgt, Hlast, Hnd. simpl in Hgt.
    destruct gl as [|k2 gl]; [simpl in Hgt; lia|].
    rewrite last_cons_cons in Hlast.
    apply last_Some_snoc in Hlast as (l' & Hl').
    assert (ghostList q = (k :: l') ++ [kk]) as Hgl2 by (by rewrite Hgl, Hl').
    rewrite Hl' in Hnd. change (NoDup ((k :: l') ++ [kk])) in Hnd.
    apply NoDup_app in Hnd as (Hnd1 & Hdisj & _).
    assert (kk ≠ k) as Hne.
    { intros ->. apply (Hdisj k); [by left|by apply list_elem_of_singleton]. }
    apply (IH _ l').
    + simpl. by rewrite Hgl2, removelast_snoc.
    + simpl. by rewrite Hgl2, removelast_snoc.
    + simpl. apply elem_of_difference. split; [done|].
      intros Hkk%elem_of_singleton. done.
    + done.
Qed.

Section callbacks.
Context {L : Type} `{!Node K L, !Hooks L}.
Implicit Types (l : L).

(** [OnRemove] on a node of A1in: the state [q0] the trimming loop is
    entered with has the key of the node as its first ghost. *)
Lemma OnRemove_in q n k l :
  n ∈ inIdx q → Key n l = Some k →
  ∃ q0,
    ghostList q0 =
      k :: (if decide (k ∈ ghostIdx q) then remove_first k (ghostList q)
            else ghostList q) ∧
    ghostIdx q0 = {[k]} ∪ ghostIdx q ∧
    capGhost q0 = capGhost q ∧
    OnRemove n q l = Some (trimGhosts (length (ghostList q0)) q0, l).
Proof.
  intros Hn HKey.
  exists (set_ghost
            (k :: (if decide (k ∈ ghostIdx q) then remove_first k (ghostList q)
                   else ghostList q))
            ({[k]} ∪ ghostIdx q)
            (set_in (remove_first n (inList q)) (inIdx q ∖ {[n]}) q)).
  split; [done|]. split; [done|]. split; [done|].
  unfold OnRemove. rewrite decide_True by done. rewrite HKey. reflexivity.
Qed.

(** X7. Under the calling discipline of the shard the ghost queue A1out
    never holds more than [capGhost] keys (none if [capGhost] is negative),
    whatever callbacks have run. *)
Theorem twoq_ghosts_bounded (R : gmap ptr K) (q : twoQ K) :
  disciplined (L := L) R q →
  Z.of_nat (length (ghostList q)) <= Z.max 0 (capGhost q).
Proof.
  induction 1 as [pl|R q n k l ev q' l' Hd IH Hn Hk HKey HOn
                 |R q n l q' l' Hd IH Hn HOn
                 |R q n l q' l' Hd IH Hn HOn
                 |R q n k l q' l' Hd IH Hn HKey HOn].
  - simpl. lia.
  - revert HOn. unfold OnAdd. rewrite HKey. simpl.
    destruct (decide (k ∈ ghostIdx q)).
    + destruct (PushFront n l); simpl; [|done]. intros [= <- <- <-]. simpl.
      pose proof (remove_first_length k (ghostList q)). lia.
    + destruct (PushFront n l); simpl; [|done].
      destruct (_ >? _); [destruct (last _)|]; intros [= <- <- <-]; simpl; done.
  - revert HOn. unfold OnGet. destruct (MoveToFront n l); simpl; [|done].
    intros [= <- <-]. by destruct (decide (n ∈ inIdx q)).
  - revert HOn. unfold OnUpdate, OnGet. destruct (MoveToFront n l); simpl; [|done].
    intros [= <- <-]. by destruct (decide (n ∈ inIdx q)).
  - destruct (decide (n ∈ inIdx q)) as [Hin|Hin].
    + destruct (OnRemove_in q n k l Hin HKey) as (q0 & Hgl & _ & Hcg0 & HOn').
      rewrite HOn' in HOn. injection HOn as <- _.
      destruct (trimGhosts_length (length (ghostList q0)) q0) as (Hb & Hcg & _);
        [done|].
      rewrite Hcg. exact Hb.
    + revert HOn. unfold OnRemove. rewrite decide_False by done.
      by intros [= <- <-].
Qed.

(** X8. Second chance.  Let [OnRemove] be called on a node of A1in whose
    key is [k], the policy having room for at least one ghost.  Then [k] is
    the most recent ghost; and an [OnAdd] that follows for a node with key
    [k] removes the ghost, pushes the node to the front of the shard list,
    proposes no eviction and does not enter the node in A1in. *)
Theorem twoq_second_chance (R : gmap ptr K) (q q1 : twoQ K) (n n' : ptr) (k : K)
    (l l1 l2 : L) :
  disciplined (L := L) R q → 1 <= capGhost q →
  n ∈ inIdx q → Key n l = Some k →
  OnRemove n q l = Some (q1, l1) →
  Key n' l2 = Some k →
  head (ghostList q1) = Some k ∧ k ∈ ghostIdx q1 ∧
  OnAdd n' q1 l2 =
    (fun l' => (None,
                set_ghost (remove_first k (ghostList q1)) (ghostIdx q1 ∖ {[k]}) q1,
                l')) <$> PushFront n' l2.
Proof.
  intros Hd Hcap Hn HKey HOn HKey'.
  destruct (disciplined_inv R q Hd) as [Hinv _].
  assert (head (ghostList q1) = Some k ∧ k ∈ ghostIdx q1) as [Hhd Hin].
  { destruct (OnRemove_in q n k l Hn HKey) as (q0 & Hgl & Hgi & Hcg0 & HOn').
    rewrite HOn' in HOn. injection HOn as <- _.
    destruct (trimGhosts_front (length (ghostList q0)) q0 k _ Hgl) as [Hk Hhd].
    - rewrite Hgl. apply NoDup_cons. split.
      + destruct (decide (k ∈ ghostIdx q)) as [Hg|Hg].
        * intros Hk. apply elem_of_remove_first in Hk as [_ Hk]; [done|].
          apply (gh_nodup _ _ Hinv).
        * intros Hk. by apply (gh_idx _ _ Hinv) in Hk.
      + destruct (decide (k ∈ ghostIdx q)).
        * apply NoDup_remove_first, (gh_nodup _ _ Hinv).
        * apply (gh_nodup _ _ Hinv).
    - rewrite Hgi. apply elem_of_union_l. by apply elem_of_singleton.
    - by rewrite Hcg0.
    - done. }
  split; [done|]. split; [done|].
  unfold OnAdd. rewrite HKey'. simpl. rewrite decide_True by done.
  by destruct (PushFront n' l2).
Qed.
End callbacks.
End twoq_ghosts.

Lemma q_in_disciplined :
  @disciplined string _ _ (list nat) samples.listNode samples.listHooks
    (<[0%nat := "a"%string]> ∅) samples.q_in.
Proof.
  eapply (@disc_OnAdd string _ _ (list nat) samples.listNode samples.listHooks
            _ _ 0%nat "a"%string [] None _ [0%nat]).
  - apply (disc_New (twoq.New 1 2)).
  - reflexivity.
  - intros p. by rewrite lookup_empty.
  - reflexivity.
  - vm_compute. reflexivity.
Qed.

Lemma twoq_ghosts_bounded_witness :
  Z.of_nat (length (twoq.ghostList samples.q_in)) <= Z.max 0 (twoq.capGhost samples.q_in).
Proof.
  apply (@twoq_ghosts_bounded string _ _ (list nat) samples.listNode
           samples.listHooks (<[0%nat := "a"%string]> ∅) samples.q_in).
  exact q_in_disciplined.
Defined.

Lemma twoq_second_chance_witness :
  head (twoq.ghostList samples.q_gone) = Some "a"%string ∧
  "a"%string ∈ twoq.ghostIdx samples.q_gone ∧
  twoq.OnAdd (Node0 := samples.listNode) (Hooks0 := samples.listHooks)
      0%nat samples.q_gone [] =
    (fun l' => (None,
                twoq.set_ghost
                  (remove_first "a"%string (twoq.ghostList samples.q_gone))
                  (twoq.ghostIdx samples.q_gone ∖ {["a"%string]}) samples.q_gone,
                l')) <$> policy.PushFront (Hooks := samples.listHooks) 0%nat [].
Proof.
  apply (@twoq_second_chance string _ _ (list nat) samples.listNode
           samples.listHooks (<[0%nat := "a"%string]> ∅) samples.q_in
           samples.q_gone 0%nat 0%nat "a"%string [0%nat] [0%nat] []).
  - exact q_in_disciplined.
  - vm_compute. discriminate.
  - by apply elem_of_singleton.
  - reflexivity.
  - vm_compute. reflexivity.
  - reflexivity.
Defined.


(** * What the operations of a shard do to the entries *)

Section shard_facts.
Context {K V : Type} `{Countable K}.
Import cache.
Local Abbreviation node := (node K V).
Implicit Types (h : gmap ptr node) (l : list ptr) (p n : ptr) (s : shard.t K V).

Lemma stored_Some s k v :
  stored s k = Some v ↔
  ∃ n x, shard.m s !! k = Some n ∧ shard.heap s !! n = Some x ∧ val x = v.
Proof.
  unfold stored. split.
  - destruct (shard.m s !! k) as [n|]; simpl; [|done].
    destruct (shard.heap s !! n) as [x|] eqn:E; simpl; [|done].
    intros [= <-]. by exists n, x.
  - intros (n & x & -> & Hx & <-). simpl. by rewrite Hx.
Qed.

Lemma stored_is_Some s l k :
  wf s l → is_Some (stored s k) ↔ is_Some (shard.m s !! k).
Proof.
  intros Hwf. split.
  - intros [v (n & x & Hm & _)%stored_Some]. by eexists.
  - intros [n Hn]. destruct (wf_resident _ _ _ _ Hwf Hn) as (l1 & l2 & x & _ & Hx & _).
    exists (val x). apply stored_Some. by exists n, x.
Qed.

(** A value [s'] stores for [k'] at a node that [s] held with the same
    payload is stored by [s] as well. *)
Lemma stored_transfer s l s' l' k' v' :
  wf s l → wf s' l' →
  (∀ p, p ∈ l' → key <$> shard.heap s' !! p = Some k' →
        p ∈ l ∧ payload <$> shard.heap s' !! p = payload <$> shard.heap s !! p) →
  stored s' k' = Some v' → stored s k' = Some v'.
Proof.
  intros Hwf Hwf' Hfr (p & x' & Hm & Hx' & Hv)%stored_Some.
  apply (wf_map _ _ Hwf') in Hm as [Hp Hk].
  destruct (Hfr p Hp Hk) as [Hpl Hpay].
  rewrite Hx' in Hpay, Hk. simpl in *.
  destruct (shard.heap s !! p) as [x|] eqn:Hx; [|done]. simpl in Hpay.
  injection Hpay as Hk2 Hv2 _ _. injection Hk as Hk.
  apply stored_Some. exists p, x. split_and!.
  - apply (wf_map _ _ Hwf). split; [done|]. rewrite Hx. simpl. congruence.
  - done.
  - congruence.
Qed.

(** The enforcement of the limits keeps the node at the front when its
    cost alone is within the cost limit. *)
Lemma enforce_keeps_front s0 n l0 x s' :
  wf s0 (n :: l0) → shard.heap s0 !! n = Some x →
  shard.maxCost s0 <= 0 ∨ ncost x <= shard.maxCost s0 →
  shard.enforceLimitsLocked s0 = Some s' →
  ∃ keep x', wf s' (n :: keep) ∧ shard.heap s' !! n = Some x' ∧
             payload x' = payload x ∧ shard.m s' !! key x = Some n.
Proof.
  intros Hwf0 Hx Hmc Hrun.
  destruct (enforceLimitsLocked_spec s0 _ Hwf0)
    as (s1 & keep & capd & Hrun1 & Htake & Hwf1 & _ & Hcapd & Hd & _ & _ & _
        & _ & _ & _ & _ & Hpl).
  assert (s1 = s') as -> by congruence.
  pose proof (wf_cap _ _ Hwf0) as Hcapb.
  assert (∃ keep', keep = n :: keep') as [keep' ->].
  { destruct (Z.to_nat (shard.cap s0)) as [|m] eqn:Hm; [lia|].
    simpl in Htake. destruct keep as [|p keep'].
    - simpl in Htake. exfalso.
      destruct (Z.le_gt_cases (shard.maxCost s0) 0) as [Hle|Hgt].
      + rewrite (Hcapd Hle) in Htake. done.
      + destruct capd as [|p d']; [done|]. injection Htake as <- _.
        specialize (Hd n d' eq_refl). simpl in Hd. unfold node_cost in Hd.
        rewrite Hx in Hd. lia.
    - injection Htake as <- _. by exists keep'. }
  destruct (same_payload_lookup _ _ n x Hpl Hx) as (x' & Hx' & Hxx').
  exists keep', x'. split_and!; try done.
  apply (wf_map _ _ Hwf1). split; [left|]. rewrite Hx'. simpl.
  by rewrite (payload_key _ _ Hxx').
Qed.

(** The nodes the enforcement keeps are nodes it was entered with, with
    their payloads. *)
Lemma enforce_frame s0 l0 s' :
  wf s0 l0 → shard.enforceLimitsLocked s0 = Some s' →
  ∃ keep, wf s' keep ∧ keep `prefix_of` l0 ∧
          same_payload (shard.heap s0) (shard.heap s') ∧
          shard_conf s' = shard_conf s0 ∧
          (Z.of_nat (length l0) <= shard.cap s0 → shard.maxCost s0 <= 0 →
           keep = l0).
Proof.
  intros Hwf0 Hrun.
  destruct (enforceLimitsLocked_spec s0 _ Hwf0)
    as (s1 & keep & capd & Hrun1 & Htake & Hwf1 & _ & Hcapd & _ & _ & _ & Hcap
        & Hmc & Hopt & _ & _ & Hpl).
  assert (s1 = s') as -> by congruence.
  exists keep. split_and!; try done.
  - exists (capd ++ drop (Z.to_nat (shard.cap s0)) l0).
    rewrite app_assoc, <- Htake. by rewrite take_drop.
  - unfold shard_conf. by rewrite Hcap, Hmc, Hopt.
  - intros Hlen Hle. rewrite (Hcapd Hle), app_nil_r in Htake.
    rewrite take_ge in Htake by lia. done.
Qed.

Lemma prefix_elem_of (l1 l2 : list ptr) p : l1 `prefix_of` l2 → p ∈ l1 → p ∈ l2.
Proof. intros [k ->] Hp. apply elem_of_app. by left. Qed.

(** [Set]: the shard keeps its invariant and its limits; no other key
    gains or changes a value; and when the cost of the entry is within
    the cost limit, the entry is stored as given. *)
Lemma Set_facts s k v ttl c s' :
  inv s → 0 <= c <= MaxInt32 →
  shard.Set_ k v ttl c s = Some s' →
  inv s' ∧ shard_conf s' = shard_conf s ∧
  (∀ k' v', k' ≠ k → stored s' k' = Some v' → stored s k' = Some v') ∧
  (shard.maxCost s <= 0 ∨ c <= shard.maxCost s →
   ∃ n x, shard.m s' !! k = Some n ∧ shard.heap s' !! n = Some x ∧
          payload x = (k, v, ttl, c)).
Proof.
  intros Hinv Hc Hset.
  assert (inv s') as Hinv'.
  { destruct (Set_inv s k v ttl c Hinv Hc) as (s2 & Hset2 & Hinv2). congruence. }
  destruct Hinv as (l & Hwf & Hlen & Hcost).
  assert (∃ s0 n l0 x,
            wf s0 (n :: l0) ∧ shard.enforceLimitsLocked s0 = Some s' ∧
            shard.heap s0 !! n = Some x ∧ payload x = (k, v, ttl, c) ∧
            (∀ p, p ∈ l0 → p ≠ n ∧ p ∈ l ∧
                  payload <$> shard.heap s0 !! p = payload <$> shard.heap s !! p) ∧
            shard_conf s0 = shard_conf s)
    as (s0 & n & l0 & x & Hwf0 & Hen & Hx & Hpx & Hfr & Hconf).
  { destruct (shard.m s !! k) as [n|] eqn:Hk.
    - destruct (wf_resident _ _ _ _ Hwf Hk) as (l1 & l2 & x & -> & Hx & Hkx).
      destruct (update_spec s l1 n l2 k v ttl c Hwf Hk Hc Hlen)
        as (s0 & Hwf0 & Hrun & (x0 & Hx0 & Hpx0) & Hpl & _ & _ & Hcap & Hmc & Hopt & _).
      exists s0, n, (l1 ++ l2), x0. split_and!; try done.
      + congruence.
      + intros p Hp.
        destruct (NoDup_mid_notin l1 l2 n) as [Hnot _].
        { by destruct (wf_dll _ _ Hwf) as (_ & _ & _ & Hnd). }
        assert (p ≠ n) as Hpn by (intros ->; done).
        split_and!; [done|apply elem_of_mid; by right|by apply Hpl].
      + unfold shard_conf. by rewrite Hcap, Hmc, Hopt.
    - unfold shard.Set_ in Hset. rewrite Hk in Hset.
      destruct (insertNew_spec s l k v ttl c Hwf Hlen Hk Hc)
        as (n & s0 & la & nom & lb & Hl & Hnom & Hn & Hwf0 & Hrun & (x0 & Hx0 & Hpx0)
            & Hpl & _ & _ & Hcap & Hmc & Hopt & _).
      exists s0, n, (la ++ lb), x0. split_and!; try done.
      + congruence.
      + intros p Hp.
        assert (p ∈ l) as Hpl0.
        { rewrite Hl. apply elem_of_app in Hp as [Hp|Hp].
          - apply elem_of_app. by left.
          - apply elem_of_app. right. apply elem_of_app. by right. }
        assert (p ≠ n) as Hpn by (intros ->; done).
        split_and!; [done|done|by apply Hpl].
      + unfold shard_conf. by rewrite Hcap, Hmc, Hopt. }
  destruct (enforce_frame s0 _ s' Hwf0 Hen) as (keep & Hwf' & Hpre & Hpl' & Hconf' & _).
  split; [done|]. split; [congruence|]. split.
  - intros k' v' Hk'. apply (stored_transfer s l s' keep); [done|done|].
    intros p Hp Hkey. apply (prefix_elem_of _ _ _ Hpre) in Hp.
    apply elem_of_cons in Hp as [->|Hp].
    + exfalso. rewrite (same_payload_key _ _ n Hpl'), Hx in Hkey. simpl in Hkey.
      rewrite (payload_key x (mkNode k v None None ttl c)) in Hkey by done.
      simpl in Hkey. congruence.
    + destruct (Hfr p Hp) as (_ & Hpl0 & Hpay). split; [done|].
      by rewrite Hpl'.
  - intros Hmc.
    destruct (enforce_keeps_front s0 n l0 x s' Hwf0 Hx) as (keep' & x' & _ & Hx' & Hxx' & Hm);
      [|done|].
    + assert (shard.maxCost s0 = shard.maxCost s) as -> by (by injection Hconf).
      by rewrite (payload_ncost x (mkNode k v None None ttl c)).
    + exists n, x'. split_and!; try done.
      * by rewrite (payload_key x (mkNode k v None None ttl c)) in Hm.
      * by rewrite Hxx'.
Qed.

Lemma stored_same_payload s s' k :
  same_payload (shard.heap s) (shard.heap s') →
  shard.m s' !! k = shard.m s !! k → stored s' k = stored s k.
Proof.
  intros Hpl Hm. unfold stored. rewrite Hm.
  destruct (shard.m s !! k) as [p|]; simpl; [|done].
  specialize (Hpl p).
  destruct (shard.heap s' !! p) as [x'|], (shard.heap s !! p) as [x|];
    simpl in *; try done.
  injection Hpl as _ Hv _ _. by rewrite Hv.
Qed.

Lemma stored_None s k : shard.m s !! k = None → stored s k = None.
Proof. intros Hm. unfold stored. by rewrite Hm. Qed.

(** [Add]: it returns false exactly when the key is present, and then
    changes nothing; otherwise it does what [Set] does. *)
Lemma Add_facts s k v ttl c r s' :
  inv s → 0 <= c <= MaxInt32 →
  shard.Add k v ttl c s = Some (r, s') →
  inv s' ∧ shard_conf s' = shard_conf s ∧
  (r = false ↔ is_Some (shard.m s !! k)) ∧ (r = false → s' = s) ∧
  (∀ k' v', k' ≠ k → stored s' k' = Some v' → stored s k' = Some v') ∧
  (r = true → shard.maxCost s <= 0 ∨ c <= shard.maxCost s →
   ∃ n x, shard.m s' !! k = Some n ∧ shard.heap s' !! n = Some x ∧
          payload x = (k, v, ttl, c)).
Proof.
  intros Hinv Hc. unfold shard.Add.
  destruct (shard.m s !! k) as [n|] eqn:Hk.
  - intros [= <- <-]. split_and!; try done.
  - destruct (shard.insertNew k v ttl c s) as [s1|] eqn:Hins; simpl; [|done].
    intros [= <- <-].
    assert (shard.Set_ k v ttl c s = Some s1) as Hset.
    { unfold shard.Set_. by rewrite Hk. }
    destruct (Set_facts s k v ttl c s1 Hinv Hc Hset) as (Hinv' & Hconf & Hfr & Hst).
    split_and!; try done.
Qed.

(** [Get]: the shard keeps its invariant and its limits, and no key gains
    or changes a value.  A key that is absent or expired gives a miss and
    is absent afterwards; otherwise the value stored is returned and stays
    stored. *)
Lemma Get_facts s now k r s' :
  inv s → shard.Get now k s = Some (r, s') →
  inv s' ∧ shard_conf s' = shard_conf s ∧
  (∀ k' v', stored s' k' = Some v' → stored s k' = Some v') ∧
  match shard.m s !! k with
  | None => r = None ∧ shard.m s' !! k = None
  | Some n =>
      ∃ x, shard.heap s !! n = Some x ∧
           if shard.expiredLocked now x
           then r = None ∧ shard.m s' !! k = None
           else r = Some (val x) ∧ stored s' k = Some (val x)
  end.
Proof.
  intros Hinv Hget.
  assert (inv s') as Hinv'.
  { destruct (Get_inv s now k Hinv) as (r2 & s2 & Hget2 & Hinv2). congruence. }
  split; [done|]. destruct Hinv as (l & Hwf & Hlen & Hcost).
  revert Hget. unfold shard.Get.
  destruct (shard.m s !! k) as [n|] eqn:Hk.
  - destruct (wf_resident _ _ _ _ Hwf Hk) as (l1 & l2 & x & -> & Hx & Hkx).
    rewrite Hx. simpl. destruct (shard.expiredLocked now x) eqn:Hexp.
    + destruct (evictNode_spec s l1 n l2 EvictTTL Hwf)
        as (s1 & x1 & Hx1 & Hev & Hwf1 & _ & Hm1 & _ & _ & Hcap & Hmc & Hopt & _ & _
            & _ & Hpl).
      rewrite Hev. simpl. intros [= <- <-]. split_and!.
      * unfold shard_conf. simpl. by rewrite Hcap, Hmc, Hopt.
      * intros k' v' (p & y & Hm & Hy & Hv)%stored_Some. simpl in Hm, Hy.
        rewrite Hm1 in Hm. apply lookup_delete_Some in Hm as [_ Hm].
        destruct (same_payload_lookup _ _ p y (same_payload_sym _ _ Hpl) Hy)
          as (y0 & Hy0 & Hyy).
        apply stored_Some. exists p, y0. split_and!; try done.
        rewrite <- Hv. by apply payload_val.
      * exists x. split; [done|]. rewrite Hexp. split; [done|]. simpl.
        rewrite Hm1. assert (x1 = x) as -> by congruence. rewrite Hkx.
        apply lookup_delete_eq.
    + destruct (promote_spec shard.pol_OnGet s l1 n l2 (or_introl eq_refl) Hwf)
        as (s1 & Hrun & Hwf1 & Hpl & Hm1 & Hcap & Hmc & Hopt & _).
      rewrite Hrun. simpl.
      destruct (same_payload_lookup _ _ n x Hpl Hx) as (x1 & Hx1 & Hxx).
      rewrite Hx1. simpl. intros [= <- <-]. split_and!.
      * unfold shard_conf. simpl. by rewrite Hcap, Hmc, Hopt.
      * intros k' v' Hst.
        rewrite <- (stored_same_payload s s1 k' Hpl) by (by rewrite Hm1). exact Hst.
      * exists x. split; [done|]. rewrite Hexp.
        split; [by rewrite (payload_val _ _ Hxx)|].
        apply stored_Some. exists n, x1. simpl. split_and!; try done.
        -- by rewrite Hm1.
        -- by apply payload_val.
  - intros [= <- <-]. split_and!; try done.
Qed.

(** [Remove]: it returns true exactly when the key was present; the key
    is absent afterwards; no key gains or changes a value; and a call for
    an absent key changes nothing. *)
Lemma Remove_facts s k r s' :
  inv s → shard.Remove k s = Some (r, s') →
  inv s' ∧ shard_conf s' = shard_conf s ∧
  (r = true ↔ is_Some (shard.m s !! k)) ∧ (r = false → s' = s) ∧
  shard.m s' !! k = None ∧
  (∀ k' v', stored s' k' = Some v' → k' ≠ k ∧ stored s k' = Some v').
Proof.
  intros Hinv Hrem.
  assert (inv s') as Hinv'.
  { destruct (Remove_inv s k Hinv) as (r2 & s2 & Hrem2 & Hinv2). congruence. }
  split; [done|]. destruct Hinv as (l & Hwf & Hlen & Hcost).
  revert Hrem. unfold shard.Remove.
  destruct (shard.m s !! k) as [n|] eqn:Hk.
  - destruct (wf_resident _ _ _ _ Hwf Hk) as (l1 & l2 & x & -> & Hx & Hkx).
    destruct (unlink_spec s l1 n l2 Hwf)
      as (s1 & s2 & x0 & Hrun1 & Hrun2 & Hx0 & _ & _ & Hm2 & _ & Hcap & Hmc & Hopt
          & _ & _ & _ & _ & _ & Hpl).
    rewrite Hrun1. simpl. rewrite Hrun2. simpl. intros [= <- <-]. split_and!.
    + unfold shard_conf. simpl. by rewrite Hcap, Hmc, Hopt.
    + split; [by eexists|done].
    + done.
    + simpl. apply lookup_delete_eq.
    + intros k' v' (p & y & Hm & Hy & Hv)%stored_Some. simpl in Hm, Hy.
      apply lookup_delete_Some in Hm as [Hne Hm]. split; [done|].
      rewrite Hm2 in Hm.
      destruct (same_payload_lookup _ _ p y (same_payload_sym _ _ Hpl) Hy)
        as (y0 & Hy0 & Hyy).
      apply stored_Some. exists p, y0. split_and!; try done.
      rewrite <- Hv. by apply payload_val.
  - intros [= <- <-]. split_and!; try done.
    intros k' v' Hst. split; [|done]. intros ->.
      by rewrite (stored_None s k Hk) in Hst.
Qed.
End shard_facts.


(** * The operations of the cache, shard by shard *)

Section cache_steps.
Context {K V : Type} `{Countable K} `{!util.Fnv64aKey K}.
Import cache.
Implicit Types (c : cache.t K V) (s : shard.t K V) (o : Options K V).

(** An operation of an open cache is the operation of the shard of its
    key, put back in place. *)
Lemma Add_steps now k v c r c' :
  shards_inv c → cache.Add now k v c = Some (r, c') →
  (closed c = true ∧ r = false ∧ c' = c) ∨
  (closed c = false ∧
   ∃ s s', cache.getShard k c = Some s ∧ inv s ∧
           shard.Add k v (cache.defaultDeadline now c) (cache.costOf v c) s
             = Some (r, s') ∧
           c' = cache.putShard k s' c).
Proof.
  intros Hc. unfold cache.Add. destruct (closed c); [intros [= <- <-]; by left|].
  destruct (getShard_Some k c Hc) as (s & Hs & Hinv). rewrite Hs. simpl.
  destruct (shard.Add k v _ _ s) as [[r0 s']|] eqn:Hop; simpl; [|done].
  intros [= <- <-]. right. split; [done|]. by exists s, s'.
Qed.

Lemma Set_steps now k v c c' :
  shards_inv c → cache.Set_ now k v c = Some c' →
  (closed c = true ∧ c' = c) ∨
  (closed c = false ∧
   ∃ s s', cache.getShard k c = Some s ∧ inv s ∧
           shard.Set_ k v (cache.defaultDeadline now c) (cache.costOf v c) s
             = Some s' ∧
           c' = cache.putShard k s' c).
Proof.
  intros Hc. unfold cache.Set_. destruct (closed c); [intros [= <-]; by left|].
  destruct (getShard_Some k c Hc) as (s & Hs & Hinv). rewrite Hs. simpl.
  destruct (shard.Set_ k v _ _ s) as [s'|] eqn:Hop; simpl; [|done].
  intros [= <-]. right. split; [done|]. by exists s, s'.
Qed.

Lemma SetWithTTL_steps now k v ttl c c' :
  shards_inv c → cache.SetWithTTL now k v ttl c = Some c' →
  (closed c = true ∧ c' = c) ∨
  (closed c = false ∧
   ∃ s s', cache.getShard k c = Some s ∧ inv s ∧
           shard.Set_ k v (cache.deadline now ttl) (cache.costOf v c) s = Some s' ∧
           c' = cache.putShard k s' c).
Proof.
  intros Hc. unfold cache.SetWithTTL. destruct (closed c); [intros [= <-]; by left|].
  destruct (getShard_Some k c Hc) as (s & Hs & Hinv). rewrite Hs. simpl.
  destruct (shard.Set_ k v _ _ s) as [s'|] eqn:Hop; simpl; [|done].
  intros [= <-]. right. split; [done|]. by exists s, s'.
Qed.

Lemma Get_steps now k c r c' :
  shards_inv c → cache.Get now k c = Some (r, c') →
  (closed c = true ∧ r = None ∧ c' = c) ∨
  (closed c = false ∧
   ∃ s s', cache.getShard k c = Some s ∧ inv s ∧
           shard.Get now k s = Some (r, s') ∧ c' = cache.putShard k s' c).
Proof.
  intros Hc. unfold cache.Get. destruct (closed c); [intros [= <- <-]; by left|].
  destruct (getShard_Some k c Hc) as (s & Hs & Hinv). rewrite Hs. simpl.
  destruct (shard.Get now k s) as [[r0 s']|] eqn:Hop; simpl; [|done].
  intros [= <- <-]. right. split; [done|]. by exists s, s'.
Qed.

Lemma Remove_steps k c r c' :
  shards_inv c → cache.Remove k c = Some (r, c') →
  (closed c = true ∧ r = false ∧ c' = c) ∨
  (closed c = false ∧
   ∃ s s', cache.getShard k c = Some s ∧ inv s ∧
           shard.Remove k s = Some (r, s') ∧ c' = cache.putShard k s' c).
Proof.
  intros Hc. unfold cache.Remove. destruct (closed c); [intros [= <- <-]; by left|].
  destruct (getShard_Some k c Hc) as (s & Hs & Hinv). rewrite Hs. simpl.
  destruct (shard.Remove k s) as [[r0 s']|] eqn:Hop; simpl; [|done].
  intros [= <- <-]. right. split; [done|]. by exists s, s'.
Qed.

(** ** Putting a shard back *)

Lemma putShard_id k s c : cache.getShard k c = Some s → cache.putShard k s c = c.
Proof.
  unfold cache.getShard, cache.putShard.
  destruct (cache.shard_index k c <? 0); [done|]. intros Hs.
  rewrite list_insert_id by done. by destruct c.
Qed.

Lemma putShard_fields k s c :
  closed (cache.putShard k s c) = closed c ∧
  opt (cache.putShard k s c) = opt c ∧ sf (cache.putShard k s c) = sf c ∧
  length (shards (cache.putShard k s c)) = length (shards c).
Proof. unfold cache.putShard. simpl. by rewrite length_insert. Qed.

Lemma cache_stored_putShard k s0 s c :
  cache.getShard k c = Some s0 → cache_stored (cache.putShard k s c) k = stored s k.
Proof.
  intros Hs0. unfold cache_stored. by rewrite (getShard_putShard k s s0 c Hs0).
Qed.

(** The shard of another key is the shard put back, or it is untouched. *)
Lemma getShard_putShard_other k k' s0 s c :
  cache.getShard k c = Some s0 →
  (cache.getShard k' c = Some s0 ∧ cache.getShard k' (cache.putShard k s c) = Some s) ∨
  cache.getShard k' (cache.putShard k s c) = cache.getShard k' c.
Proof.
  unfold cache.getShard. rewrite shard_index_putShard.
  destruct (Z.ltb_spec (cache.shard_index k c) 0) as [|Hk]; [done|].
  destruct (Z.ltb_spec (cache.shard_index k' c) 0) as [|Hk']; [by right|].
  intros Hs0. unfold cache.putShard. simpl.
  destruct (decide (Z.to_nat (cache.shard_index k c) = Z.to_nat (cache.shard_index k' c)))
    as [Heq|Hne].
  - left. rewrite <- Heq. split; [done|].
    apply list_lookup_insert_eq. by eapply lookup_lt_Some.
  - right. by apply list_lookup_insert_ne.
Qed.

Lemma putShard_frame k k' s0 s c (v' : V) :
  cache.getShard k c = Some s0 →
  (stored s k' = Some v' → stored s0 k' = Some v') →
  cache_stored (cache.putShard k s c) k' = Some v' → cache_stored c k' = Some v'.
Proof.
  intros Hs0 Hfr. unfold cache_stored.
  destruct (getShard_putShard_other k k' s0 s c Hs0) as [[-> ->]| ->]; [|done].
  simpl. exact Hfr.
Qed.

Lemma putShard_conf k s0 s c :
  cache.getShard k c = Some s0 → shard_conf s = shard_conf s0 →
  shard_conf <$> shards (cache.putShard k s c) = shard_conf <$> shards c.
Proof.
  unfold cache.getShard, cache.putShard.
  destruct (cache.shard_index k c <? 0); [done|]. intros Hs0 Hconf. simpl.
  rewrite list_fmap_insert. apply list_insert_id.
  by rewrite list_lookup_fmap, Hs0, Hconf.
Qed.

Lemma cache_stored_set_sf X c k : cache_stored (cache.set_sf X c) k = cache_stored c k.
Proof. done. Qed.

Lemma Set_set_sf X now k v c :
  cache.Set_ now k v (cache.set_sf X c) = cache.set_sf X <$> cache.Set_ now k v c.
Proof.
  unfold cache.Set_. rewrite getShard_set_sf.
  change (closed (cache.set_sf X c)) with (closed c).
  destruct (closed c); [done|].
  destruct (cache.getShard k c) as [s|]; [|done]. simpl.
  change (cache.defaultDeadline now (cache.set_sf X c))
    with (cache.defaultDeadline now c).
  change (cache.costOf v (cache.set_sf X c)) with (cache.costOf v c).
  by destruct (shard.Set_ k v _ _ s) as [s'|].
Qed.

Lemma set_sf_set_sf X Y c : cache.set_sf X (cache.set_sf Y c) = cache.set_sf X c.
Proof. done. Qed.

(** ** [GetOrLoad], step by step

    With no load in flight, [GetOrLoad] is a [Get]; on a miss with a loader
    configured, another [Get]; and on a second miss the loader, followed by
    a [Set] when it succeeds. *)
Lemma GetOrLoad_steps now1 now2 now3 k c r c' :
  cache_inv c → cache.GetOrLoad now1 now2 now3 k c = Some (r, c') →
  ∃ r1 c1,
    cache.Get now1 k c = Some (r1, c1) ∧
    match r1, Loader (opt c) with
    | Some v, _ => r = inl v ∧ c' = c1
    | None, None => r = inr ErrNoLoader ∧ c' = c1
    | None, Some load =>
        ∃ r2 c2,
          cache.Get now2 k c1 = Some (r2, c2) ∧
          match r2, load k with
          | Some v, _ => r = inl v ∧ c' = c2
          | None, inr e => r = inr e ∧ c' = c2
          | None, inl v => r = inl v ∧ cache.Set_ now3 k v c2 = Some c'
          end
    end.
Proof.
  intros [Hc Hsf]. unfold cache.GetOrLoad.
  destruct (Get_shards_inv now1 k c Hc) as (r1 & c1 & Hget1 & Hc1 & Hsf1 & Hopt1).
  rewrite Hget1. simpl. rewrite Hopt1. intros Hrun.
  exists r1, c1. split; [done|].
  destruct r1 as [v|]; [by injection Hrun as <- <-|].
  destruct (Loader (opt c)) as [load|]; [|by injection Hrun as <- <-].
  revert Hrun. unfold singleflight.Do. rewrite Hsf1, Hsf.
  rewrite decide_False by apply not_elem_of_empty.
  rewrite Get_set_sf.
  destruct (Get_shards_inv now2 k c1 Hc1) as (r2 & c2 & Hget2 & Hc2 & Hsf2 & Hopt2).
  rewrite Hget2. simpl. intros Hrun. exists r2, c2. split; [done|].
  assert (cache.set_sf ∅ c2 = c2) as Hid2.
  { rewrite <- (set_sf_id c2) at 2. by rewrite Hsf2, Hsf1, Hsf. }
  destruct r2 as [v|]; simpl in Hrun.
  { injection Hrun as <- <-. by rewrite flight_over. }
  destruct (load k) as [v|e]; simpl in Hrun.
  - rewrite Set_set_sf in Hrun.
    destruct (Set_shards_inv now3 k v c2 Hc2) as (c3 & Hset & Hc3 & Hsf3 & Hopt3).
    rewrite Hset in Hrun. simpl in Hrun. injection Hrun as <- <-.
    split; [done|]. rewrite Hset. f_equal. rewrite flight_over.
    rewrite <- (set_sf_id c3) at 1. by rewrite Hsf3, Hsf2, Hsf1, Hsf.
  - injection Hrun as <- <-. by rewrite flight_over.
Qed.
End cache_steps.


(** * What every operation of the cache keeps *)

Section cache_keeps.
Context {K V : Type} `{Countable K} `{!util.Fnv64aKey K}.
Import cache.
Implicit Types (c : cache.t K V) (s : shard.t K V) (o : Options K V).

Lemma same_static_refl c : same_static c c.
Proof. done. Qed.

Lemma same_static_trans c1 c2 c3 :
  same_static c1 c2 → same_static c2 c3 → same_static c1 c3.
Proof. intros [? ?] [? ?]. split; congruence. Qed.

Lemma put_keeps k s s' c :
  shards_inv c → cache.getShard k c = Some s → inv s' →
  shard_conf s' = shard_conf s →
  shards_inv (cache.putShard k s' c) ∧ same_static c (cache.putShard k s' c) ∧
  sf (cache.putShard k s' c) = sf c ∧ closed (cache.putShard k s' c) = closed c.
Proof.
  intros Hc Hs Hinv Hconf. split_and!; try done.
  - by apply putShard_inv.
  - split; [done|]. by apply (putShard_conf k s).
Qed.

Lemma keeps_refl c : shards_inv c → keeps c c.
Proof. intros Hc. by split_and!. Qed.

Lemma keeps_trans c1 c2 c3 : keeps c1 c2 → keeps c2 c3 → keeps c1 c3.
Proof.
  intros (? & Hs1 & ? & ?) (? & Hs2 & ? & ?). split_and!; try congruence.
  by eapply same_static_trans.
Qed.

Lemma Add_keeps now k v c r c' :
  shards_inv c → cache.Add now k v c = Some (r, c') →
  keeps c c' ∧
  (∀ k' v', k' ≠ k → cache_stored c' k' = Some v' → cache_stored c k' = Some v').
Proof.
  intros Hc Hop.
  destruct (Add_steps now k v c r c' Hc Hop)
    as [(_ & _ & ->)|(Hcl & s & s' & Hs & Hinv & Hsop & ->)].
  { split; [by apply keeps_refl|done]. }
  destruct (Add_facts s k v _ _ r s' Hinv (costOf_range v c) Hsop)
    as (Hinv' & Hconf & _ & _ & Hfr & _).
  split; [by apply (put_keeps k s)|].
  intros k' v' Hne. apply (putShard_frame k k' s); [done|]. by apply Hfr.
Qed.

Lemma Set_keeps now k v c c' :
  shards_inv c → cache.Set_ now k v c = Some c' →
  keeps c c' ∧
  (∀ k' v', k' ≠ k → cache_stored c' k' = Some v' → cache_stored c k' = Some v').
Proof.
  intros Hc Hop.
  destruct (Set_steps now k v c c' Hc Hop)
    as [(_ & ->)|(Hcl & s & s' & Hs & Hinv & Hsop & ->)].
  { split; [by apply keeps_refl|done]. }
  destruct (Set_facts s k v _ _ s' Hinv (costOf_range v c) Hsop)
    as (Hinv' & Hconf & Hfr & _).
  split; [by apply (put_keeps k s)|].
  intros k' v' Hne. apply (putShard_frame k k' s); [done|]. by apply Hfr.
Qed.

Lemma SetWithTTL_keeps now k v ttl c c' :
  shards_inv c → cache.SetWithTTL now k v ttl c = Some c' →
  keeps c c' ∧
  (∀ k' v', k' ≠ k → cache_stored c' k' = Some v' → cache_stored c k' = Some v').
Proof.
  intros Hc Hop.
  destruct (SetWithTTL_steps now k v ttl c c' Hc Hop)
    as [(_ & ->)|(Hcl & s & s' & Hs & Hinv & Hsop & ->)].
  { split; [by apply keeps_refl|done]. }
  destruct (Set_facts s k v _ _ s' Hinv (costOf_range v c) Hsop)
    as (Hinv' & Hconf & Hfr & _).
  split; [by apply (put_keeps k s)|].
  intros k' v' Hne. apply (putShard_frame k k' s); [done|]. by apply Hfr.
Qed.

Lemma Get_keeps now k c r c' :
  shards_inv c → cache.Get now k c = Some (r, c') →
  keeps c c' ∧
  (∀ k' v', cache_stored c' k' = Some v' → cache_stored c k' = Some v').
Proof.
  intros Hc Hop.
  destruct (Get_steps now k c r c' Hc Hop)
    as [(_ & _ & ->)|(Hcl & s & s' & Hs & Hinv & Hsop & ->)].
  { split; [by apply keeps_refl|done]. }
  destruct (Get_facts s now k r s' Hinv Hsop) as (Hinv' & Hconf & Hfr & _).
  split; [by apply (put_keeps k s)|].
  intros k' v'. apply (putShard_frame k k' s); [done|]. by apply Hfr.
Qed.

Lemma Remove_keeps k c r c' :
  shards_inv c → cache.Remove k c = Some (r, c') →
  keeps c c' ∧
  (∀ k' v', cache_stored c' k' = Some v' → cache_stored c k' = Some v').
Proof.
  intros Hc Hop.
  destruct (Remove_steps k c r c' Hc Hop)
    as [(_ & _ & ->)|(Hcl & s & s' & Hs & Hinv & Hsop & ->)].
  { split; [by apply keeps_refl|done]. }
  destruct (Remove_facts s k r s' Hinv Hsop) as (Hinv' & Hconf & _ & _ & _ & Hfr).
  split; [by apply (put_keeps k s)|].
  intros k' v'. apply (putShard_frame k k' s); [done|]. intros Hst.
  by destruct (Hfr k' v' Hst).
Qed.

Lemma GetOrLoad_keeps now1 now2 now3 k c r c' :
  cache_inv c → cache.GetOrLoad now1 now2 now3 k c = Some (r, c') →
  keeps c c' ∧
  (∀ k' v', k' ≠ k → cache_stored c' k' = Some v' → cache_stored c k' = Some v').
Proof.
  intros Hci Hop. pose proof Hci as [Hc Hsf].
  destruct (GetOrLoad_steps now1 now2 now3 k c r c' Hci Hop)
    as (r1 & c1 & Hget1 & Hrest).
  destruct (Get_keeps now1 k c r1 c1 Hc Hget1) as (Hk1 & Hfr1).
  destruct r1 as [v|].
  { destruct Hrest as [_ ->]. split; [done|]. intros k' v' _. apply Hfr1. }
  destruct (Loader (opt c)) as [load|].
  2: { destruct Hrest as [_ ->]. split; [done|]. intros k' v' _. apply Hfr1. }
  destruct Hrest as (r2 & c2 & Hget2 & Hrest).
  pose proof Hk1 as (Hc1 & _).
  destruct (Get_keeps now2 k c1 r2 c2 Hc1 Hget2) as (Hk2 & Hfr2).
  assert (keeps c c2) as Hk12 by by eapply keeps_trans.
  destruct r2 as [v|].
  { destruct Hrest as [_ ->]. split; [done|]. intros k' v' _ Hst. by apply Hfr1, Hfr2. }
  destruct (load k) as [v|e].
  - destruct Hrest as [_ Hset]. pose proof Hk2 as (Hc2 & _).
    destruct (Set_keeps now3 k v c2 c' Hc2 Hset) as (Hk3 & Hfr3).
    split; [by eapply keeps_trans|].
    intros k' v' Hne Hst. by apply Hfr1, Hfr2, Hfr3.
  - destruct Hrest as [_ ->]. split; [done|]. intros k' v' _ Hst. by apply Hfr1, Hfr2.
Qed.

(** Every operation keeps the invariant of the cache and its static part,
    never reopens a closed cache, and gives no value to a key it was not
    called for. *)
Lemma run_op_keeps (x : op K V) c c' :
  cache_inv c → cache.run_op x c = Some c' →
  cache_inv c' ∧ same_static c c' ∧ (closed c = true → closed c' = true) ∧
  (∀ k' v', op_key x ≠ Some k' →
            cache_stored c' k' = Some v' → cache_stored c k' = Some v').
Proof.
  intros Hci. pose proof Hci as [Hc Hsf]. destruct x; simpl.
  - destruct (cache.Add now k v c) as [[r c1]|] eqn:Hop; simpl; [|done].
    intros [= <-]. destruct (Add_keeps now k v c r c1 Hc Hop) as ((? & ? & ? & ?) & Hfr).
    split_and!; try done; try congruence.
    + split; [done|congruence].
    + intros k' v' Hne. apply Hfr. congruence.
  - intros Hop. destruct (Set_keeps now k v c c' Hc Hop) as ((? & ? & ? & ?) & Hfr).
    split_and!; try done; try congruence.
    + split; [done|congruence].
    + intros k' v' Hne. apply Hfr. congruence.
  - intros Hop.
    destruct (SetWithTTL_keeps now k v ttl c c' Hc Hop) as ((? & ? & ? & ?) & Hfr).
    split_and!; try done; try congruence.
    + split; [done|congruence].
    + intros k' v' Hne. apply Hfr. congruence.
  - destruct (cache.Get now k c) as [[r c1]|] eqn:Hop; simpl; [|done].
    intros [= <-]. destruct (Get_keeps now k c r c1 Hc Hop) as ((? & ? & ? & ?) & Hfr).
    split_and!; try done; try congruence.
    + split; [done|congruence].
    + intros k' v' Hne. apply Hfr.
  - destruct (cache.Remove k c) as [[r c1]|] eqn:Hop; simpl; [|done].
    intros [= <-]. destruct (Remove_keeps k c r c1 Hc Hop) as ((? & ? & ? & ?) & Hfr).
    split_and!; try done; try congruence.
    + split; [done|congruence].
    + intros k' v' Hne. apply Hfr.
  - destruct (cache.GetOrLoad now1 now2 now3 k c) as [[r c1]|] eqn:Hop; simpl; [|done].
    intros [= <-].
    destruct (GetOrLoad_keeps now1 now2 now3 k c r c1 Hci Hop)
      as ((? & ? & ? & ?) & Hfr).
    split_and!; try done; try congruence.
    + split; [done|congruence].
    + intros k' v' Hne. apply Hfr. congruence.
  - intros [= <-]. split_and!; try done.
Qed.

Lemma run_keeps (ops : list (op K V)) c c' :
  cache_inv c → cache.run ops c = Some c' →
  cache_inv c' ∧ same_static c c' ∧ (closed c = true → closed c' = true).
Proof.
  revert c. induction ops as [|x ops IH]; intros c Hc; simpl.
  - intros [= <-]. by split_and!.
  - destruct (cache.run_op x c) as [c1|] eqn:Hop; simpl; [|done]. intros Hrun.
    destruct (run_op_keeps x c c1 Hc Hop) as (Hc1 & Hs1 & Hcl1 & _).
    destruct (IH c1 Hc1 Hrun) as (Hc' & Hs' & Hcl').
    split_and!; [done|by eapply same_static_trans|auto].
Qed.

(** A reachable cache satisfies the invariant, has the options it was
    built with, and every shard has the limits [New] gave it. *)
Lemma reachable_inv o c :
  reachable o c →
  cache_inv c ∧ opt c = o ∧
  ∃ j, 0 <= j <= 62 ∧ Z.of_nat (length (shards c)) = 2 ^ j ∧
       Forall (fun s => shard.cap s = (Capacity o + 2 ^ j - 1) / 2 ^ j ∧
                        shard.opt s = o)
              (shards c).
Proof.
  intros (procs & c0 & ops & Hnew & Hcap & Hrun).
  pose proof (New_inv procs o c0 Hnew Hcap) as Hc0.
  destruct (run_keeps ops c0 c Hc0 Hrun) as (Hc & [Hopt Hconf] & _).
  split; [done|].
  revert Hnew. unfold cache.New.
  destruct (Z.leb_spec (Capacity o) 0) as [|Hpos]; [done|].
  destruct (makeslice_panics 8 (cache.shard_count procs o)) eqn:Hmk; [done|].
  apply makeslice_panics_false in Hmk as [Hsh Hmem].
  intros [= <-]. simpl in *. split; [done|].
  destruct (shard_count_pow2 procs o Hsh) as (j & Hj & Hs). rewrite Hs in *.
  assert (2 ^ j <= 2 ^ 62) by (apply Z.pow_le_mono_r; lia).
  assert (0 < 2 ^ j) by (apply Z.pow_pos_nonneg; lia).
  exists j. split; [done|]. split.
  - rewrite <- (length_fmap shard_conf), Hconf, length_fmap, length_replicate. lia.
  - apply Forall_forall. intros s Hs'.
    assert (shard_conf s ∈ shard_conf <$> shards c) as Hin
        by (by apply list_elem_of_fmap_2).
    rewrite Hconf in Hin.
    apply list_elem_of_fmap in Hin as (s0 & Heq & Hs0).
    apply elem_of_replicate in Hs0 as [-> _].
    injection Heq as Hcap' _ Hopt'. split; [|done]. rewrite Hcap'. simpl.
    rewrite (wrap64_id (Capacity o + 2 ^ j)) by (unfold MinInt64, MaxInt64; lia).
    rewrite wrap64_id by (unfold MinInt64, MaxInt64; lia).
    unfold go_div. apply Z.quot_div_nonneg; lia.
Qed.
End cache_keeps.


(** * Properties of the cache operations *)

Section cache_props.
Context {K V : Type} `{Countable K} `{!util.Fnv64aKey K}.
Import cache.
Implicit Types (c : cache.t K V) (s : shard.t K V) (o : Options K V).

Lemma shard_index_static k c c' :
  same_static c c' → cache.shard_index k c' = cache.shard_index k c.
Proof.
  intros [_ Hconf]. unfold cache.shard_index.
  by rewrite <- (length_fmap shard_conf (shards c')), Hconf, length_fmap.
Qed.

Lemma getShard_static k c c' :
  same_static c c' →
  shard_conf <$> cache.getShard k c' = shard_conf <$> cache.getShard k c.
Proof.
  intros Hst. unfold cache.getShard. rewrite (shard_index_static k c c' Hst).
  destruct (cache.shard_index k c <? 0); [done|].
  destruct Hst as [_ Hconf]. by rewrite <- !list_lookup_fmap, Hconf.
Qed.

Lemma costOf_static v c c' : same_static c c' → cache.costOf v c' = cache.costOf v c.
Proof. intros [Hopt _]. unfold cache.costOf. by rewrite Hopt. Qed.

(** The cost condition on the shard of [k] does not depend on the state. *)
Lemma cost_ok_static k v c c' :
  same_static c c' →
  (∀ s, cache.getShard k c = Some s →
        shard.maxCost s <= 0 ∨ cache.costOf v c <= shard.maxCost s) →
  ∀ s', cache.getShard k c' = Some s' →
        shard.maxCost s' <= 0 ∨ cache.costOf v c' <= shard.maxCost s'.
Proof.
  intros Hst Hok s' Hs'. pose proof (getShard_static k c c' Hst) as Hg.
  rewrite Hs' in Hg. simpl in Hg.
  destruct (cache.getShard k c) as [s|]; [|done]. injection Hg as _ Hmc _.
  rewrite (costOf_static v c c' Hst), Hmc. by apply Hok.
Qed.

(** [Get] on an open cache whose shard holds the node [x] for [k]. *)
Lemma Get_stored_entry now k c s n x :
  shards_inv c → closed c = false → cache.getShard k c = Some s →
  shard.m s !! k = Some n → shard.heap s !! n = Some x →
  ∃ c2, cache.Get now k c
          = Some (if shard.expiredLocked now x then None else Some (val x), c2) ∧
        cache_stored c2 k
          = (if shard.expiredLocked now x then None else Some (val x)).
Proof.
  intros Hc Hcl Hs Hn Hx.
  destruct (Get_shards_inv now k c Hc) as (r & c2 & Hget & _).
  destruct (Get_steps now k c r c2 Hc Hget)
    as [(Hcl' & _)|(_ & s0 & s' & Hs0 & Hinv & Hsop & ->)]; [congruence|].
  assert (s0 = s) as -> by congruence.
  destruct (Get_facts s now k r s' Hinv Hsop) as (_ & _ & _ & Hres).
  rewrite Hn in Hres. destruct Hres as (x0 & Hx0 & Hres).
  assert (x0 = x) as -> by congruence.
  exists (cache.putShard k s' c). rewrite Hget.
  rewrite (cache_stored_putShard k s s' c Hs).
  destruct (shard.expiredLocked now x).
  - destruct Hres as [-> Hm]. split; [done|]. by apply stored_None.
  - by destruct Hres as [-> Hst].
Qed.

(** What [Set] and [SetWithTTL] leave, the deadline being [d]. *)
Lemma Set_stored_entry k v d c s s' :
  shards_inv c → cache.getShard k c = Some s → inv s →
  (∀ s, cache.getShard k c = Some s →
        shard.maxCost s <= 0 ∨ cache.costOf v c <= shard.maxCost s) →
  shard.Set_ k v d (cache.costOf v c) s = Some s' →
  let c1 := cache.putShard k s' c in
  shards_inv c1 ∧ cache.getShard k c1 = Some s' ∧
  ∃ n x, shard.m s' !! k = Some n ∧ shard.heap s' !! n = Some x ∧
         val x = v ∧ exp x = d.
Proof.
  intros Hc Hs Hinv Hok Hset. simpl.
  destruct (Set_facts s k v d _ s' Hinv (costOf_range v c) Hset)
    as (Hinv' & _ & _ & Hst).
  destruct (Hst (Hok s Hs)) as (n & x & Hn & Hx & Hpx).
  split; [by apply putShard_inv|]. split; [by apply (getShard_putShard k s' s)|].
  exists n, x. split_and!; try done.
  - by rewrite (payload_val x (mkNode k v None None d (cache.costOf v c))).
  - by rewrite (payload_exp x (mkNode k v None None d (cache.costOf v c))).
Qed.

(** X9. [SetWithTTL] then [Get].  On an open cache built by [New] with a
    capacity below 2^32, after any operations: when the cost of the value
    is within the cost limit of the shard of the key (or the shard has
    none), [SetWithTTL(k, v, ttl)] stores [v]; a [Get(k)] that follows
    returns [v] if the deadline is 0 (no expiration) or not yet passed, and
    otherwise misses and removes the entry. *)
Theorem SetWithTTL_then_Get (procs : Z) (o : Options K V) (c0 c c1 : cache.t K V)
    (ops : list (op K V)) (now now' ttl : Z) (k : K) (v : V) :
  cache.New procs o = Some c0 → Capacity o < 2 ^ 32 →
  cache.run ops c0 = Some c → closed c = false →
  (∀ s, cache.getShard k c = Some s →
        shard.maxCost s <= 0 ∨ cache.costOf v c <= shard.maxCost s) →
  cache.SetWithTTL now k v ttl c = Some c1 →
  cache_stored c1 k = Some v ∧
  (cache.deadline now ttl = 0 ∨ now' <= cache.deadline now ttl →
   ∃ c2, cache.Get now' k c1 = Some (Some v, c2) ∧ cache_stored c2 k = Some v) ∧
  (cache.deadline now ttl ≠ 0 → now' > cache.deadline now ttl →
   ∃ c2, cache.Get now' k c1 = Some (None, c2) ∧ cache_stored c2 k = None).
Proof.
  intros Hnew Hcap Hrun Hcl Hok Hset.
  assert (reachable o c) as Hr by (by exists procs, c0, ops).
  destruct (reachable_inv o c Hr) as ([Hc _] & _).
  destruct (SetWithTTL_steps now k v ttl c c1 Hc Hset)
    as [(Hcl' & _)|(_ & s & s' & Hs & Hinv & Hsop & ->)]; [congruence|].
  destruct (Set_stored_entry k v _ c s s' Hc Hs Hinv Hok Hsop)
    as (Hc1 & Hs1 & n & x & Hn & Hx & Hv & He).
  assert (closed (cache.putShard k s' c) = false) as Hcl1 by done.
  split.
  { rewrite (cache_stored_putShard k s s' c Hs). apply stored_Some. by exists n, x. }
  split.
  - intros Hd.
    destruct (Get_stored_entry now' k _ s' n x Hc1 Hcl1 Hs1 Hn Hx) as (c2 & Hget & Hst).
    assert (shard.expiredLocked now' x = false) as Hne.
    { unfold shard.expiredLocked. rewrite He.
      destruct (Z.eqb_spec (cache.deadline now ttl) 0); [done|].
      destruct (Z.gtb_spec now' (cache.deadline now ttl)); [lia|done]. }
    rewrite Hne, Hv in Hget, Hst. by exists c2.
  - intros Hd0 Hd.
    destruct (Get_stored_entry now' k _ s' n x Hc1 Hcl1 Hs1 Hn Hx) as (c2 & Hget & Hst).
    assert (shard.expiredLocked now' x = true) as Hex.
    { unfold shard.expiredLocked. rewrite He.
      destruct (Z.eqb_spec (cache.deadline now ttl) 0); [done|].
      destruct (Z.gtb_spec now' (cache.deadline now ttl)); [done|lia]. }
    rewrite Hex in Hget, Hst. by exists c2.
Qed.

(** X10. [Set] then [Get].  On an open cache built by [New] with a
    capacity below 2^32, after any operations: when the cost of the value
    is within the cost limit of the shard of the key (or the shard has
    none), [Set(k, v)] stores [v], and a [Get(k)] that follows returns [v]
    when there is no default TTL or the default deadline is not yet
    passed. *)
Theorem Set_then_Get (procs : Z) (o : Options K V) (c0 c c1 : cache.t K V)
    (ops : list (op K V)) (now now' : Z) (k : K) (v : V) :
  cache.New procs o = Some c0 → Capacity o < 2 ^ 32 →
  cache.run ops c0 = Some c → closed c = false →
  (∀ s, cache.getShard k c = Some s →
        shard.maxCost s <= 0 ∨ cache.costOf v c <= shard.maxCost s) →
  cache.Set_ now k v c = Some c1 →
  cache_stored c1 k = Some v ∧
  (DefaultTTL o <= 0 ∨ now' <= cache.defaultDeadline now c →
   ∃ c2, cache.Get now' k c1 = Some (Some v, c2) ∧ cache_stored c2 k = Some v).
Proof.
  intros Hnew Hcap Hrun Hcl Hok Hset.
  assert (reachable o c) as Hr by (by exists procs, c0, ops).
  destruct (reachable_inv o c Hr) as ([Hc _] & Hopt & _).
  destruct (Set_steps now k v c c1 Hc Hset)
    as [(Hcl' & _)|(_ & s & s' & Hs & Hinv & Hsop & ->)]; [congruence|].
  destruct (Set_stored_entry k v _ c s s' Hc Hs Hinv Hok Hsop)
    as (Hc1 & Hs1 & n & x & Hn & Hx & Hv & He).
  assert (closed (cache.putShard k s' c) = false) as Hcl1 by done.
  split.
  { rewrite (cache_stored_putShard k s s' c Hs). apply stored_Some. by exists n, x. }
  intros Hd.
  destruct (Get_stored_entry now' k _ s' n x Hc1 Hcl1 Hs1 Hn Hx) as (c2 & Hget & Hst).
  assert (shard.expiredLocked now' x = false) as Hne.
  { unfold shard.expiredLocked. rewrite He.
    destruct (Z.eqb_spec (cache.defaultDeadline now c) 0) as [|Hnz]; [done|].
    destruct (Z.gtb_spec now' (cache.defaultDeadline now c)) as [Hgt|]; [|done].
    destruct Hd as [Hd|Hd]; [|lia]. exfalso. apply Hnz.
    unfold cache.defaultDeadline. rewrite Hopt.
    by destruct (Z.leb_spec (DefaultTTL o) 0); [|lia]. }
  rewrite Hne, Hv in Hget, Hst. by exists c2.
Qed.

(** X11. [Remove] on an open cache returns true exactly when a value was
    stored for the key; afterwards none is, a [Get] misses and a second
    [Remove] returns false; a [Remove] that returns false has changed
    nothing. *)
Theorem Remove_then_absent (o : Options K V) (c c1 : cache.t K V) (now : Z)
    (k : K) (r : bool) :
  reachable o c → closed c = false →
  cache.Remove k c = Some (r, c1) →
  (r = true ↔ is_Some (cache_stored c k)) ∧
  cache_stored c1 k = None ∧
  (∃ c2, cache.Get now k c1 = Some (None, c2)) ∧
  cache.Remove k c1 = Some (false, c1) ∧
  (r = false → c1 = c).
Proof.
  intros Hr Hcl Hrem. destruct (reachable_inv o c Hr) as ([Hc _] & _).
  destruct (Remove_steps k c r c1 Hc Hrem)
    as [(Hcl' & _)|(_ & s & s' & Hs & Hinv & Hsop & ->)]; [congruence|].
  destruct (Remove_facts s k r s' Hinv Hsop) as (Hinv' & _ & Hiff & Hsame & Hm' & _).
  pose proof (getShard_putShard k s' s c Hs) as Hs1.
  assert (shards_inv (cache.putShard k s' c)) as Hc1 by by apply putShard_inv.
  split_and!.
  - unfold cache_stored. rewrite Hs. simpl. rewrite Hiff.
    destruct Hinv as (l & Hwf & _). symmetry. by apply (stored_is_Some s l).
  - rewrite (cache_stored_putShard k s s' c Hs). by apply stored_None.
  - destruct (Get_shards_inv now k _ Hc1) as (r2 & c2 & Hget & _).
    destruct (Get_steps now k _ r2 c2 Hc1 Hget)
      as [(Hcl' & _)|(_ & s0 & s2 & Hs0 & Hinv0 & Hsop0 & ->)]; [simpl in Hcl'; congruence|].
    assert (s0 = s') as -> by congruence.
    destruct (Get_facts s' now k r2 s2 Hinv0 Hsop0) as (_ & _ & _ & Hres).
    rewrite Hm' in Hres. destruct Hres as [-> _]. by eexists.
  - unfold cache.Remove. change (closed (cache.putShard k s' c)) with (closed c).
    rewrite Hcl, Hs1. simpl. unfold shard.Remove. rewrite Hm'. simpl.
    by rewrite putShard_putShard.
  - intros Hf. rewrite (Hsame Hf). by apply putShard_id.
Qed.

(** X12. An operation gives no value to a key it was not called for:
    whatever the cache stores for another key afterwards, it stored
    before.  (Such a key can lose its value, by eviction.) *)
Theorem op_keeps_other_values (o : Options K V) (c c' : cache.t K V)
    (x : op K V) (k' : K) (v' : V) :
  reachable o c → cache.run_op x c = Some c' → op_key x ≠ Some k' →
  cache_stored c' k' = Some v' → cache_stored c k' = Some v'.
Proof.
  intros Hr Hop Hne. destruct (reachable_inv o c Hr) as (Hc & _).
  destruct (run_op_keeps x c c' Hc Hop) as (_ & _ & _ & Hfr). by apply Hfr.
Qed.

(** X13. A closed cache ignores its operations: [Add] and [Remove] return
    false, [Get] misses, also for keys it holds, and nothing changes;
    [Len] still counts the entries.  [GetOrLoad] still runs the loader
    and returns its result, which is not stored. *)
Theorem Close_ignores (c : cache.t K V) (now now2 now3 ttl : Z) (k : K) (v : V) :
  cache.Add now k v (cache.Close c) = Some (false, cache.Close c) ∧
  cache.Set_ now k v (cache.Close c) = Some (cache.Close c) ∧
  cache.SetWithTTL now k v ttl (cache.Close c) = Some (cache.Close c) ∧
  cache.Get now k (cache.Close c) = Some (None, cache.Close c) ∧
  cache.Remove k (cache.Close c) = Some (false, cache.Close c) ∧
  cache.Len (cache.Close c) = cache.Len c ∧
  cache.Close (cache.Close c) = cache.Close c ∧
  (sf c = ∅ →
   cache.GetOrLoad now now2 now3 k (cache.Close c) =
     Some (match Loader (opt c) with
           | None => inr ErrNoLoader
           | Some load => match load k with inl v => inl v | inr e => inr e end
           end, cache.Close c)).
Proof.
  split_and!; try done.
  intros Hsf. unfold cache.GetOrLoad. simpl.
  destruct (Loader (opt c)) as [load|]; [|done].
  unfold singleflight.Do. simpl. rewrite Hsf.
  rewrite decide_False by apply not_elem_of_empty. simpl.
  destruct (load k) as [v0|e]; simpl; rewrite flight_over;
    unfold cache.Close, cache.set_closed, cache.set_sf; simpl; by rewrite Hsf.
Qed.
End cache_props.

(** Sample caches are reachable. *)
Lemma after_reachable_lru ops c :
  cache.run ops (samples.build samples.opt_lru) = Some c →
  reachable samples.opt_lru c.
Proof.
  intros Hrun. exists 1, (samples.build samples.opt_lru), ops.
  split; [reflexivity|]. split; [vm_compute; reflexivity|exact Hrun].
Qed.

Lemma SetWithTTL_then_Get_witness :
  cache_stored (samples.after [cache.OpSetWithTTL 0 "k" 7 10]%string samples.opt_lru)
    "k"%string = Some 7 ∧
  (∃ c2, cache.Get 10 "k"%string
           (samples.after [cache.OpSetWithTTL 0 "k" 7 10]%string samples.opt_lru)
         = Some (Some 7, c2) ∧ cache_stored c2 "k"%string = Some 7) ∧
  (∃ c2, cache.Get 11 "k"%string
           (samples.after [cache.OpSetWithTTL 0 "k" 7 10]%string samples.opt_lru)
         = Some (None, c2) ∧ cache_stored c2 "k"%string = None).
Proof.
  assert (cache.New 1 samples.opt_lru = Some (samples.build samples.opt_lru)) as Hnew
    by reflexivity.
  assert (cache.Capacity samples.opt_lru < 2 ^ 32) as Hcap
    by (vm_compute; reflexivity).
  assert (∀ s, cache.getShard "k"%string (samples.build samples.opt_lru) = Some s →
               cache.shard.maxCost s <= 0 ∨
               cache.costOf 7 (samples.build samples.opt_lru) <= cache.shard.maxCost s)
    as Hok.
  { intros s Hs. left. vm_compute in Hs. injection Hs as <-. vm_compute. discriminate. }
  assert (cache.SetWithTTL 0 "k"%string 7 10 (samples.build samples.opt_lru)
          = Some (samples.after [cache.OpSetWithTTL 0 "k" 7 10]%string samples.opt_lru))
    as Hset by (vm_compute; reflexivity).
  destruct (SetWithTTL_then_Get 1 samples.opt_lru _ _ _ [] 0 10 10 "k"%string 7
              Hnew Hcap eq_refl eq_refl Hok Hset) as (Hst & Hhit & _).
  destruct (SetWithTTL_then_Get 1 samples.opt_lru _ _ _ [] 0 11 10 "k"%string 7
              Hnew Hcap eq_refl eq_refl Hok Hset) as (_ & _ & Hmiss).
  split; [exact Hst|]. split.
  - apply Hhit. right. vm_compute. discriminate.
  - apply Hmiss; vm_compute; [discriminate|reflexivity].
Defined.

Lemma Set_then_Get_witness :
  cache_stored (samples.after [cache.OpSet 0 "k" 7]%string samples.opt_lru)
    "k"%string = Some 7 ∧
  ∃ c2, cache.Get 1000 "k"%string
          (samples.after [cache.OpSet 0 "k" 7]%string samples.opt_lru)
        = Some (Some 7, c2) ∧ cache_stored c2 "k"%string = Some 7.
Proof.
  assert (cache.New 1 samples.opt_lru = Some (samples.build samples.opt_lru)) as Hnew
    by reflexivity.
  assert (cache.Capacity samples.opt_lru < 2 ^ 32) as Hcap
    by (vm_compute; reflexivity).
  assert (∀ s, cache.getShard "k"%string (samples.build samples.opt_lru) = Some s →
               cache.shard.maxCost s <= 0 ∨
               cache.costOf 7 (samples.build samples.opt_lru) <= cache.shard.maxCost s)
    as Hok.
  { intros s Hs. left. vm_compute in Hs. injection Hs as <-. vm_compute. discriminate. }
  assert (cache.Set_ 0 "k"%string 7 (samples.build samples.opt_lru)
          = Some (samples.after [cache.OpSet 0 "k" 7]%string samples.opt_lru))
    as Hset by (vm_compute; reflexivity).
  destruct (Set_then_Get 1 samples.opt_lru _ _ _ [] 0 1000 "k"%string 7
              Hnew Hcap eq_refl eq_refl Hok Hset) as (Hst & Hhit).
  split; [exact Hst|]. apply Hhit. left. vm_compute. discriminate.
Defined.

Lemma Remove_then_absent_witness :
  (true = true ↔
   is_Some (cache_stored (samples.after [cache.OpSet 0 "b" 2]%string samples.opt_lru)
              "b"%string)) ∧
  cache_stored
    (samples.after [cache.OpSet 0 "b" 2; cache.OpRemove "b"]%string samples.opt_lru)
    "b"%string = None ∧
  (∃ c2, cache.Get 0 "b"%string
           (samples.after [cache.OpSet 0 "b" 2; cache.OpRemove "b"]%string
              samples.opt_lru) = Some (None, c2)) ∧
  cache.Remove "b"%string
    (samples.after [cache.OpSet 0 "b" 2; cache.OpRemove "b"]%string samples.opt_lru)
  = Some (false,
          samples.after [cache.OpSet 0 "b" 2; cache.OpRemove "b"]%string
            samples.opt_lru) ∧
  (true = false →
   samples.after [cache.OpSet 0 "b" 2; cache.OpRemove "b"]%string samples.opt_lru
   = samples.after [cache.OpSet 0 "b" 2]%string samples.opt_lru).
Proof.
  apply (Remove_then_absent samples.opt_lru
           (samples.after [cache.OpSet 0 "b" 2]%string samples.opt_lru)
           (samples.after [cache.OpSet 0 "b" 2; cache.OpRemove "b"]%string
              samples.opt_lru) 0 "b"%string true).
  - apply (after_reachable_lru [cache.OpSet 0 "b" 2]%string). vm_compute. reflexivity.
  - vm_compute. reflexivity.
  - vm_compute. reflexivity.
Defined.

Lemma op_keeps_other_values_witness :
  cache_stored (samples.after [cache.OpSet 0 "b" 2]%string samples.opt_lru)
    "b"%string = Some 2.
Proof.
  apply (op_keeps_other_values samples.opt_lru
           (samples.after [cache.OpSet 0 "b" 2]%string samples.opt_lru)
           (samples.after [cache.OpSet 0 "b" 2; cache.OpSet 0 "a" 1]%string
              samples.opt_lru)
           (cache.OpSet 0 "a"%string 1) "b"%string 2).
  - apply (after_reachable_lru [cache.OpSet 0 "b" 2]%string). vm_compute. reflexivity.
  - vm_compute. reflexivity.
  - discriminate.
  - vm_compute. reflexivity.
Defined.


(** * Size, construction and shard selection *)

Section cache_shape.
Context {K V : Type} `{Countable K} `{!util.Fnv64aKey K}.
Import cache.
Implicit Types (c : cache.t K V) (s : shard.t K V) (o : Options K V).

(** The loop of [Len] adds up the lengths when the sum stays in range. *)
Lemma Len_fold (l : list (shard.t K V)) a q :
  0 <= a → 0 <= q →
  Forall (fun s => shard.len s = Z.of_nat (size (shard.m s)) ∧ shard.len s <= q) l →
  a + Z.of_nat (length l) * q <= MaxInt64 →
  fold_left (fun total s => wrap64 (total + shard.Len s)) l a
    = a + foldr (fun s b => Z.of_nat (size (shard.m s)) + b) 0 l ∧
  a + foldr (fun s b => Z.of_nat (size (shard.m s)) + b) 0 l
    <= a + Z.of_nat (length l) * q.
Proof.
  unfold shard.Len.
  revert a. induction l as [|s l IH]; intros a Ha Hq Hall Hb; simpl.
  - lia.
  - apply Forall_cons in Hall as [[Hlen Hle] Hall].
    simpl in Hb. rewrite Hlen in *.
    rewrite wrap64_id by (unfold MinInt64, MaxInt64 in *; nia).
    destruct (IH (a + Z.of_nat (size (shard.m s)))) as [Heq Hle2];
      [lia|lia|done|nia|].
    rewrite Heq. split; [lia|nia].
Qed.

(** X14. [Len] is the number of entries in the maps of the shards.  It
    is at most [S * ceil(Capacity / S)], hence less than [Capacity + S],
    for [S] shards. *)
Theorem Len_counts_entries (o : Options K V) (c : cache.t K V) :
  reachable o c →
  cache.Len c = entries c ∧
  0 <= cache.Len c <= Capacity o + Z.of_nat (length (shards c)) - 1.
Proof.
  intros Hr.
  destruct (reachable_inv o c Hr) as ([[Hall Hlen] _] & Hopt & j & Hj & HS & Hcaps).
  assert (2 ^ j <= 2 ^ 62) by (apply Z.pow_le_mono_r; lia).
  assert (0 < 2 ^ j) by (apply Z.pow_pos_nonneg; lia).
  set (q := (Capacity o + 2 ^ j - 1) / 2 ^ j).
  assert (0 < Capacity o < 2 ^ 32) as Hcap.
  { destruct Hr as (procs & c0 & ops & Hnew & Hlt & _). split; [|done].
    revert Hnew. unfold cache.New. destruct (Z.leb_spec (Capacity o) 0); [done|lia]. }
  assert (2 ^ j * q <= Capacity o + 2 ^ j - 1) as Hq
    by (apply Z.mul_div_le; lia).
  assert (0 <= q) as Hq0 by (apply Z.div_pos; lia).
  destruct (Len_fold (shards c) 0 q) as [Heq Hle]; [done|done| |unfold MaxInt64; nia|].
  { apply Forall_forall. intros s Hs.
    pose proof (proj1 (Forall_forall _ _) Hall s Hs) as Hinv.
    pose proof (proj1 (Forall_forall _ _) Hcaps s Hs) as [Hcs _].
    destruct (inv_shard_ok s Hinv) as (Hsz & _ & Hlc & _). fold q in Hcs. lia. }
  unfold cache.Len, entries. rewrite Heq. split; [lia|].
  assert (0 <= foldr (fun s b => Z.of_nat (size (shard.m s)) + b) 0 (shards c)).
  { clear. induction (shards c) as [|s l IH]; simpl; lia. }
  nia.
Qed.

(** X15. For [0 < Capacity < 2^32], [Shards >= 1] and [MaxCost < 2^62]:
    [New] returns a cache when moreover [Capacity <= 2^20] and
    [Shards <= 2^16]; and every cache it returns is open, with a number
    of shards that is the least power of two that is at least [Shards],
    and at most 2^45.  Every shard is empty, with the entry ceiling
    [ceil(Capacity / S)] for the [S] shards built, so that the ceilings
    add up to at least [Capacity]; its cost limit is
    [ceil(MaxCost / Shards)], by the number of shards asked for, when
    [MaxCost > 0], and 0 otherwise. *)
Theorem New_shape (procs : Z) (o : Options K V) :
  0 < Capacity o < 2 ^ 32 → 1 <= Shards o <= MaxInt64 → MaxCost o < 2 ^ 62 →
  (Capacity o <= 2 ^ 20 → Shards o <= 2 ^ 16 → is_Some (cache.New procs o)) ∧
  ∀ c, cache.New procs o = Some c →
    ∃ j, 0 <= j <= 45 ∧
      Z.of_nat (length (shards c)) = 2 ^ j ∧ Shards o <= 2 ^ j ∧
      (∀ i, 0 <= i → Shards o <= 2 ^ i → 2 ^ j <= 2 ^ i) ∧
      closed c = false ∧
      Capacity o <= 2 ^ j * ((Capacity o + 2 ^ j - 1) / 2 ^ j) ∧
      Forall (fun s =>
                shard.cap s = (Capacity o + 2 ^ j - 1) / 2 ^ j ∧
                shard.maxCost s =
                  (if MaxCost o >? 0 then (MaxCost o + Shards o - 1) / Shards o else 0) ∧
                shard.m s = ∅ ∧ shard.len s = 0)
             (shards c).
Proof.
  unfold MaxInt64. intros Hcap Hsh Hmc.
  destruct (NextPow2_spec (Shards o)) as (j & Hj & Hnp & Hle & Hleast); [lia|].
  assert (0 < 2 ^ j) by (apply Z.pow_pos_nonneg; lia).
  assert (cache.shard_count procs o = wrap64 (2 ^ j)) as Hcount.
  { unfold cache.shard_count. destruct (Z.leb_spec (Shards o) 0); [lia|].
    rewrite wrapu64_id by lia. by rewrite Hnp. }
  split.
  - intros _ Hs16.
    assert (2 ^ j <= 2 ^ 16) as Hj16 by (apply Hleast; lia).
    unfold cache.New. destruct (Z.leb_spec (Capacity o) 0); [lia|].
    rewrite Hcount, wrap64_id by (unfold MinInt64, MaxInt64; lia).
    assert (makeslice_panics 8 (2 ^ j) = false) as ->; [|by eexists].
    unfold makeslice_panics, maxAlloc.
    destruct (Z.ltb_spec (2 ^ j) 0); [lia|].
    destruct (Z.ltb_spec (2 ^ 48) (8 * 2 ^ j)); [lia|done].
  - intros c. unfold cache.New. destruct (Z.leb_spec (Capacity o) 0); [lia|].
    rewrite Hcount.
    destruct (makeslice_panics 8 (wrap64 (2 ^ j))) eqn:Hmk; [done|].
    apply makeslice_panics_false in Hmk as [Hpos Hmem]. unfold maxAlloc in Hmem.
    assert (j ≠ 63) as Hne.
    { intros ->. revert Hpos. vm_compute. intros Hc. by apply Hc. }
    assert (2 ^ j <= 2 ^ 62) by (apply Z.pow_le_mono_r; lia).
    rewrite wrap64_id in Hmem |- * by (unfold MinInt64, MaxInt64; lia).
    assert (j <= 45) as Hj45.
    { destruct (Z_le_gt_dec j 45) as [|Hgt]; [done|].
      assert (2 ^ 46 <= 2 ^ j) by (apply Z.pow_le_mono_r; lia). lia. }
    assert (2 ^ j <= 2 ^ 45) by (apply Z.pow_le_mono_r; lia).
    intros [= <-]. exists j. simpl.
    rewrite length_replicate, Z2Nat.id by lia.
    split_and!; try done; try lia.
    + pose proof (Z.mod_pos_bound (Capacity o + 2 ^ j - 1) (2 ^ j)).
      pose proof (Z.div_mod (Capacity o + 2 ^ j - 1) (2 ^ j)). lia.
    + apply Forall_replicate. simpl. split_and!; try done.
      * rewrite (wrap64_id (Capacity o + 2 ^ j)) by (unfold MinInt64, MaxInt64; lia).
        rewrite wrap64_id by (unfold MinInt64, MaxInt64; lia).
        unfold go_div. apply Z.quot_div_nonneg; lia.
      * destruct (Z.gtb_spec (MaxCost o) 0); [|done].
        destruct (Z.leb_spec (Shards o) 0); [lia|].
        rewrite (wrap64_id (MaxCost o + Shards o)) by (unfold MinInt64, MaxInt64; lia).
        rewrite wrap64_id by (unfold MinInt64, MaxInt64; lia).
        unfold go_div. apply Z.quot_div_nonneg; lia.
Qed.

Lemma wrap64_mod_pow2 h j :
  0 <= h < 2 ^ 64 → 0 <= j <= 62 → wrap64 h mod 2 ^ j = h mod 2 ^ j.
Proof.
  intros Hh Hj. unfold wrap64.
  assert (2 ^ 64 = 2 ^ j * 2 ^ (64 - j)) as H64.
  { rewrite <- Z.pow_add_r by lia. f_equal. lia. }
  assert (2 ^ 63 = 2 ^ j * 2 ^ (63 - j)) as H63.
  { rewrite <- Z.pow_add_r by lia. f_equal. lia. }
  assert (0 < 2 ^ j) by (apply Z.pow_pos_nonneg; lia).
  destruct (Z_lt_le_dec h (2 ^ 63)).
  - rewrite (Z.mod_small (h + 2 ^ 63)) by lia. f_equal. lia.
  - replace (h + 2 ^ 63) with (h - 2 ^ 63 + 1 * 2 ^ 64) by lia.
    rewrite Z.mod_add by lia. rewrite (Z.mod_small (h - 2 ^ 63)) by lia.
    replace (h - 2 ^ 63 - 2 ^ 63) with (h + (- 2 ^ (64 - j)) * 2 ^ j) by lia.
    by rewrite Z.mod_add by lia.
Qed.

(** X16. In a cache that [New] built, the shard of a key whose hash is a
    64-bit value is the shard [util.ShardIndex] names: the hash modulo the
    number of shards. *)
Theorem shard_index_mod (o : Options K V) (c : cache.t K V) (k : K) :
  reachable o c → 0 <= util.Fnv64a k < 2 ^ 64 →
  cache.shard_index k c
    = util.ShardIndex (util.Fnv64a k) (Z.of_nat (length (shards c))) ∧
  cache.shard_index k c = util.Fnv64a k mod Z.of_nat (length (shards c)).
Proof.
  intros Hr Hh.
  destruct (reachable_inv o c Hr) as (_ & _ & j & Hj & HS & _).
  assert (2 ^ j <= 2 ^ 62) by (apply Z.pow_le_mono_r; lia).
  assert (0 < 2 ^ j) by (apply Z.pow_pos_nonneg; lia).
  assert (cache.shard_index k c = util.Fnv64a k mod Z.of_nat (length (shards c)))
    as Heq.
  { unfold cache.shard_index. rewrite HS.
    rewrite (wrap64_id (2 ^ j - 1)) by (unfold MinInt64, MaxInt64; lia).
    replace (2 ^ j - 1) with (Z.ones j) by (rewrite Z.ones_equiv; lia).
    rewrite Z.land_ones by lia. by apply wrap64_mod_pow2. }
  split; [|done]. rewrite Heq.
  destruct (ShardIndex_spec (util.Fnv64a k) (Z.of_nat (length (shards c))))
    as [-> _]; [done|unfold MaxInt64; lia|done].
Qed.
End cache_shape.

Lemma Len_counts_entries_witness :
  cache.Len (samples.after [cache.OpSet 0 "b" 2]%string samples.opt_lru)
    = entries (samples.after [cache.OpSet 0 "b" 2]%string samples.opt_lru) ∧
  0 <= cache.Len (samples.after [cache.OpSet 0 "b" 2]%string samples.opt_lru)
    <= cache.Capacity samples.opt_lru
       + Z.of_nat (length (cache.shards
                             (samples.after [cache.OpSet 0 "b" 2]%string
                                samples.opt_lru))) - 1.
Proof.
  apply (Len_counts_entries samples.opt_lru).
  apply (after_reachable_lru [cache.OpSet 0 "b" 2]%string). vm_compute. reflexivity.
Defined.

Lemma New_shape_witness :
  ∃ c j,
    cache.New 1 samples.opt_three = Some c ∧ 0 <= j <= 45 ∧
    Z.of_nat (length (cache.shards c)) = 2 ^ j ∧
    cache.Shards samples.opt_three <= 2 ^ j ∧
    (∀ i, 0 <= i → cache.Shards samples.opt_three <= 2 ^ i → 2 ^ j <= 2 ^ i) ∧
    cache.closed c = false ∧
    cache.Capacity samples.opt_three
      <= 2 ^ j * ((cache.Capacity samples.opt_three + 2 ^ j - 1) / 2 ^ j) ∧
    Forall (fun s =>
              cache.shard.cap s
                = (cache.Capacity samples.opt_three + 2 ^ j - 1) / 2 ^ j ∧
              cache.shard.maxCost s =
                (if cache.MaxCost samples.opt_three >? 0
                 then (cache.MaxCost samples.opt_three
                       + cache.Shards samples.opt_three - 1)
                      / cache.Shards samples.opt_three
                 else 0) ∧
              cache.shard.m s = ∅ ∧ cache.shard.len s = 0)
           (cache.shards c).
Proof.
  destruct (New_shape 1 samples.opt_three) as [Hret Hshape];
    [simpl; lia|simpl; unfold MaxInt64; lia|simpl; lia|].
  destruct Hret as [c Hc]; [simpl; lia|simpl; lia|].
  destruct (Hshape c Hc) as (j & Hj & Hrest).
  exists c, j. split; [exact Hc|]. split; [exact Hj|exact Hrest].
Defined.

Lemma shard_index_mod_witness :
  cache.shard_index "k"%string (samples.build samples.opt_three)
    = util.ShardIndex (util.Fnv64a "k"%string)
        (Z.of_nat (length (cache.shards (samples.build samples.opt_three)))) ∧
  cache.shard_index "k"%string (samples.build samples.opt_three)
    = util.Fnv64a "k"%string
      mod Z.of_nat (length (cache.shards (samples.build samples.opt_three))).
Proof.
  apply (shard_index_mod samples.opt_three).
  - exists 1, (samples.build samples.opt_three), [].
    split; [reflexivity|]. split; [vm_compute; reflexivity|reflexivity].
  - apply fnv64aFromBytes_range.
Defined.


(** * Recency order *)

Section recency.
Context {K V : Type} `{Countable K}.
Import cache.
Local Abbreviation node := (node K V).
Implicit Types (h : gmap ptr node) (l : list ptr) (p n : ptr) (s : shard.t K V).

(** The LRU policy never names a node to evict. *)
Lemma lru_OnAdd_none s n (p : lru.lru) ev s1 :
  shard.pol s = ShardLRU p → shard.pol_OnAdd n s = Some (ev, s1) → ev = None.
Proof.
  intros Hp. unfold shard.pol_OnAdd. rewrite Hp. unfold lru.OnAdd.
  destruct (policy.PushFront n s); simpl; [|done]. by intros [= <- _].
Qed.

(** X17. [Add] of a new key to a shard under the LRU policy, without
    cost limit, whose list of nodes, most recently used first, is [l]: the
    new node goes to the front, and of the list so extended the first
    [cap] nodes stay.  A full shard thus loses the node at the back, the
    least recently used, and no other. *)
Theorem LRU_Add_order s l (k : K) (v : V) (ttl c : Z) (p : lru.lru) :
  wf s l → Z.of_nat (length l) <= shard.cap s →
  shard.pol s = ShardLRU p → shard.maxCost s <= 0 →
  shard.m s !! k = None → 0 <= c <= MaxInt32 →
  ∃ n s',
    (n ∉ l) ∧ shard.Add k v ttl c s = Some (true, s') ∧
    wf s' (take (Z.to_nat (shard.cap s)) (n :: l)) ∧
    shard.m s' !! k = Some n ∧ stored s' k = Some v.
Proof.
  intros Hwf Hlen Hpol Hmc Hk Hc.
  destruct (insert_spec s l k v ttl c Hwf Hlen Hk Hc)
    as (n & sa & ev & s1 & Halloc & Hnl & HOnAdd & Hwf1 & (x & Hx & Hpx) & _ & _
        & Hcap1 & Hmc1 & _).
  assert (ev = None) as ->.
  { apply (lru_OnAdd_none sa n p _ s1); [|done].
    unfold shard.alloc in Halloc. injection Halloc as _ <-. done. }
  assert (shard.insertNew k v ttl c s = shard.enforceLimitsLocked s1) as Hins.
  { unfold shard.insertNew. rewrite Halloc, HOnAdd. done. }
  destruct (enforceLimitsLocked_spec s1 _ Hwf1)
    as (s' & keep & capd & Hrun & Htake & Hwf' & _ & Hcapd & _ & _ & _ & _ & _ & _
        & _ & _ & Hpl).
  rewrite Hcapd, app_nil_r in Htake by lia. subst keep. rewrite Hcap1 in Hwf'.
  exists n, s'. split; [done|]. split.
  { unfold shard.Add. rewrite Hk, Hins, Hrun. done. }
  split; [done|].
  destruct (same_payload_lookup _ _ n x Hpl Hx) as (x' & Hx' & Hxx').
  assert (shard.m s' !! k = Some n) as Hm.
  { apply (wf_map _ _ Hwf'). split.
    - pose proof (wf_cap _ _ Hwf) as Hcapb.
      destruct (Z.to_nat (shard.cap s)) as [|m] eqn:Hm; [lia|]. by left.
    - rewrite Hx'. simpl.
      by rewrite (payload_key _ _ Hxx'), (payload_key x (mkNode k v None None ttl c)). }
  split; [done|]. apply stored_Some. exists n, x'. split_and!; try done.
  by rewrite (payload_val _ _ Hxx'), (payload_val x (mkNode k v None None ttl c)).
Qed.

(** X18. [Get] and the order of the list, under either policy.  A hit
    moves the node to the front and leaves the others in their order; a
    [Get] that finds the entry expired takes the node out and leaves the
    others in their order. *)
Theorem Get_order s l1 n l2 (now : Z) (k : K) (x : node) :
  wf s (l1 ++ n :: l2) →
  shard.m s !! k = Some n → shard.heap s !! n = Some x →
  (shard.expiredLocked now x = false →
   ∃ s', shard.Get now k s = Some (Some (val x), s') ∧ wf s' (n :: l1 ++ l2)) ∧
  (shard.expiredLocked now x = true →
   ∃ s', shard.Get now k s = Some (None, s') ∧ wf s' (l1 ++ l2)).
Proof.
  intros Hwf Hk Hx. unfold shard.Get. rewrite Hk, Hx. simpl. split; intros ->.
  - destruct (promote_spec shard.pol_OnGet s l1 n l2 (or_introl eq_refl) Hwf)
      as (s1 & Hrun & Hwf1 & Hpl & _).
    rewrite Hrun. simpl.
    destruct (same_payload_lookup _ _ n x Hpl Hx) as (x1 & Hx1 & Hxx).
    rewrite Hx1. simpl. rewrite (payload_val _ _ Hxx). eexists. split; [done|].
    apply wf_emit. by apply (wf_same s1).
  - destruct (evictNode_spec s l1 n l2 EvictTTL Hwf) as (s1 & x1 & _ & Hev & Hwf1 & _).
    rewrite Hev. simpl. eexists. split; [done|].
    apply wf_emit. by apply (wf_same s1).
Qed.

(** X19. [Set] on a key that is present, in a shard without cost limit:
    the node keeps its place in the map, takes the new value, and moves to
    the front; no node leaves. *)
Theorem Set_existing_order s l1 n l2 (k : K) (v : V) (ttl c : Z) :
  wf s (l1 ++ n :: l2) → Z.of_nat (length (l1 ++ n :: l2)) <= shard.cap s →
  shard.maxCost s <= 0 →
  shard.m s !! k = Some n → 0 <= c <= MaxInt32 →
  ∃ s', shard.Set_ k v ttl c s = Some s' ∧ wf s' (n :: l1 ++ l2) ∧
        shard.m s' !! k = Some n ∧ stored s' k = Some v.
Proof.
  intros Hwf Hlen Hmc Hk Hc.
  destruct (update_spec s l1 n l2 k v ttl c Hwf Hk Hc Hlen)
    as (s0 & Hwf0 & Hrun & (x0 & Hx0 & Hpx0) & _ & _ & _ & Hcap & Hmc0 & _).
  destruct (enforceLimitsLocked_inv s0 _ Hwf0) as (s' & Hen & _).
  destruct (enforce_frame s0 _ s' Hwf0 Hen) as (keep & Hwf' & _ & Hpl & _ & Hkeep).
  rewrite Hkeep in Hwf'.
  2: { rewrite Hcap. simpl. rewrite length_app in *. simpl in Hlen. lia. }
  2: { by rewrite Hmc0. }
  exists s'. split; [congruence|]. split; [done|].
  destruct (same_payload_lookup _ _ n x0 Hpl Hx0) as (x' & Hx' & Hxx').
  assert (shard.m s' !! k = Some n) as Hm.
  { apply (wf_map _ _ Hwf'). split; [by left|]. rewrite Hx'. simpl.
    by rewrite (payload_key _ _ Hxx'), (payload_key x0 (mkNode k v None None ttl c)). }
  split; [done|]. apply stored_Some. exists n, x'. split_and!; try done.
  by rewrite (payload_val _ _ Hxx'), (payload_val x0 (mkNode k v None None ttl c)).
Qed.

(** A well-formed shard with one node. *)
Lemma wf_one s l p : wf s l → shard.len s = 1 → shard.head s = Some p → l = [p].
Proof.
  intros Hwf Hlen Hhd. pose proof (wf_len _ _ Hwf) as Hl.
  destruct (wf_dll _ _ Hwf) as (_ & Hh & _).
  destruct l as [|p0 [|p1 l]]; simpl in *; try lia.
  rewrite Hhd in Hh. by injection Hh as ->.
Qed.

Lemma wf_newShard procs capacity (pl : Policy) (o : Options K V) :
  1 <= capacity < 2 ^ 32 → wf (shard.newShard procs capacity pl o) [].
Proof.
  intros Hcap. destruct (newShard_inv procs capacity pl o Hcap) as (l & Hwf & _).
  pose proof (wf_len _ _ Hwf) as Hl. simpl in Hl.
  destruct l; [done|]. simpl in Hl. lia.
Qed.
End recency.

Lemma shard_k_wf : wf samples.shard_k [0%nat].
Proof.
  destruct shard_k_inv as (l & Hwf & _).
  rewrite <- (wf_one _ l 0%nat Hwf); [done| |]; vm_compute; reflexivity.
Qed.

Lemma LRU_Add_order_witness :
  ∃ n s',
    (n ∉ [0%nat]) ∧
    cache.shard.Add "j"%string 8 0 1 samples.shard_k = Some (true, s') ∧
    wf s' (take (Z.to_nat (cache.shard.cap samples.shard_k)) [n; 0%nat]) ∧
    cache.shard.m s' !! "j"%string = Some n ∧ stored s' "j"%string = Some 8.
Proof.
  apply (LRU_Add_order samples.shard_k [0%nat] "j"%string 8 0 1 lru.mk).
  - exact shard_k_wf.
  - vm_compute. discriminate.
  - reflexivity.
  - vm_compute. discriminate.
  - vm_compute. reflexivity.
  - unfold MaxInt32. lia.
Defined.

Lemma Get_order_witness :
  (cache.shard.expiredLocked 5 (cache.mkNode "k"%string 7 None None 5 1) = false →
   ∃ s', cache.shard.Get 5 "k"%string samples.shard_k = Some (Some 7, s') ∧
         wf s' [0%nat]) ∧
  (cache.shard.expiredLocked 5 (cache.mkNode "k"%string 7 None None 5 1) = true →
   ∃ s', cache.shard.Get 5 "k"%string samples.shard_k = Some (None, s') ∧ wf s' []).
Proof.
  apply (Get_order samples.shard_k [] 0%nat [] 5 "k"%string
           (cache.mkNode "k"%string 7 None None 5 1)).
  - exact shard_k_wf.
  - vm_compute. reflexivity.
  - vm_compute. reflexivity.
Defined.

Lemma Set_existing_order_witness :
  ∃ s', cache.shard.Set_ "k"%string 9 0 1 samples.shard_k = Some s' ∧
        wf s' [0%nat] ∧ cache.shard.m s' !! "k"%string = Some 0%nat ∧
        stored s' "k"%string = Some 9.
Proof.
  apply (Set_existing_order samples.shard_k [] 0%nat [] "k"%string 9 0 1).
  - exact shard_k_wf.
  - vm_compute. discriminate.
  - vm_compute. discriminate.
  - vm_compute. reflexivity.
  - unfold MaxInt32. lia.
Defined.


(** * Loading *)

Section loading.
Context {K V : Type} `{Countable K} `{!util.Fnv64aKey K}.
Import cache.
Implicit Types (c : cache.t K V) (s : shard.t K V) (o : Options K V).

(** X20. [GetOrLoad] on a miss, the loader succeeding with [v], on an
    open cache built by [New] with a capacity below 2^32, after any
    operations: the call returns [v] without error; and [v] is then stored
    for the key if its cost is within the cost limit of the shard of the
    key (or the shard has none). *)
Theorem GetOrLoad_loads (procs : Z) (o : Options K V) (c0 c c1 : cache.t K V)
    (ops : list (op K V)) (now1 now2 now3 : Z) (k : K) (load : K → V + error)
    (v : V) :
  cache.New procs o = Some c0 → Capacity o < 2 ^ 32 →
  cache.run ops c0 = Some c → closed c = false →
  Loader o = Some load → load k = inl v →
  cache.Get now1 k c = Some (None, c1) →
  ∃ c', cache.GetOrLoad now1 now2 now3 k c = Some (inl v, c') ∧
        ((∀ s, cache.getShard k c = Some s →
               shard.maxCost s <= 0 ∨ cache.costOf v c <= shard.maxCost s) →
         cache_stored c' k = Some v).
Proof.
  intros Hnew Hcap Hrun0 Hcl Hld Hv Hget.
  assert (reachable o c) as Hr by (by exists procs, c0, ops).
  destruct (reachable_inv o c Hr) as (Hci & Hopt & _). pose proof Hci as [Hc Hsf].
  destruct (GetOrLoad_cache_inv now1 now2 now3 k c Hci) as (r & c' & Hrun & _).
  destruct (GetOrLoad_steps now1 now2 now3 k c r c' Hci Hrun)
    as (r1 & c1' & Hget1 & Hrest).
  rewrite Hget in Hget1. injection Hget1 as <- <-.
  rewrite Hopt, Hld in Hrest. destruct Hrest as (r2 & c2 & Hget2 & Hrest).
  destruct (Get_miss_again now1 now2 k c c1 Hc Hget) as (c2' & Hget2').
  rewrite Hget2' in Hget2. injection Hget2 as <- <-.
  rewrite Hv in Hrest. destruct Hrest as [-> Hset].
  exists c'. split; [done|]. intros Hok.
  destruct (Get_keeps now1 k c None c1 Hc Hget) as (Hk1 & _).
  pose proof Hk1 as (Hc1 & _).
  destruct (Get_keeps now2 k c1 None c2' Hc1 Hget2') as (Hk2 & _).
  destruct (keeps_trans _ _ _ Hk1 Hk2) as (Hc2 & Hst & _ & Hcl2).
  destruct (Set_steps now3 k v c2' c' Hc2 Hset)
    as [(Hcl' & _)|(_ & s & s' & Hs & Hinv & Hsop & ->)]; [congruence|].
  destruct (Set_stored_entry k v _ c2' s s' Hc2 Hs Hinv
              (cost_ok_static k v c c2' Hst Hok) Hsop)
    as (_ & _ & n & x & Hn & Hx & Hxv & _).
  rewrite (cache_stored_putShard k s s' c2' Hs). apply stored_Some. by exists n, x.
Qed.
End loading.

Lemma GetOrLoad_loads_witness :
  ∃ c', cache.GetOrLoad 0 0 0 "k"%string (samples.build samples.opt_loading)
          = Some (inl 42, c') ∧
        cache_stored c' "k"%string = Some 42.
Proof.
  destruct (GetOrLoad_loads 1 samples.opt_loading
              (samples.build samples.opt_loading)
              (samples.build samples.opt_loading)
              (samples.after [cache.OpGet 0 "k"]%string samples.opt_loading)
              [] 0 0 0 "k"%string (fun _ => inl 42) 42) as (c' & Hrun & Hst).
  - reflexivity.
  - vm_compute. reflexivity.
  - reflexivity.
  - reflexivity.
  - reflexivity.
  - reflexivity.
  - vm_compute. reflexivity.
  - exists c'. split; [exact Hrun|]. apply Hst.
    intros s Hs. left. vm_compute in Hs. injection Hs as <-. vm_compute. discriminate.
Defined.


(** * The intrusive list and the enforcement of the limits *)

Section list_ops.
Context {K V : Type} `{Countable K}.
Import cache.
Local Abbreviation node := (node K V).
Implicit Types (h : gmap ptr node) (l : list ptr) (p n : ptr) (s : shard.t K V).

(** X21. On a shard whose limits hold, [enforceLimitsLocked] evicts
    nothing: it emits [Size(len, cost)] and changes nothing else. *)
Theorem enforce_within_limits s :
  inv s →
  shard.enforceLimitsLocked s
    = Some (shard.emit (Size (shard.len s) (shard.cost s)) s).
Proof.
  intros (l & Hwf & Hlen & Hcost). pose proof (wf_len _ _ Hwf) as Hl.
  unfold shard.enforceLimitsLocked, shard.loop_fuel. simpl.
  destruct (Z.gtb_spec (shard.len s) (shard.cap s)); [lia|]. simpl.
  destruct (Z.gtb_spec (shard.maxCost s) 0) as [Hmc|]; [|done]. simpl.
  destruct (Z.gtb_spec (shard.cost s) (shard.maxCost s)); [lia|done].
Qed.

(** X22. The list operations on a shard whose nodes are chained as the
    list [l1 ++ n :: l2], most recently used first.  [moveToFront(n)]
    chains them as [n :: l1 ++ l2] and leaves [len] and [cost] alone;
    [removeNode(n)] chains the others as [l1 ++ l2], decrements [len],
    subtracts the cost of [n] from [cost] (clamped at 0) and clears the
    links of [n].  Neither touches a key, a value, a deadline or a cost. *)
Theorem list_ops_refine s l1 n l2 :
  dll (shard.heap s) (shard.head s) (shard.tail s) (l1 ++ n :: l2) →
  (∃ s', shard.moveToFront n s = Some s' ∧
         dll (shard.heap s') (shard.head s') (shard.tail s') (n :: l1 ++ l2) ∧
         same_payload (shard.heap s) (shard.heap s') ∧
         shard.len s' = shard.len s ∧ shard.cost s' = shard.cost s) ∧
  (∃ s' x x', shard.heap s !! n = Some x ∧
         shard.removeNode n s = Some s' ∧
         dll (shard.heap s') (shard.head s') (shard.tail s') (l1 ++ l2) ∧
         same_payload (shard.heap s) (shard.heap s') ∧
         shard.len s' = wrap64 (shard.len s - 1) ∧
         shard.cost s' = Z.max 0 (wrap64 (shard.cost s - ncost x)) ∧
         shard.heap s' !! n = Some x' ∧ prev x' = None ∧ next x' = None).
Proof.
  intros Hdll. split.
  - destruct (moveToFront_spec s l1 n l2 Hdll) as (s' & Hrun & Hdll' & Hpl & Hl & Hc & _).
    by exists s'.
  - destruct (removeNode_spec s l1 n l2 Hdll)
      as (s' & x & Hx & Hrun & Hdll' & Hpl & Hl & Hc & _).
    assert (∃ x', shard.heap s' !! n = Some x' ∧ prev x' = None ∧ next x' = None)
      as (x' & Hx' & Hp & Hn).
    { revert Hrun. unfold shard.removeNode. rewrite Hx. simpl.
      destruct (shard.store_opt (prev x) _ _) as [h1|]; simpl; [|done].
      destruct (h1 !! n) as [x1|]; simpl; [|done].
      destruct (shard.store_opt (next x1) _ _) as [h2|]; simpl; [|done].
      destruct (h2 !! n) as [x2|] eqn:Hx2; simpl; [|done].
      unfold shard.store. rewrite Hx2. simpl. intros [= <-]. simpl.
      rewrite lookup_insert_eq. by eexists. }
    exists s', x, x'. split_and!; try done.
    rewrite Hc. cbv zeta. destruct (Z.ltb_spec (wrap64 (shard.cost s - ncost x)) 0); lia.
Qed.

(** X23. [insertFront] and [removeNode] undo each other: on a
    well-formed shard with list [l], linking a node that is not in the
    list and unlinking it again leaves the list [l], and [len] and [cost]
    as they were. *)
Theorem insertFront_removeNode s l n (x : node) :
  wf s l → shard.heap s !! n = Some x → n ∉ l → 0 <= ncost x <= MaxInt32 →
  ∃ s1 s2,
    shard.insertFront n s = Some s1 ∧
    dll (shard.heap s1) (shard.head s1) (shard.tail s1) (n :: l) ∧
    shard.removeNode n s1 = Some s2 ∧
    dll (shard.heap s2) (shard.head s2) (shard.tail s2) l ∧
    shard.len s2 = shard.len s ∧ shard.cost s2 = shard.cost s ∧
    same_payload (shard.heap s) (shard.heap s2).
Proof.
  intros Hwf Hx Hn Hc.
  destruct (insertFront_spec s l n x (wf_dll _ _ Hwf) Hx Hn)
    as (s1 & Hins & Hdll1 & Hpl1 & Hl1 & Hc1 & _).
  destruct (removeNode_spec s1 [] n l Hdll1)
    as (s2 & x1 & Hx1 & Hrem & Hdll2 & Hpl2 & Hl2 & Hc2 & _).
  exists s1, s2. split_and!; try done.
  - pose proof (wf_len _ _ Hwf) as Hl. pose proof (wf_length_bound _ _ Hwf) as Hb.
    rewrite Hl2, Hl1, Hl.
    rewrite (wrap64_id (_ + 1)) by (unfold MinInt64, MaxInt64; lia).
    rewrite wrap64_id by (unfold MinInt64, MaxInt64; lia). lia.
  - destruct (same_payload_lookup _ _ n x Hpl1 Hx) as (x1' & Hx1' & Hxx).
    assert (x1' = x1) as -> by congruence.
    rewrite (payload_ncost _ _ Hxx) in Hc2.
    pose proof (wf_cost _ _ Hwf) as Hcs. pose proof (wf_length_bound _ _ Hwf) as Hb.
    pose proof (sum_cost_bound (shard.heap s) l (wf_ncost _ _ Hwf)) as Hsb.
    unfold MaxInt32 in *.
    rewrite Hc2, Hc1. cbv zeta.
    rewrite (wrap64_id (_ + _)) by (unfold MinInt64, MaxInt64; nia).
    replace (shard.cost s + ncost x - ncost x) with (shard.cost s) by lia.
    rewrite wrap64_id by (unfold MinInt64, MaxInt64; nia).
    destruct (Z.ltb_spec (shard.cost s) 0); lia.
  - by eapply same_payload_trans.
Qed.
End list_ops.

Lemma enforce_within_limits_witness :
  cache.shard.enforceLimitsLocked samples.shard_k
    = Some (cache.shard.emit
              (cache.Size (cache.shard.len samples.shard_k)
                 (cache.shard.cost samples.shard_k)) samples.shard_k).
Proof. apply (enforce_within_limits samples.shard_k). exact shard_k_inv. Defined.

Lemma list_ops_refine_witness :
  (∃ s', cache.shard.moveToFront 0%nat samples.shard_k = Some s' ∧
         dll (cache.shard.heap s') (cache.shard.head s') (cache.shard.tail s')
           [0%nat] ∧
         same_payload (cache.shard.heap samples.shard_k) (cache.shard.heap s') ∧
         cache.shard.len s' = cache.shard.len samples.shard_k ∧
         cache.shard.cost s' = cache.shard.cost samples.shard_k) ∧
  (∃ s' x x', cache.shard.heap samples.shard_k !! 0%nat = Some x ∧
         cache.shard.removeNode 0%nat samples.shard_k = Some s' ∧
         dll (cache.shard.heap s') (cache.shard.head s') (cache.shard.tail s') [] ∧
         same_payload (cache.shard.heap samples.shard_k) (cache.shard.heap s') ∧
         cache.shard.len s' = wrap64 (cache.shard.len samples.shard_k - 1) ∧
         cache.shard.cost s'
           = Z.max 0 (wrap64 (cache.shard.cost samples.shard_k - cache.ncost x)) ∧
         cache.shard.heap s' !! 0%nat = Some x' ∧
         cache.prev x' = None ∧ cache.next x' = None).
Proof.
  apply (list_ops_refine samples.shard_k [] 0%nat []).
  exact (wf_dll _ _ shard_k_wf).
Defined.

Lemma shard_gone_wf : wf samples.shard_gone [].
Proof.
  destruct (Remove_inv samples.shard_k "k"%string shard_k_inv) as (r & s' & E & Hinv).
  assert (samples.shard_gone = s') as <-.
  { unfold samples.shard_gone. by rewrite E. }
  destruct Hinv as (l & Hwf & _).
  pose proof (wf_len _ _ Hwf) as Hl.
  assert (cache.shard.len samples.shard_gone = 0) as Hz by (vm_compute; reflexivity).
  rewrite Hz in Hl. destruct l; [done|]. simpl in Hl. lia.
Qed.

Lemma insertFront_removeNode_witness :
  ∃ s1 s2,
    cache.shard.insertFront 0%nat samples.shard_gone = Some s1 ∧
    dll (cache.shard.heap s1) (cache.shard.head s1) (cache.shard.tail s1) [0%nat] ∧
    cache.shard.removeNode 0%nat s1 = Some s2 ∧
    dll (cache.shard.heap s2) (cache.shard.head s2) (cache.shard.tail s2) [] ∧
    cache.shard.len s2 = cache.shard.len samples.shard_gone ∧
    cache.shard.cost s2 = cache.shard.cost samples.shard_gone ∧
    same_payload (cache.shard.heap samples.shard_gone) (cache.shard.heap s2).
Proof.
  apply (insertFront_removeNode samples.shard_gone [] 0%nat
           (cache.mkNode "k"%string 7 None None 5 1)).
  - exact shard_gone_wf.
  - vm_compute. reflexivity.
  - apply not_elem_of_nil.
  - simpl. unfold MaxInt32. lia.
Defined.


(** * The size of A1in *)

Section a1in_facts.
Context {K V : Type} `{Countable K}.
Import cache.
Local Abbreviation node := (node K V).
Implicit Types (h : gmap ptr node) (l : list ptr) (p n : ptr) (s : shard.t K V).

Lemma trimGhosts_in fuel (q : twoq.twoQ K) :
  twoq.inList (twoq.trimGhosts fuel q) = twoq.inList q ∧
  twoq.inIdx (twoq.trimGhosts fuel q) = twoq.inIdx q ∧
  twoq.capIn (twoq.trimGhosts fuel q) = twoq.capIn q.
Proof.
  revert q. induction fuel as [|fuel IH]; intros q; simpl; [done|].
  destruct (_ >? _); [|done]. destruct (last _) as [kk|]; [|done].
  destruct (IH (twoq.set_ghost (removelast (twoq.ghostList q))
                  (twoq.ghostIdx q ∖ {[kk]}) q)) as (H1 & H2 & H3).
  by rewrite H1, H2, H3.
Qed.

(** [OnRemove] on a node of A1in, as far as A1in goes. *)
Lemma OnRemove_in_a1in {L} `{!policy.Node K L, !policy.Hooks L}
    (q : twoq.twoQ K) n (st : L) q' (st' : L) :
  n ∈ twoq.inIdx q → twoq.OnRemove n q st = Some (q', st') →
  twoq.inList q' = remove_first n (twoq.inList q) ∧ twoq.capIn q' = twoq.capIn q.
Proof.
  intros Hn. unfold twoq.OnRemove. rewrite decide_True by done.
  destruct (policy.Key n st) as [k|]; [|done].
  unfold mbind, option_bind. cbv beta iota zeta.
  match goal with |- context [twoq.trimGhosts ?f ?q1] =>
    destruct (trimGhosts_in f q1) as (Hl & _ & Hc); revert Hl Hc;
    generalize (twoq.trimGhosts f q1) end.
  intros qq Hl Hc Heq. injection Heq as <- _. by rewrite Hl, Hc.
Qed.

(** [OnRemove] takes the node out of A1in, if it is there, and leaves the
    rest of A1in alone. *)
Lemma pol_OnRemove_a1in n s s' :
  shard.pol_OnRemove n s = Some s' →
  a1in_cap (shard.pol s') = a1in_cap (shard.pol s) ∧
  a1in_len (shard.pol s') <= a1in_len (shard.pol s) ∧
  (∀ q, shard.pol s = ShardTwoQ q → n ∈ twoq.inIdx q → n ∈ twoq.inList q →
        a1in_len (shard.pol s') = a1in_len (shard.pol s) - 1).
Proof.
  unfold shard.pol_OnRemove. destruct (shard.pol s) as [p0|q] eqn:Hp.
  - simpl. intros [= <-]. simpl. split_and!; try done.
  - destruct (twoq.OnRemove n q s) as [[q' s1]|] eqn:HOn; [|done].
    change (Some (q', s1) ≫= _) with (Some (shard.set_pol (ShardTwoQ q') s1)).
    intros Heq. injection Heq as <-.
    change (shard.pol (shard.set_pol (ShardTwoQ q') s1)) with (ShardTwoQ q').
    unfold a1in_cap, a1in_len.
    destruct (decide (n ∈ twoq.inIdx q)) as [Hin|Hin].
    + destruct (OnRemove_in_a1in q n s q' s1 Hin HOn) as [-> ->].
      pose proof (remove_first_length n (twoq.inList q)).
      split_and!; [done|lia|].
      intros q0 [= <-] _ Hl. pose proof (remove_first_length_in n _ Hl). lia.
    + revert HOn. unfold twoq.OnRemove. rewrite decide_False by done.
      intros [= <- _]. split_and!; try done. intros q0 [= <-] Hn. done.
Qed.

Lemma removeNode_pol n s s' : shard.removeNode n s = Some s' → shard.pol s' = shard.pol s.
Proof.
  unfold shard.removeNode.
  destruct (shard.heap s !! n) as [x|]; simpl; [|done].
  destruct (shard.store_opt (prev x) _ _) as [h1|]; simpl; [|done].
  destruct (h1 !! n) as [x1|]; simpl; [|done].
  destruct (shard.store_opt (next x1) _ _) as [h2|]; simpl; [|done].
  destruct (h2 !! n) as [x2|]; simpl; [|done].
  destruct (shard.store n _ h2) as [h3|]; simpl; [|done].
  by intros [= <-].
Qed.

Lemma moveToFront_pol n s s' :
  shard.moveToFront n s = Some s' → shard.pol s' = shard.pol s.
Proof.
  unfold shard.moveToFront. destruct (decide (shard.head s = Some n)); [by intros [= <-]|].
  destruct (shard.heap s !! n) as [x|]; simpl; [|done].
  destruct (shard.store_opt (prev x) _ _) as [h1|]; simpl; [|done].
  destruct (h1 !! n) as [x1|]; simpl; [|done].
  destruct (shard.store_opt (next x1) _ _) as [h2|]; simpl; [|done].
  destruct (h2 !! n) as [x2|]; simpl; [|done].
  destruct (shard.store n _ h2) as [h3|]; simpl; [|done].
  destruct (shard.store_opt (shard.head s) _ h3) as [h4|]; simpl; [|done].
  by intros [= <-].
Qed.

Lemma insertFront_pol n s s' :
  shard.insertFront n s = Some s' → shard.pol s' = shard.pol s.
Proof.
  unfold shard.insertFront.
  destruct (shard.store n _ _) as [h1|]; simpl; [|done].
  destruct (shard.store_opt (shard.head s) _ h1) as [h2|]; simpl; [|done].
  destruct (h2 !! n) as [x2|]; simpl; [|done].
  by intros [= <-].
Qed.

Lemma evictNode_a1in n r s s' :
  shard.evictNode n r s = Some s' →
  a1in_cap (shard.pol s') = a1in_cap (shard.pol s) ∧
  a1in_len (shard.pol s') <= a1in_len (shard.pol s) ∧
  (∀ q, shard.pol s = ShardTwoQ q → n ∈ twoq.inIdx q → n ∈ twoq.inList q →
        a1in_len (shard.pol s') = a1in_len (shard.pol s) - 1).
Proof.
  unfold shard.evictNode.
  destruct (shard.pol_OnRemove n s) as [s1|] eqn:H1; simpl; [|done].
  destruct (shard.removeNode n s1) as [s2|] eqn:H2; simpl; [|done].
  destruct (shard.heap s2 !! n) as [x|]; simpl; [|done].
  intros [= <-].
  assert (shard.pol (if OnEvict (shard.opt s2)
                     then shard.emit (OnEvictCall (key x) (val x) r)
                            (shard.emit (Evict r)
                               (shard.set_evicts (wrapu64 (shard.evicts s2 + 1))
                                  (shard.set_m (delete (key x) (shard.m s2)) s2)))
                     else shard.emit (Evict r)
                            (shard.set_evicts (wrapu64 (shard.evicts s2 + 1))
                               (shard.set_m (delete (key x) (shard.m s2)) s2)))
          = shard.pol s1) as Hpol.
  { rewrite <- (removeNode_pol n s1 s2 H2). by destruct (OnEvict _). }
  simpl in Hpol |- *. rewrite Hpol. by apply pol_OnRemove_a1in.
Qed.

Lemma evictWhileLen_a1in fuel s s' :
  shard.evictWhileLen fuel s = Some s' →
  a1in_cap (shard.pol s') = a1in_cap (shard.pol s) ∧
  a1in_len (shard.pol s') <= a1in_len (shard.pol s).
Proof.
  revert s. induction fuel as [|fuel IH]; intros s; simpl; [done|].
  destruct (_ >? _); [|by intros [= <-]].
  destruct (shard.back s) as [tl|]; [|by intros [= <-]].
  destruct (shard.evictNode tl EvictPolicy s) as [s1|] eqn:Hev; simpl; [|done].
  intros Hrun. destruct (evictNode_a1in _ _ _ _ Hev) as (Hc & Hl & _).
  destruct (IH s1 Hrun) as (Hc' & Hl'). split; [congruence|lia].
Qed.

Lemma evictWhileCost_a1in fuel s s' :
  shard.evictWhileCost fuel s = Some s' →
  a1in_cap (shard.pol s') = a1in_cap (shard.pol s) ∧
  a1in_len (shard.pol s') <= a1in_len (shard.pol s).
Proof.
  revert s. induction fuel as [|fuel IH]; intros s; simpl; [done|].
  destruct (_ >? _); [|by intros [= <-]].
  destruct (shard.back s) as [tl|]; [|by intros [= <-]].
  destruct (shard.evictNode tl EvictCapacity s) as [s1|] eqn:Hev; simpl; [|done].
  intros Hrun. destruct (evictNode_a1in _ _ _ _ Hev) as (Hc & Hl & _).
  destruct (IH s1 Hrun) as (Hc' & Hl'). split; [congruence|lia].
Qed.

Lemma enforce_a1in s s' :
  shard.enforceLimitsLocked s = Some s' →
  a1in_cap (shard.pol s') = a1in_cap (shard.pol s) ∧
  a1in_len (shard.pol s') <= a1in_len (shard.pol s).
Proof.
  unfold shard.enforceLimitsLocked.
  destruct (shard.evictWhileLen _ s) as [s1|] eqn:H1; [|done].
  destruct (evictWhileLen_a1in _ _ _ H1) as (Hc1 & Hl1).
  cbn -[shard.loop_fuel shard.evictWhileCost].
  destruct (shard.maxCost s1 >? 0).
  - destruct (shard.evictWhileCost (shard.loop_fuel s1) s1) as [s2|] eqn:H2; [|done].
    destruct (evictWhileCost_a1in _ _ _ H2) as (Hc2 & Hl2).
    cbn. intros [= <-]. cbn. split; [congruence|lia].
  - cbn. intros [= <-]. cbn. done.
Qed.

(** [OnGet] and [OnUpdate] can only shorten A1in. *)
Lemma promote_a1in (f : ptr → shard.t K V → option (shard.t K V)) n s s' :
  f = shard.pol_OnGet ∨ f = shard.pol_OnUpdate →
  f n s = Some s' →
  a1in_cap (shard.pol s') = a1in_cap (shard.pol s) ∧
  a1in_len (shard.pol s') <= a1in_len (shard.pol s).
Proof.
  assert (shard.pol_OnUpdate n s = shard.pol_OnGet n s) as Heq.
  { unfold shard.pol_OnUpdate, shard.pol_OnGet. by destruct (shard.pol s). }
  intros [-> | ->]; rewrite ?Heq; unfold shard.pol_OnGet;
    destruct (shard.pol s) as [p0|q] eqn:Hp.
  1,3: unfold lru.OnGet; destruct (policy.MoveToFront n s) as [s1|]; simpl; [|done];
       intros [= <-]; simpl; done.
  all: unfold twoq.OnGet; destruct (policy.MoveToFront n s) as [s1|]; simpl; [|done];
       intros [= <-]; simpl; destruct (decide (n ∈ twoq.inIdx q)); simpl; [|done];
       pose proof (remove_first_length n (twoq.inList q)); split; [done|lia].
Qed.

(** [OnAdd] lengthens A1in by one node at most, and names the node at its
    back when A1in is over its capacity. *)
Lemma pol_OnAdd_a1in n s ev s' :
  a1in_ok s → shard.pol_OnAdd n s = Some (ev, s') →
  a1in_cap (shard.pol s') = a1in_cap (shard.pol s) ∧
  match ev with
  | None => a1in_ok s'
  | Some e =>
      ∃ q', shard.pol s' = ShardTwoQ q' ∧ e ∈ twoq.inList q' ∧
            Z.of_nat (length (twoq.inList q')) <= twoq.capIn q' + 1
  end.
Proof.
  unfold a1in_ok, shard.pol_OnAdd. destruct (shard.pol s) as [p0|q] eqn:Hp; simpl.
  - intros _. unfold lru.OnAdd. destruct (policy.PushFront n s); simpl; [|done].
    intros [= <- <-]. simpl. unfold a1in_ok. simpl. done.
  - intros Hok. unfold twoq.OnAdd. destruct (policy.Key n s) as [k|]; simpl; [|done].
    destruct (decide (k ∈ twoq.ghostIdx q)).
    + destruct (shard.insertFront n s); simpl; [|done]. intros [= <- <-]. simpl.
      unfold a1in_ok. simpl. done.
    + destruct (shard.insertFront n s); simpl; [|done].
      destruct (Z.gtb_spec (Z.of_nat (S (length (twoq.inList q)))) (twoq.capIn q))
        as [Hgt|Hle].
      * destruct (last (n :: twoq.inList q)) as [e|] eqn:Hlast; simpl.
        -- intros [= <- <-]. simpl. split; [done|]. eexists. split; [done|].
           simpl. split; [by apply last_Some_elem_of|lia].
        -- by apply last_None in Hlast.
      * intros [= <- <-]. simpl. unfold a1in_ok. simpl. split; [done|lia].
Qed.

Lemma insertNew_a1in s (k : K) (v : V) ttl c s' :
  inv s → a1in_ok s → shard.m s !! k = None → 0 <= c <= MaxInt32 →
  shard.insertNew k v ttl c s = Some s' → a1in_ok s'.
Proof.
  intros (l & Hwf & Hlen & _) Hok Hk Hc Hrun.
  destruct (insert_spec s l k v ttl c Hwf Hlen Hk Hc)
    as (n & sa & ev & s1 & Halloc & Hnl & HOnAdd & Hwf1 & _).
  assert (a1in_ok sa) as Hoka.
  { unfold shard.alloc in Halloc. injection Halloc as _ <-. exact Hok. }
  destruct (pol_OnAdd_a1in n sa ev s1 Hoka HOnAdd) as (Hcap & Hev).
  unfold shard.insertNew in Hrun. rewrite Halloc, HOnAdd in Hrun.
  cbn -[shard.enforceLimitsLocked shard.evictNode] in Hrun.
  destruct ev as [e|].
  - destruct Hev as (q' & Hq' & He & Hlen').
    destruct (shard.evictNode e EvictPolicy s1) as [s2|] eqn:Hev2; [|done].
    cbn -[shard.enforceLimitsLocked] in Hrun.
    destruct (evictNode_a1in _ _ _ _ Hev2) as (Hc2 & _ & Hl2).
    pose proof (wf_pol _ _ Hwf1) as Hpi. rewrite Hq' in Hpi. destruct Hpi as [Hinv _].
    specialize (Hl2 q' Hq' (proj2 (in_idx _ _ Hinv e) He) He).
    destruct (enforce_a1in _ _ Hrun) as (Hc3 & Hl3).
    unfold a1in_ok. rewrite Hq' in Hl2, Hc2. simpl in Hl2, Hc2. lia.
  - cbn -[shard.enforceLimitsLocked] in Hrun.
    destruct (enforce_a1in _ _ Hrun) as (Hc3 & Hl3).
    unfold a1in_ok in *. lia.
Qed.

Lemma Set_a1in s (k : K) (v : V) ttl c s' :
  inv s → a1in_ok s → 0 <= c <= MaxInt32 →
  shard.Set_ k v ttl c s = Some s' → a1in_ok s'.
Proof.
  intros Hinv Hok Hc. unfold shard.Set_.
  destruct (shard.m s !! k) as [n|] eqn:Hk; [|by apply insertNew_a1in].
  destruct (shard.heap s !! n) as [x|]; [|done].
  cbn -[shard.enforceLimitsLocked shard.pol_OnUpdate].
  match goal with |- context [shard.pol_OnUpdate n ?s0] =>
    destruct (shard.pol_OnUpdate n s0) as [s1|] eqn:Hup; [|done];
    destruct (promote_a1in shard.pol_OnUpdate n s0 s1 (or_intror eq_refl) Hup)
      as (Hc1 & Hl1) end.
  cbn -[shard.enforceLimitsLocked]. intros Hrun.
  destruct (enforce_a1in _ _ Hrun) as (Hc3 & Hl3).
  unfold a1in_ok in *. simpl in Hc1, Hl1. lia.
Qed.

Lemma Add_a1in s (k : K) (v : V) ttl c r s' :
  inv s → a1in_ok s → 0 <= c <= MaxInt32 →
  shard.Add k v ttl c s = Some (r, s') → a1in_ok s'.
Proof.
  intros Hinv Hok Hc. unfold shard.Add.
  destruct (shard.m s !! k) as [n|] eqn:Hk; [by intros [= _ <-]|].
  destruct (shard.insertNew k v ttl c s) as [s1|] eqn:Hins; [|done].
  cbn. intros [= _ <-]. by eapply insertNew_a1in.
Qed.

Lemma Get_a1in s now (k : K) r s' :
  a1in_ok s → shard.Get now k s = Some (r, s') → a1in_ok s'.
Proof.
  intros Hok. unfold shard.Get.
  destruct (shard.m s !! k) as [n|]; [|by intros [= _ <-]].
  destruct (shard.heap s !! n) as [x|]; [|done]. cbn -[shard.evictNode shard.pol_OnGet].
  destruct (shard.expiredLocked now x).
  - destruct (shard.evictNode n EvictTTL s) as [s1|] eqn:Hev; [|done].
    destruct (evictNode_a1in _ _ _ _ Hev) as (Hc1 & Hl1 & _).
    cbn. intros [= _ <-]. unfold a1in_ok in *. cbn. lia.
  - destruct (shard.pol_OnGet n s) as [s1|] eqn:Hg; [|done].
    destruct (promote_a1in shard.pol_OnGet n s s1 (or_introl eq_refl) Hg) as (Hc1 & Hl1).
    cbn. destruct (shard.heap s1 !! n); [|done].
    cbn. intros [= _ <-]. unfold a1in_ok in *. cbn. lia.
Qed.

Lemma Remove_a1in s (k : K) r s' :
  a1in_ok s → shard.Remove k s = Some (r, s') → a1in_ok s'.
Proof.
  intros Hok. unfold shard.Remove.
  destruct (shard.m s !! k) as [n|]; [|by intros [= _ <-]].
  destruct (shard.pol_OnRemove n s) as [s1|] eqn:H1; [|done].
  destruct (pol_OnRemove_a1in _ _ _ H1) as (Hc1 & Hl1 & _).
  cbn -[shard.removeNode].
  destruct (shard.removeNode n s1) as [s2|] eqn:H2; [|done].
  pose proof (removeNode_pol _ _ _ H2) as Hp.
  cbn. intros [= _ <-]. unfold a1in_ok in *. cbn. rewrite Hp. lia.
Qed.

Lemma newShard_a1in procs capacity (pl : Policy) (o : Options K V) :
  a1in_ok (shard.newShard procs capacity pl o).
Proof.
  unfold a1in_ok. destruct pl as [|a b]; simpl; [done|].
  destruct (a <? 1) eqn:E; simpl; [lia|]. apply Z.ltb_ge in E. lia.
Qed.
End a1in_facts.

Section a1in_cache.
Context {K V : Type} `{Countable K} `{!util.Fnv64aKey K}.
Import cache.
Implicit Types (c : cache.t K V) (s : shard.t K V) (o : Options K V).

Lemma getShard_Forall (P : shard.t K V → Prop) k c s :
  Forall P (shards c) → cache.getShard k c = Some s → P s.
Proof.
  intros Hall. unfold cache.getShard. destruct (_ <? 0); [done|].
  intros Hs. by eapply Forall_lookup_1.
Qed.

Lemma putShard_Forall (P : shard.t K V → Prop) k c s :
  Forall P (shards c) → P s → Forall P (shards (cache.putShard k s c)).
Proof. intros Hall Hs. unfold cache.putShard. simpl. by apply Forall_insert. Qed.

Lemma Get_a1in_cache now k c r c' :
  shards_inv c → Forall a1in_ok (shards c) →
  cache.Get now k c = Some (r, c') → Forall a1in_ok (shards c').
Proof.
  intros Hc Hall Hop.
  destruct (Get_steps now k c r c' Hc Hop)
    as [(_ & _ & ->)|(_ & s & s' & Hs & Hinv & Hsop & ->)]; [done|].
  apply putShard_Forall; [done|].
  apply (Get_a1in s now k r s' (getShard_Forall a1in_ok k c s Hall Hs) Hsop).
Qed.

Lemma Set_a1in_cache now k v c c' :
  shards_inv c → Forall a1in_ok (shards c) →
  cache.Set_ now k v c = Some c' → Forall a1in_ok (shards c').
Proof.
  intros Hc Hall Hop.
  destruct (Set_steps now k v c c' Hc Hop)
    as [(_ & ->)|(_ & s & s' & Hs & Hinv & Hsop & ->)]; [done|].
  apply putShard_Forall; [done|].
  apply (Set_a1in s k v _ _ s' Hinv (getShard_Forall a1in_ok k c s Hall Hs)
           (costOf_range v c) Hsop).
Qed.

Lemma run_op_a1in (x : op K V) c c' :
  cache_inv c → Forall a1in_ok (shards c) →
  cache.run_op x c = Some c' → Forall a1in_ok (shards c').
Proof.
  intros Hci Hall. pose proof Hci as [Hc Hsf]. destruct x; simpl.
  - destruct (cache.Add now k v c) as [[r c1]|] eqn:Hop; simpl; [|done].
    intros [= <-].
    destruct (Add_steps now k v c r c1 Hc Hop)
      as [(_ & _ & ->)|(_ & s & s' & Hs & Hinv & Hsop & ->)]; [done|].
    apply putShard_Forall; [done|].
    apply (Add_a1in s k v _ _ r s' Hinv (getShard_Forall a1in_ok k c s Hall Hs)
             (costOf_range v c) Hsop).
  - by apply Set_a1in_cache.
  - intros Hop.
    destruct (SetWithTTL_steps now k v ttl c c' Hc Hop)
      as [(_ & ->)|(_ & s & s' & Hs & Hinv & Hsop & ->)]; [done|].
    apply putShard_Forall; [done|].
    apply (Set_a1in s k v _ _ s' Hinv (getShard_Forall a1in_ok k c s Hall Hs)
             (costOf_range v c) Hsop).
  - destruct (cache.Get now k c) as [[r c1]|] eqn:Hop; simpl; [|done].
    intros [= <-]. by eapply Get_a1in_cache.
  - destruct (cache.Remove k c) as [[r c1]|] eqn:Hop; simpl; [|done].
    intros [= <-].
    destruct (Remove_steps k c r c1 Hc Hop)
      as [(_ & _ & ->)|(_ & s & s' & Hs & Hinv & Hsop & ->)]; [done|].
    apply putShard_Forall; [done|].
    apply (Remove_a1in s k r s' (getShard_Forall a1in_ok k c s Hall Hs) Hsop).
  - destruct (cache.GetOrLoad now1 now2 now3 k c) as [[r c1]|] eqn:Hop; simpl; [|done].
    intros [= <-].
    destruct (GetOrLoad_steps now1 now2 now3 k c r c1 Hci Hop)
      as (r1 & c2 & Hget1 & Hrest).
    pose proof (Get_a1in_cache now1 k c r1 c2 Hc Hall Hget1) as Hall2.
    destruct (Get_keeps now1 k c r1 c2 Hc Hget1) as ((Hc2 & _) & _).
    destruct r1 as [v|]; [by destruct Hrest as [_ ->]|].
    destruct (Loader (opt c)) as [load|]; [|by destruct Hrest as [_ ->]].
    destruct Hrest as (r2 & c3 & Hget2 & Hrest).
    pose proof (Get_a1in_cache now2 k c2 r2 c3 Hc2 Hall2 Hget2) as Hall3.
    destruct (Get_keeps now2 k c2 r2 c3 Hc2 Hget2) as ((Hc3 & _) & _).
    destruct r2 as [v|]; [by destruct Hrest as [_ ->]|].
    destruct (load k) as [v|e]; [|by destruct Hrest as [_ ->]].
    destruct Hrest as [_ Hset]. by eapply Set_a1in_cache.
  - by intros [= <-].
Qed.

Lemma run_a1in (ops : list (op K V)) c c' :
  cache_inv c → Forall a1in_ok (shards c) →
  cache.run ops c = Some c' → Forall a1in_ok (shards c').
Proof.
  revert c. induction ops as [|x ops IH]; intros c Hc Hall; simpl.
  - by intros [= <-].
  - destruct (cache.run_op x c) as [c1|] eqn:Hop; simpl; [|done].
    destruct (run_op_keeps x c c1 Hc Hop) as (Hc1 & _).
    apply IH; [done|]. exact (run_op_a1in x c c1 Hc Hall Hop).
Qed.

(** X24. Between the operations of a cache, the queue A1in of every
    shard under the 2Q policy holds at most [capIn] nodes: the node [OnAdd]
    proposes when A1in overflows is evicted before the operation
    returns. *)
Theorem a1in_bounded (o : Options K V) (c : cache.t K V) :
  reachable o c → Forall a1in_ok (shards c).
Proof.
  intros Hr. pose proof Hr as (procs & c0 & ops & Hnew & Hcap & Hrun).
  apply (run_a1in ops c0 c); [by eapply New_inv| |done].
  revert Hnew. unfold cache.New. destruct (_ <=? 0); [done|].
  destruct (makeslice_panics _ _); [done|]. intros [= <-]. simpl.
  apply Forall_replicate, newShard_a1in.
Qed.
End a1in_cache.

Lemma a1in_bounded_witness :
  Forall a1in_ok
    (cache.shards
       (samples.after [cache.OpSet 0 "a" 1; cache.OpSet 0 "b" 2]%string
          samples.opt_2q)).
Proof.
  apply (a1in_bounded samples.opt_2q).
  exists 1, (samples.build samples.opt_2q),
    [cache.OpSet 0 "a" 1; cache.OpSet 0 "b" 2]%string.
  split; [reflexivity|]. split; [vm_compute; reflexivity|].
  vm_compute. reflexivity.
Defined.


(** * Counters and reports *)

Section counter_facts.
Context {K V : Type} `{Countable K}.
Import cache.
Local Abbreviation node := (node K V).
Implicit Types (h : gmap ptr node) (l : list ptr) (p n : ptr) (s : shard.t K V).

Lemma wrap64_succ a : wrap64 (wrap64 a + 1) = wrap64 (a + 1).
Proof.
  unfold wrap64. f_equal.
  replace ((a + 2 ^ 63) mod 2 ^ 64 - 2 ^ 63 + 1 + 2 ^ 63)
    with ((a + 2 ^ 63) mod 2 ^ 64 + 1) by lia.
  rewrite Z.add_mod_idemp_l by lia. f_equal. lia.
Qed.

Lemma wrapu64_succ a : wrapu64 (wrapu64 a + 1) = wrapu64 (a + 1).
Proof. unfold wrapu64. by rewrite Z.add_mod_idemp_l by lia. Qed.

Lemma removeNode_obs n s s' : shard.removeNode n s = Some s' → obs s' = obs s.
Proof.
  unfold shard.removeNode.
  destruct (shard.heap s !! n) as [x|]; simpl; [|done].
  destruct (shard.store_opt (prev x) _ _) as [h1|]; simpl; [|done].
  destruct (h1 !! n) as [x1|]; simpl; [|done].
  destruct (shard.store_opt (next x1) _ _) as [h2|]; simpl; [|done].
  destruct (h2 !! n) as [x2|]; simpl; [|done].
  destruct (shard.store n _ h2) as [h3|]; simpl; [|done].
  by intros [= <-].
Qed.

Lemma moveToFront_obs n s s' : shard.moveToFront n s = Some s' → obs s' = obs s.
Proof.
  unfold shard.moveToFront. destruct (decide (shard.head s = Some n)); [by intros [= <-]|].
  destruct (shard.heap s !! n) as [x|]; simpl; [|done].
  destruct (shard.store_opt (prev x) _ _) as [h1|]; simpl; [|done].
  destruct (h1 !! n) as [x1|]; simpl; [|done].
  destruct (shard.store_opt (next x1) _ _) as [h2|]; simpl; [|done].
  destruct (h2 !! n) as [x2|]; simpl; [|done].
  destruct (shard.store n _ h2) as [h3|]; simpl; [|done].
  destruct (shard.store_opt (shard.head s) _ h3) as [h4|]; simpl; [|done].
  by intros [= <-].
Qed.

Lemma insertFront_obs n s s' : shard.insertFront n s = Some s' → obs s' = obs s.
Proof.
  unfold shard.insertFront.
  destruct (shard.store n _ _) as [h1|]; simpl; [|done].
  destruct (shard.store_opt (shard.head s) _ h1) as [h2|]; simpl; [|done].
  destruct (h2 !! n) as [x2|]; simpl; [|done].
  by intros [= <-].
Qed.

(** The callbacks of 2Q act on the shard through the hooks only. *)
Lemma twoq_OnRemove_store (q q' : twoq.twoQ K) n s s' :
  twoq.OnRemove n q s = Some (q', s') → s' = s.
Proof.
  unfold twoq.OnRemove. destruct (decide (n ∈ twoq.inIdx q)); [|by intros [= _ <-]].
  destruct (policy.Key n s) as [k|]; [|done].
  unfold mbind, option_bind. cbv beta iota zeta. intros Heq. by injection Heq as _ <-.
Qed.

Lemma pol_OnRemove_obs n s s' : shard.pol_OnRemove n s = Some s' → obs s' = obs s.
Proof.
  unfold shard.pol_OnRemove. destruct (shard.pol s) as [p0|q].
  - simpl. by intros [= <-].
  - destruct (twoq.OnRemove n q s) as [[q' s1]|] eqn:HOn; [|done].
    apply twoq_OnRemove_store in HOn as ->.
    change (Some (q', s) ≫= _) with (Some (shard.set_pol (ShardTwoQ q') s)).
    by intros [= <-].
Qed.

Lemma promote_obs (f : ptr → shard.t K V → option (shard.t K V)) n s s' :
  f = shard.pol_OnGet ∨ f = shard.pol_OnUpdate → f n s = Some s' → obs s' = obs s.
Proof.
  assert (shard.pol_OnUpdate n s = shard.pol_OnGet n s) as Heq.
  { unfold shard.pol_OnUpdate, shard.pol_OnGet. by destruct (shard.pol s). }
  intros [-> | ->]; rewrite ?Heq; unfold shard.pol_OnGet;
    destruct (shard.pol s) as [p0|q] eqn:Hp.
  1,3: unfold lru.OnGet.
  3,4: unfold twoq.OnGet.
  all: destruct (policy.MoveToFront n s) as [s1|] eqn:Hm; simpl; [|done];
       intros [= <-]; exact (moveToFront_obs n s s1 Hm).
Qed.

Lemma pol_OnAdd_obs n s ev s' : shard.pol_OnAdd n s = Some (ev, s') → obs s' = obs s.
Proof.
  unfold shard.pol_OnAdd. destruct (shard.pol s) as [p0|q].
  - unfold lru.OnAdd. destruct (policy.PushFront n s) as [s1|] eqn:Hp; simpl; [|done].
    intros [= _ <-]. exact (insertFront_obs n s s1 Hp).
  - unfold twoq.OnAdd. destruct (policy.Key n s) as [k|]; simpl; [|done].
    destruct (decide (k ∈ twoq.ghostIdx q)).
    + destruct (shard.insertFront n s) as [s1|] eqn:Hp; simpl; [|done].
      intros [= _ <-]. exact (insertFront_obs n s s1 Hp).
    + destruct (shard.insertFront n s) as [s1|] eqn:Hp; simpl; [|done].
      destruct (_ >? _); [destruct (last _)|]; intros [= _ <-];
        exact (insertFront_obs n s s1 Hp).
Qed.

Lemma counters_ok_obs s s' : obs s' = obs s → counters_ok s → counters_ok s'.
Proof. intros [= Hh Hm He Hl]. unfold counters_ok. by rewrite Hh, Hm, He, Hl. Qed.

Lemma filter_length_app {A} (f : A → bool) (l1 l2 : list A) :
  length (List.filter f (l1 ++ l2))
  = (length (List.filter f l1) + length (List.filter f l2))%nat.
Proof. by rewrite List.filter_app, length_app. Qed.

(** The effect of a report on the counts. *)
Lemma counters_ok_step s s' (evs : list (event K V)) (dh dm de : nat) :
  counters_ok s →
  shard.log s' = shard.log s ++ evs →
  length (List.filter is_hit evs) = dh →
  length (List.filter is_miss evs) = dm →
  count_evict evs = de →
  shard.hits s' = Nat.iter dh (fun z => wrap64 (z + 1)) (shard.hits s) →
  shard.misses s' = Nat.iter dm (fun z => wrap64 (z + 1)) (shard.misses s) →
  shard.evicts s' = Nat.iter de (fun z => wrapu64 (z + 1)) (shard.evicts s) →
  counters_ok s'.
Proof.
  intros (Hh & Hm & He) Hlog <- <- <- Hh' Hm' He'. unfold counters_ok, count_evict.
  rewrite Hlog, !filter_length_app, Hh', Hm', He', Hh, Hm, He. unfold count_evict.
  assert (∀ a b, Nat.iter b (fun z => wrap64 (z + 1)) (wrap64 (Z.of_nat a))
                 = wrap64 (Z.of_nat (a + b))) as Hw.
  { intros a b. induction b as [|b IH]; simpl.
    - by rewrite Nat.add_0_r.
    - rewrite IH, wrap64_succ. f_equal. lia. }
  assert (∀ a b, Nat.iter b (fun z => wrapu64 (z + 1)) (wrapu64 (Z.of_nat a))
                 = wrapu64 (Z.of_nat (a + b))) as Hu.
  { intros a b. induction b as [|b IH]; simpl.
    - by rewrite Nat.add_0_r.
    - rewrite IH, wrapu64_succ. f_equal. lia. }
  by rewrite !Hw, Hu.
Qed.

Lemma evictNode_counters n r s s' :
  counters_ok s → shard.evictNode n r s = Some s' → counters_ok s'.
Proof.
  intros Hok. unfold shard.evictNode.
  destruct (shard.pol_OnRemove n s) as [s1|] eqn:H1; simpl; [|done].
  destruct (shard.removeNode n s1) as [s2|] eqn:H2; simpl; [|done].
  destruct (shard.heap s2 !! n) as [x|]; simpl; [|done].
  pose proof (pol_OnRemove_obs _ _ _ H1) as Ho1.
  pose proof (removeNode_obs _ _ _ H2) as Ho2.
  rewrite Ho1 in Ho2. injection Ho2 as Hh Hm He Hl.
  intros [= <-].
  apply (counters_ok_step s _ (evict_events (shard.opt s2) x r) 0 0 1 Hok).
  - unfold evict_events. destruct (OnEvict (shard.opt s2)); simpl; rewrite Hl;
      by rewrite <- ?app_assoc.
  - unfold evict_events. by destruct (OnEvict _).
  - unfold evict_events. by destruct (OnEvict _).
  - unfold evict_events, count_evict. by destruct (OnEvict _).
  - destruct (OnEvict _); simpl; done.
  - destruct (OnEvict _); simpl; done.
  - destruct (OnEvict _); simpl; by rewrite He.
Qed.

Lemma evictWhileLen_counters fuel s s' :
  counters_ok s → shard.evictWhileLen fuel s = Some s' → counters_ok s'.
Proof.
  revert s. induction fuel as [|fuel IH]; intros s Hok; simpl; [done|].
  destruct (_ >? _); [|by intros [= <-]].
  destruct (shard.back s) as [tl|]; [|by intros [= <-]].
  destruct (shard.evictNode tl EvictPolicy s) as [s1|] eqn:Hev; simpl; [|done].
  apply IH. by eapply evictNode_counters.
Qed.

Lemma evictWhileCost_counters fuel s s' :
  counters_ok s → shard.evictWhileCost fuel s = Some s' → counters_ok s'.
Proof.
  revert s. induction fuel as [|fuel IH]; intros s Hok; simpl; [done|].
  destruct (_ >? _); [|by intros [= <-]].
  destruct (shard.back s) as [tl|]; [|by intros [= <-]].
  destruct (shard.evictNode tl EvictCapacity s) as [s1|] eqn:Hev; simpl; [|done].
  apply IH. by eapply evictNode_counters.
Qed.

Lemma emit_counters s (e : event K V) :
  counters_ok s → is_hit e = false → is_miss e = false → is_evict e = false →
  counters_ok (shard.emit e s).
Proof.
  intros Hok Hh Hm He.
  apply (counters_ok_step s _ [e] 0 0 0 Hok); simpl; try done.
  - by rewrite Hh.
  - by rewrite Hm.
  - unfold count_evict. simpl. by rewrite He.
Qed.

Lemma enforce_counters s s' :
  counters_ok s → shard.enforceLimitsLocked s = Some s' → counters_ok s'.
Proof.
  intros Hok. unfold shard.enforceLimitsLocked.
  destruct (shard.evictWhileLen _ s) as [s1|] eqn:H1; [|done].
  pose proof (evictWhileLen_counters _ _ _ Hok H1) as Hok1.
  cbn -[shard.loop_fuel shard.evictWhileCost].
  destruct (shard.maxCost s1 >? 0).
  - destruct (shard.evictWhileCost (shard.loop_fuel s1) s1) as [s2|] eqn:H2; [|done].
    pose proof (evictWhileCost_counters _ _ _ Hok1 H2) as Hok2.
    cbn. intros [= <-]. by apply emit_counters.
  - cbn. intros [= <-]. by apply emit_counters.
Qed.

Lemma insertNew_counters s (k : K) (v : V) ttl c s' :
  counters_ok s → shard.insertNew k v ttl c s = Some s' → counters_ok s'.
Proof.
  intros Hok. unfold shard.insertNew, shard.alloc.
  match goal with |- context [shard.pol_OnAdd ?n ?sa] =>
    destruct (shard.pol_OnAdd n sa) as [[ev s1]|] eqn:HOn; [|done];
    pose proof (pol_OnAdd_obs _ _ _ _ HOn) as Ho end.
  assert (counters_ok s1) as Hok1 by (by apply (counters_ok_obs s)).
  cbn -[shard.enforceLimitsLocked shard.evictNode].
  destruct ev as [e|].
  - destruct (shard.evictNode e EvictPolicy s1) as [s2|] eqn:Hev; [|done].
    cbn -[shard.enforceLimitsLocked]. apply enforce_counters.
    by eapply evictNode_counters.
  - cbn -[shard.enforceLimitsLocked]. by apply enforce_counters.
Qed.

Lemma Set_counters s (k : K) (v : V) ttl c s' :
  counters_ok s → shard.Set_ k v ttl c s = Some s' → counters_ok s'.
Proof.
  intros Hok. unfold shard.Set_.
  destruct (shard.m s !! k) as [n|] eqn:Hk; [|by apply insertNew_counters].
  destruct (shard.heap s !! n) as [x|]; [|done].
  cbn -[shard.enforceLimitsLocked shard.pol_OnUpdate].
  match goal with |- context [shard.pol_OnUpdate n ?s0] =>
    destruct (shard.pol_OnUpdate n s0) as [s1|] eqn:Hup; [|done];
    pose proof (promote_obs shard.pol_OnUpdate n s0 s1 (or_intror eq_refl) Hup) as Ho
  end.
  cbn -[shard.enforceLimitsLocked]. apply enforce_counters.
  by apply (counters_ok_obs s).
Qed.

Lemma Add_counters s (k : K) (v : V) ttl c r s' :
  counters_ok s → shard.Add k v ttl c s = Some (r, s') → counters_ok s'.
Proof.
  intros Hok. unfold shard.Add.
  destruct (shard.m s !! k) as [n|] eqn:Hk; [by intros [= _ <-]|].
  destruct (shard.insertNew k v ttl c s) as [s1|] eqn:Hins; [|done].
  cbn. intros [= _ <-]. by eapply insertNew_counters.
Qed.

Lemma miss_counters s :
  counters_ok s →
  counters_ok (shard.emit Miss (shard.set_misses (wrap64 (shard.misses s + 1)) s)).
Proof. intros Hok. by apply (counters_ok_step s _ [Miss] 0 1 0 Hok). Qed.

Lemma Get_counters s now (k : K) r s' :
  counters_ok s → shard.Get now k s = Some (r, s') → counters_ok s'.
Proof.
  intros Hok. unfold shard.Get.
  destruct (shard.m s !! k) as [n|]; [|intros [= _ <-]; by apply miss_counters].
  destruct (shard.heap s !! n) as [x|]; [|done]. cbn -[shard.evictNode shard.pol_OnGet].
  destruct (shard.expiredLocked now x).
  - destruct (shard.evictNode n EvictTTL s) as [s1|] eqn:Hev; [|done].
    cbn. intros [= _ <-]. apply miss_counters. by eapply evictNode_counters.
  - destruct (shard.pol_OnGet n s) as [s1|] eqn:Hg; [|done].
    pose proof (promote_obs shard.pol_OnGet n s s1 (or_introl eq_refl) Hg) as Ho.
    cbn. destruct (shard.heap s1 !! n); [|done].
    cbn. intros [= _ <-].
    by apply (counters_ok_step s1 _ [Hit] 1 0 0 (counters_ok_obs s s1 Ho Hok)).
Qed.

Lemma Remove_counters s (k : K) r s' :
  counters_ok s → shard.Remove k s = Some (r, s') → counters_ok s'.
Proof.
  intros Hok. unfold shard.Remove.
  destruct (shard.m s !! k) as [n|]; [|by intros [= _ <-]].
  destruct (shard.pol_OnRemove n s) as [s1|] eqn:H1; [|done].
  cbn -[shard.removeNode].
  destruct (shard.removeNode n s1) as [s2|] eqn:H2; [|done].
  pose proof (pol_OnRemove_obs _ _ _ H1) as Ho1.
  pose proof (removeNode_obs _ _ _ H2) as Ho2.
  cbn. intros [= _ <-]. apply (counters_ok_obs s); [|done].
  rewrite <- Ho1, <- Ho2. done.
Qed.
End counter_facts.

Section counter_cache.
Context {K V : Type} `{Countable K} `{!util.Fnv64aKey K}.
Import cache.
Implicit Types (c : cache.t K V) (s : shard.t K V) (o : Options K V).

Lemma Get_counters_cache now k c r c' :
  shards_inv c → Forall counters_ok (shards c) →
  cache.Get now k c = Some (r, c') → Forall counters_ok (shards c').
Proof.
  intros Hc Hall Hop.
  destruct (Get_steps now k c r c' Hc Hop)
    as [(_ & _ & ->)|(_ & s & s' & Hs & Hinv & Hsop & ->)]; [done|].
  apply putShard_Forall; [done|].
  apply (Get_counters s now k r s' (getShard_Forall counters_ok k c s Hall Hs) Hsop).
Qed.

Lemma Set_counters_cache now k v c c' :
  shards_inv c → Forall counters_ok (shards c) →
  cache.Set_ now k v c = Some c' → Forall counters_ok (shards c').
Proof.
  intros Hc Hall Hop.
  destruct (Set_steps now k v c c' Hc Hop)
    as [(_ & ->)|(_ & s & s' & Hs & Hinv & Hsop & ->)]; [done|].
  apply putShard_Forall; [done|].
  apply (Set_counters s k v _ _ s' (getShard_Forall counters_ok k c s Hall Hs) Hsop).
Qed.

Lemma run_op_counters (x : op K V) c c' :
  cache_inv c → Forall counters_ok (shards c) →
  cache.run_op x c = Some c' → Forall counters_ok (shards c').
Proof.
  intros Hci Hall. pose proof Hci as [Hc Hsf]. destruct x; simpl.
  - destruct (cache.Add now k v c) as [[r c1]|] eqn:Hop; simpl; [|done].
    intros [= <-].
    destruct (Add_steps now k v c r c1 Hc Hop)
      as [(_ & _ & ->)|(_ & s & s' & Hs & Hinv & Hsop & ->)]; [done|].
    apply putShard_Forall; [done|].
    apply (Add_counters s k v _ _ r s' (getShard_Forall counters_ok k c s Hall Hs) Hsop).
  - by apply Set_counters_cache.
  - intros Hop.
    destruct (SetWithTTL_steps now k v ttl c c' Hc Hop)
      as [(_ & ->)|(_ & s & s' & Hs & Hinv & Hsop & ->)]; [done|].
    apply putShard_Forall; [done|].
    apply (Set_counters s k v _ _ s' (getShard_Forall counters_ok k c s Hall Hs) Hsop).
  - destruct (cache.Get now k c) as [[r c1]|] eqn:Hop; simpl; [|done].
    intros [= <-]. by eapply Get_counters_cache.
  - destruct (cache.Remove k c) as [[r c1]|] eqn:Hop; simpl; [|done].
    intros [= <-].
    destruct (Remove_steps k c r c1 Hc Hop)
      as [(_ & _ & ->)|(_ & s & s' & Hs & Hinv & Hsop & ->)]; [done|].
    apply putShard_Forall; [done|].
    apply (Remove_counters s k r s' (getShard_Forall counters_ok k c s Hall Hs) Hsop).
  - destruct (cache.GetOrLoad now1 now2 now3 k c) as [[r c1]|] eqn:Hop; simpl; [|done].
    intros [= <-].
    destruct (GetOrLoad_steps now1 now2 now3 k c r c1 Hci Hop)
      as (r1 & c2 & Hget1 & Hrest).
    pose proof (Get_counters_cache now1 k c r1 c2 Hc Hall Hget1) as Hall2.
    destruct (Get_keeps now1 k c r1 c2 Hc Hget1) as ((Hc2 & _) & _).
    destruct r1 as [v|]; [by destruct Hrest as [_ ->]|].
    destruct (Loader (opt c)) as [load|]; [|by destruct Hrest as [_ ->]].
    destruct Hrest as (r2 & c3 & Hget2 & Hrest).
    pose proof (Get_counters_cache now2 k c2 r2 c3 Hc2 Hall2 Hget2) as Hall3.
    destruct (Get_keeps now2 k c2 r2 c3 Hc2 Hget2) as ((Hc3 & _) & _).
    destruct r2 as [v|]; [by destruct Hrest as [_ ->]|].
    destruct (load k) as [v|e]; [|by destruct Hrest as [_ ->]].
    destruct Hrest as [_ Hset]. by eapply Set_counters_cache.
  - by intros [= <-].
Qed.

Lemma run_counters (ops : list (op K V)) c c' :
  cache_inv c → Forall counters_ok (shards c) →
  cache.run ops c = Some c' → Forall counters_ok (shards c').
Proof.
  revert c. induction ops as [|x ops IH]; intros c Hc Hall; simpl.
  - by intros [= <-].
  - destruct (cache.run_op x c) as [c1|] eqn:Hop; simpl; [|done].
    destruct (run_op_keeps x c c1 Hc Hop) as (Hc1 & _).
    apply IH; [done|]. exact (run_op_counters x c c1 Hc Hall Hop).
Qed.

(** X25. In every shard of a cache, the counters [hits], [misses] and
    [evicts] agree with the calls made on the metrics sink: they count,
    modulo 2^64, the [Hit], [Miss] and [Evict] reports of the shard. *)
Theorem counters_agree (o : Options K V) (c : cache.t K V) :
  reachable o c → Forall counters_ok (shards c).
Proof.
  intros Hr. pose proof Hr as (procs & c0 & ops & Hnew & Hcap & Hrun).
  apply (run_counters ops c0 c); [by eapply New_inv| |done].
  revert Hnew. unfold cache.New. destruct (_ <=? 0); [done|].
  destruct (makeslice_panics _ _); [done|]. intros [= <-]. simpl.
  apply Forall_replicate. done.
Qed.
End counter_cache.

Lemma counters_agree_witness :
  Forall counters_ok
    (cache.shards
       (samples.after [cache.OpSet 0 "a" 1; cache.OpGet 0 "a"; cache.OpGet 0 "b";
                       cache.OpSet 0 "b" 2; cache.OpSet 0 "c" 3]%string
          samples.opt_lru)).
Proof.
  apply (counters_agree samples.opt_lru).
  exists 1, (samples.build samples.opt_lru),
    [cache.OpSet 0 "a" 1; cache.OpGet 0 "a"; cache.OpGet 0 "b";
     cache.OpSet 0 "b" 2; cache.OpSet 0 "c" 3]%string.
  split; [reflexivity|]. split; [vm_compute; reflexivity|].
  vm_compute. reflexivity.
Defined.


(** * Edge cases: oversized entries, overflowing deadlines, promotion *)

Section oversized.
Context {K V : Type} `{Countable K}.
Import cache.
Local Abbreviation node := (node K V).
Implicit Types (h : gmap ptr node) (l : list ptr) (p n : ptr) (s : shard.t K V).

(** [Set] reaches the enforcement of the limits with the node of the key
    at the front, carrying the entry. *)
Lemma Set_front s l (k : K) (v : V) ttl c :
  wf s l → Z.of_nat (length l) <= shard.cap s → 0 <= c <= MaxInt32 →
  ∃ s0 n l0 x,
    wf s0 (n :: l0) ∧ shard.Set_ k v ttl c s = shard.enforceLimitsLocked s0 ∧
    shard.heap s0 !! n = Some x ∧ payload x = (k, v, ttl, c) ∧
    shard.maxCost s0 = shard.maxCost s.
Proof.
  intros Hwf Hlen Hc. destruct (shard.m s !! k) as [n|] eqn:Hk.
  - destruct (wf_resident _ _ _ _ Hwf Hk) as (l1 & l2 & x & -> & Hx & Hkx).
    destruct (update_spec s l1 n l2 k v ttl c Hwf Hk Hc Hlen)
      as (s0 & Hwf0 & Hrun & (x0 & Hx0 & Hpx0) & _ & _ & _ & _ & Hmc & _).
    by exists s0, n, (l1 ++ l2), x0.
  - destruct (insertNew_spec s l k v ttl c Hwf Hlen Hk Hc)
      as (n & s0 & la & nom & lb & _ & _ & _ & Hwf0 & Hrun & (x0 & Hx0 & Hpx0)
          & _ & _ & _ & _ & Hmc & _).
    exists s0, n, (la ++ lb), x0. split_and!; try done.
    unfold shard.Set_. by rewrite Hk.
Qed.

Lemma sum_cost_nonneg s l l' :
  wf s l → (∀ p, p ∈ l' → p ∈ l) → 0 <= sum_cost (shard.heap s) l'.
Proof.
  intros Hwf Hsub.
  assert (∀ p x, p ∈ l' → shard.heap s !! p = Some x → 0 <= ncost x <= MaxInt32) as Hn.
  { intros p x Hp. apply (wf_ncost _ _ Hwf). by apply Hsub. }
  pose proof (sum_cost_bound (shard.heap s) l' Hn). lia.
Qed.

(** X26. An entry whose cost exceeds the cost limit of its shard empties
    the shard: [Set] (and [Add] of a new key, which returns true) evicts
    every entry, the new one included. *)
Theorem oversized_entry_flushes s (k : K) (v : V) (ttl c : Z) :
  inv s → 0 <= c <= MaxInt32 → 0 < shard.maxCost s < c →
  ∃ s', shard.Set_ k v ttl c s = Some s' ∧ wf s' [] ∧ shard.m s' = ∅ ∧
        shard.len s' = 0 ∧
        (shard.m s !! k = None → shard.Add k v ttl c s = Some (true, s')).
Proof.
  intros (l & Hwf & Hlen & _) Hc Hmc.
  destruct (Set_front s l k v ttl c Hwf Hlen Hc)
    as (s0 & n & l0 & x & Hwf0 & Hrun & Hx & Hpx & Hmc0).
  destruct (enforceLimitsLocked_spec s0 _ Hwf0)
    as (s' & keep & capd & Hen & Htake & Hwf' & Hcost' & _ & _ & _ & _ & _ & _ & _
        & _ & _ & Hpl).
  assert (keep = []) as ->.
  { destruct keep as [|p keep]; [done|]. exfalso.
    pose proof (wf_cap _ _ Hwf0) as Hcapb.
    destruct (Z.to_nat (shard.cap s0)) as [|m] eqn:Hm; [lia|].
    simpl in Htake. injection Htake as <- Htake.
    specialize (Hcost' ltac:(lia)). rewrite (wf_cost _ _ Hwf') in Hcost'.
    simpl in Hcost'.
    destruct (same_payload_lookup _ _ n x Hpl Hx) as (x' & Hx' & Hxx').
    unfold node_cost in Hcost'. rewrite Hx' in Hcost'.
    rewrite (payload_ncost _ _ Hxx'),
      (payload_ncost x (mkNode k v None None ttl c)) in Hcost' by done.
    simpl in Hcost'.
    assert (0 <= sum_cost (shard.heap s') keep).
    { apply (sum_cost_nonneg s' (n :: keep) keep Hwf'). intros p0 Hp0. by right. }
    lia. }
  exists s'. split; [congruence|]. split; [done|]. split.
  { apply map_empty. intros k0. destruct (shard.m s' !! k0) as [p|] eqn:Hp; [|done].
    apply (wf_map _ _ Hwf') in Hp as [Hp _]. by apply elem_of_nil in Hp. }
  split; [by rewrite (wf_len _ _ Hwf')|].
  intros Hk. unfold shard.Add. rewrite Hk.
  assert (shard.insertNew k v ttl c s = Some s') as ->; [|done].
  rewrite <- Hen, <- Hrun. unfold shard.Set_. by rewrite Hk.
Qed.
End oversized.

Lemma oversized_entry_flushes_witness :
  ∃ s', cache.shard.Set_ "k"%string 11 0 11 samples.shard_cost = Some s' ∧
        wf s' [] ∧ cache.shard.m s' = ∅ ∧ cache.shard.len s' = 0 ∧
        (cache.shard.m samples.shard_cost !! "k"%string = None →
         cache.shard.Add "k"%string 11 0 11 samples.shard_cost = Some (true, s')).
Proof.
  apply (oversized_entry_flushes samples.shard_cost "k"%string 11 0 11).
  - apply newShard_inv. lia.
  - unfold MaxInt32. lia.
  - vm_compute. split; reflexivity.
Defined.

Section ttl_overflow.
Context {K V : Type} `{Countable K} `{!util.Fnv64aKey K}.
Import cache.
Implicit Types (c : cache.t K V) (s : shard.t K V) (o : Options K V).

(** X27. A TTL so long that [now + ttl] does not fit in 64 bits gives a
    deadline in the past: [deadline] wraps around to a negative value, and
    the entry [SetWithTTL] stores is expired at once: a [Get] at the same
    instant misses and removes it. *)
Theorem SetWithTTL_overflow (o : Options K V) (c c1 : cache.t K V)
    (now ttl : Z) (k : K) (v : V) :
  reachable o c → closed c = false →
  (∀ s, cache.getShard k c = Some s →
        shard.maxCost s <= 0 ∨ cache.costOf v c <= shard.maxCost s) →
  0 <= now <= MaxInt64 → 0 < ttl <= MaxInt64 → MaxInt64 < now + ttl →
  cache.SetWithTTL now k v ttl c = Some c1 →
  cache.deadline now ttl = now + ttl - 2 ^ 64 ∧ cache.deadline now ttl < 0 ∧
  ∃ c2, cache.Get now k c1 = Some (None, c2) ∧ cache_stored c2 k = None.
Proof.
  unfold MaxInt64. intros Hr Hcl Hok Hnow Httl Hov Hset.
  destruct (reachable_inv o c Hr) as ([Hc _] & _).
  assert (cache.deadline now ttl = now + ttl - 2 ^ 64) as Hd.
  { unfold cache.deadline. destruct (Z.leb_spec ttl 0); [lia|]. unfold wrap64.
    replace (now + ttl + 2 ^ 63) with (now + ttl - 2 ^ 63 + 1 * 2 ^ 64) by lia.
    rewrite Z.mod_add by lia. rewrite Z.mod_small by lia. lia. }
  split; [done|]. split; [lia|].
  destruct (SetWithTTL_steps now k v ttl c c1 Hc Hset)
    as [(Hcl' & _)|(_ & s & s' & Hs & Hinv & Hsop & ->)]; [congruence|].
  destruct (Set_stored_entry k v _ c s s' Hc Hs Hinv Hok Hsop)
    as (Hc1 & Hs1 & n & x & Hn & Hx & Hv & He).
  assert (closed (cache.putShard k s' c) = false) as Hcl1 by done.
  destruct (Get_stored_entry now k _ s' n x Hc1 Hcl1 Hs1 Hn Hx) as (c2 & Hget & Hst).
  assert (shard.expiredLocked now x = true) as Hex.
  { unfold shard.expiredLocked. rewrite He, Hd.
    destruct (Z.eqb_spec (now + ttl - 2 ^ 64) 0); [lia|].
    destruct (Z.gtb_spec now (now + ttl - 2 ^ 64)); [done|lia]. }
  rewrite Hex in Hget, Hst. by exists c2.
Qed.
End ttl_overflow.

Lemma SetWithTTL_overflow_witness :
  cache.deadline MaxInt64 1 = MaxInt64 + 1 - 2 ^ 64 ∧
  cache.deadline MaxInt64 1 < 0 ∧
  ∃ c2, cache.Get MaxInt64 "k"%string
          (samples.after [cache.OpSetWithTTL MaxInt64 "k" 7 1]%string samples.opt_lru)
        = Some (None, c2) ∧ cache_stored c2 "k"%string = None.
Proof.
  apply (SetWithTTL_overflow samples.opt_lru (samples.build samples.opt_lru)
           (samples.after [cache.OpSetWithTTL MaxInt64 "k" 7 1]%string samples.opt_lru)
           MaxInt64 1 "k"%string 7).
  - by apply (after_reachable_lru []).
  - reflexivity.
  - intros s Hs. left. vm_compute in Hs. injection Hs as <-. vm_compute. discriminate.
  - unfold MaxInt64. lia.
  - unfold MaxInt64. lia.
  - unfold MaxInt64. lia.
  - vm_compute. reflexivity.
Defined.

Section twoq_promotion.
Context {K : Type} `{Countable K} {L : Type} `{!policy.Node K L, !policy.Hooks L}.
Import policy twoq.

(** X28. Promotion.  Under the calling discipline, [OnGet(n)] moves
    the node to the front of the shard list and takes it out of A1in, if it
    was there: afterwards the node is in Am.  The other nodes of A1in stay,
    and the ghost queue is not touched.  [OnUpdate] does the same. *)
Theorem twoq_OnGet_promotes (R : gmap ptr K) (q q' : twoQ K) (n : ptr) (l l' : L) :
  disciplined (L := L) R q → OnGet n q l = Some (q', l') →
  MoveToFront n l = Some l' ∧ (n ∉ inIdx q') ∧ (n ∉ inList q') ∧
  (∀ p, p ≠ n → (p ∈ inList q' ↔ p ∈ inList q)) ∧
  ghostList q' = ghostList q ∧ ghostIdx q' = ghostIdx q ∧
  OnUpdate n q l = Some (q', l').
Proof.
  intros Hd HOn. destruct (disciplined_inv R q Hd) as [Hinv _].
  split_and!; try done; revert HOn; unfold OnGet;
    destruct (MoveToFront n l) as [l1|]; simpl; try done; intros [= <- <-]; try done.
  - destruct (decide (n ∈ inIdx q)) as [Hin|Hin]; simpl; [|done].
    intros [_ Hn]%elem_of_difference. apply Hn. by apply elem_of_singleton.
  - destruct (decide (n ∈ inIdx q)) as [Hin|Hin]; simpl.
    + intros [_ Hn]%elem_of_remove_first; [done|]. apply (in_nodup _ _ Hinv).
    + intros Hn. by apply (in_idx _ _ Hinv) in Hn.
  - intros p Hp. destruct (decide (n ∈ inIdx q)) as [Hin|Hin]; simpl; [|done].
    rewrite elem_of_remove_first by apply (in_nodup _ _ Hinv).
    split; [by intros [? _]|by intros ?].
  - by destruct (decide (n ∈ inIdx q)).
  - by destruct (decide (n ∈ inIdx q)).
Qed.
End twoq_promotion.

Lemma twoq_OnGet_promotes_witness :
  policy.MoveToFront (Hooks := samples.listHooks) 0%nat [0%nat] = Some [0%nat] ∧
  (0%nat ∉ twoq.inIdx samples.q_fresh) ∧ (0%nat ∉ twoq.inList samples.q_fresh) ∧
  (∀ p, p ≠ 0%nat →
        (p ∈ twoq.inList samples.q_fresh ↔ p ∈ twoq.inList samples.q_in)) ∧
  twoq.ghostList samples.q_fresh = twoq.ghostList samples.q_in ∧
  twoq.ghostIdx samples.q_fresh = twoq.ghostIdx samples.q_in ∧
  twoq.OnUpdate (Hooks0 := samples.listHooks) 0%nat samples.q_in [0%nat]
    = Some (samples.q_fresh, [0%nat]).
Proof.
  apply (@twoq_OnGet_promotes string _ _ (list nat) samples.listNode
           samples.listHooks (<[0%nat := "a"%string]> ∅) samples.q_in
           samples.q_fresh 0%nat [0%nat] [0%nat]).
  - exact q_in_disciplined.
  - vm_compute. reflexivity.
Defined.


(** * Construction failures, and [Add] on a key that is present *)

Section new_add.
Context {K V : Type} `{Countable K} `{!util.Fnv64aKey K}.
Import cache.
Implicit Types (c : cache.t K V) (s : shard.t K V) (o : Options K V).

(** X29. For every [Shards] an [int] holds: [New] panics when
    [Capacity <= 0]; whatever the capacity, it also panics when more than
    2^45 shards are asked for: the slice of shard pointers is then larger
    than [make] allocates, and beyond 2^62 the rounded count does not even
    fit in an [int]. *)
Theorem New_panics (procs : Z) (o : Options K V) :
  Shards o <= MaxInt64 →
  Capacity o <= 0 ∨ 2 ^ 45 < Shards o →
  cache.New procs o = None.
Proof.
  unfold MaxInt64. intros Hmax Hbad. unfold cache.New.
  destruct (Z.leb_spec (Capacity o) 0) as [Hle|Hgt]; [done|].
  destruct Hbad as [Hc|Hsh]; [lia|].
  assert (makeslice_panics 8 (cache.shard_count procs o) = true) as ->; [|done].
  unfold cache.shard_count. destruct (Z.leb_spec (Shards o) 0); [lia|].
  rewrite wrapu64_id by lia.
  destruct (NextPow2_spec (Shards o)) as (j & Hj & -> & Hle & _); [lia|].
  destruct (Z.eq_dec j 63) as [->|Hne]; [done|].
  assert (2 ^ j <= 2 ^ 62) by (apply Z.pow_le_mono_r; lia).
  rewrite wrap64_id by (unfold MinInt64, MaxInt64; lia).
  unfold makeslice_panics, maxAlloc.
  destruct (Z.ltb_spec (2 ^ 48) (8 * 2 ^ j)); [|lia].
  by rewrite orb_true_r.
Qed.

(** X30. On an open cache [Add] returns false exactly when a value is
    stored for the key, expired or not, and then changes nothing. *)
Theorem Add_present (o : Options K V) (c c' : cache.t K V) (now : Z) (k : K)
    (v : V) (r : bool) :
  reachable o c → closed c = false →
  cache.Add now k v c = Some (r, c') →
  (r = false ↔ is_Some (cache_stored c k)) ∧ (r = false → c' = c).
Proof.
  intros Hr Hcl Hadd. destruct (reachable_inv o c Hr) as ([Hc _] & _).
  destruct (Add_steps now k v c r c' Hc Hadd)
    as [(Hcl' & _)|(_ & s & s' & Hs & Hinv & Hsop & ->)]; [congruence|].
  destruct (Add_facts s k v _ _ r s' Hinv (costOf_range v c) Hsop)
    as (_ & _ & Hiff & Hsame & _).
  split.
  - unfold cache_stored. rewrite Hs. simpl. rewrite Hiff.
    destruct Hinv as (l & Hwf & _). symmetry. by apply (stored_is_Some s l).
  - intros Hf. rewrite (Hsame Hf). by apply putShard_id.
Qed.
End new_add.

Lemma New_panics_witness : cache.New 1 samples.opt_many = None.
Proof.
  apply (New_panics 1 samples.opt_many).
  - vm_compute. discriminate.
  - right. vm_compute. reflexivity.
Defined.

Lemma Add_present_witness :
  (false = false ↔
   is_Some (cache_stored
              (samples.after [cache.OpSetWithTTL 0 "k" 7 10]%string samples.opt_lru)
              "k"%string)) ∧
  (false = false →
   samples.after [cache.OpSetWithTTL 0 "k" 7 10]%string samples.opt_lru
   = samples.after [cache.OpSetWithTTL 0 "k" 7 10]%string samples.opt_lru).
Proof.
  apply (Add_present samples.opt_lru
           (samples.after [cache.OpSetWithTTL 0 "k" 7 10]%string samples.opt_lru)
           (samples.after [cache.OpSetWithTTL 0 "k" 7 10]%string samples.opt_lru)
           1000 "k"%string 8 false).
  - apply (after_reachable_lru [cache.OpSetWithTTL 0 "k" 7 10]%string).
    vm_compute. reflexivity.
  - vm_compute. reflexivity.
  - vm_compute. reflexivity.
Defined.
